(** * Failure-recovery patterns: a shallow embedding of the resilience library

    The development follows the Python sources file by file:

    - [libs/resilience/retry.py]            -> Module [Retry]
    - [libs/resilience/circuit_breaker.py]  -> Module [CircuitBreaker]
    - [libs/resilience/bulkhead.py]         -> Module [Bulkhead]
    - [libs/resilience/backpressure.py]     -> Module [Backpressure]
    - [libs/resilience/timeout.py]          -> Module [Timeout]
    - [services/gateway/main.py]            -> Module [Gateway]
    - [services/orders/main.py]             -> Module [Orders]
    - [services/notifications/main.py]      -> Module [Notifications]

    Coroutines are modelled as computations in a state-and-exception monad
    over the process state [World].  Awaiting a callable that the library
    receives from its caller ([func], [call_next]) runs an arbitrary
    computation of that monad: whatever other tasks do to the process state
    while the coroutine is suspended is part of that computation.  What the
    environment decides (clock readings, random draws, answers of the
    downstream, whether a slot is freed in time) is read from the [World].

    Python floats (seconds) are idealised as exact rationals [Q].

    The file has three parts: the embedding, the vocabulary the statements
    use, and the properties with their proofs. *)

From Stdlib Require Import ZArith QArith Qround Qpower Lqa Lia.
From stdpp Require Import base gmap strings list pretty.

Set Default Proof Using "Type".

(** ** Exceptions, values and results *)

(** The body of an [httpx.Response] is opaque to the library. *)
Record Response := mkResponse {
  status_code : Z;
  content : string;
  resp_headers : list (string * string)
}.

(** The exception classes the sources name.  [TimeoutException] stands for
    [httpx.TimeoutException] (connect, read, write and pool timeouts),
    [ConnectionError] for the builtin class (refused, reset, aborted),
    [AsyncioTimeoutError] for [asyncio.TimeoutError]. *)
Inductive exn :=
| ConnectError
| TimeoutException
| RemoteProtocolError
| ConnectionError
| AsyncioTimeoutError
| ReadError
| HTTPStatusError (message : string) (response : Response)
| HTTPException (code : Z) (detail : string) (headers : list (string * string))
| RuntimeError (message : string)
| OtherException (name : string).

(** What a wrapped operation may hand back: an [httpx.Response] or any other
    object; [isinstance(result, httpx.Response)] tells them apart. *)
Inductive value :=
| VResponse (r : Response)
| VOther (repr : string).

Inductive Res (A : Type) :=
| Ok (a : A)
| Raise (e : exn).
Arguments Ok {A} a.
Arguments Raise {A} e.

(** ** Process state *)

(** [time.monotonic()]: the readings still to come, and the latest one, which
    is returned again once the list is used up. *)
Record Clock := mkClock {
  mono_last : Q;
  mono_future : list Q
}.

Inductive CircuitState := CLOSED | OPEN | HALF_OPEN.

(** The in-process fields of a [CircuitBreaker] instance. *)
Record BreakerFields := mkBreaker {
  _state : CircuitState;
  _failures : list Q;
  _successes_in_half_open : Z;
  _opened_at : option Q
}.

(** The Prometheus series the library touches, for one label set each. *)
Record Metrics := mkMetrics {
  RETRY_ATTEMPTS : nat;
  BREAKER_STATE : Z;
  BREAKER_OPEN_TOTAL : nat;
  BULKHEAD_REJECTIONS : nat;
  LOAD_SHED_TOTAL : nat;
  DOWNSTREAM_REQUESTS_TOTAL : nat;
  DOWNSTREAM_ERRORS_TOTAL : nat
}.

(** Lines of the structured log and the suspension points that matter for
    the order of events. *)
Inductive Event :=
| retry_budget_exhausted
| retrying_request (attempt : Z) (status : Z) (delay : Q)
| retrying_after_error (attempt : Z) (error : exn) (delay : Q)
| asyncio_sleep (delay : Q)
| circuit_breaker_open
| circuit_breaker_half_open
| circuit_breaker_closed
| circuit_breaker_tripped
| semaphore_acquire
| semaphore_release
| bulkhead_rejected
| load_shed (inflight_seen : Z)
| http_request.

Record World := mkWorld {
  clock : Clock;
  (** draws of [random.random()] still to come, each in [0, 1] *)
  random_future : list Q;
  breaker : BreakerFields;
  (** [Bulkhead._semaphore._value] *)
  semaphore_value : Z;
  (** for each wait on a locked semaphore still to come: does another
      holder release a slot before [max_wait] runs out? *)
  semaphore_waits : list bool;
  (** [BackpressureMiddleware._inflight] *)
  _inflight : Z;
  (** the cell [config.retry_budget[0]]; [None] when the list is [None] *)
  retry_budget : option Z;
  metrics : Metrics;
  (** what the downstream does with each request still to come *)
  network : list (Res Response);
  log : list Event
}.

Definition set_clock (c : Clock) (w : World) : World :=
  mkWorld c (random_future w) (breaker w) (semaphore_value w)
          (semaphore_waits w) (_inflight w) (retry_budget w) (metrics w)
          (network w) (log w).
Definition set_random_future (r : list Q) (w : World) : World :=
  mkWorld (clock w) r (breaker w) (semaphore_value w)
          (semaphore_waits w) (_inflight w) (retry_budget w) (metrics w)
          (network w) (log w).
Definition set_breaker (b : BreakerFields) (w : World) : World :=
  mkWorld (clock w) (random_future w) b (semaphore_value w)
          (semaphore_waits w) (_inflight w) (retry_budget w) (metrics w)
          (network w) (log w).
Definition set_semaphore_value (v : Z) (w : World) : World :=
  mkWorld (clock w) (random_future w) (breaker w) v
          (semaphore_waits w) (_inflight w) (retry_budget w) (metrics w)
          (network w) (log w).
Definition set_semaphore_waits (o : list bool) (w : World) : World :=
  mkWorld (clock w) (random_future w) (breaker w) (semaphore_value w)
          o (_inflight w) (retry_budget w) (metrics w)
          (network w) (log w).
Definition set_inflight (n : Z) (w : World) : World :=
  mkWorld (clock w) (random_future w) (breaker w) (semaphore_value w)
          (semaphore_waits w) n (retry_budget w) (metrics w)
          (network w) (log w).
Definition set_retry_budget (b : option Z) (w : World) : World :=
  mkWorld (clock w) (random_future w) (breaker w) (semaphore_value w)
          (semaphore_waits w) (_inflight w) b (metrics w)
          (network w) (log w).
Definition set_metrics (m : Metrics) (w : World) : World :=
  mkWorld (clock w) (random_future w) (breaker w) (semaphore_value w)
          (semaphore_waits w) (_inflight w) (retry_budget w) m
          (network w) (log w).
Definition set_network (n : list (Res Response)) (w : World) : World :=
  mkWorld (clock w) (random_future w) (breaker w) (semaphore_value w)
          (semaphore_waits w) (_inflight w) (retry_budget w) (metrics w)
          n (log w).
Definition set_log (l : list Event) (w : World) : World :=
  mkWorld (clock w) (random_future w) (breaker w) (semaphore_value w)
          (semaphore_waits w) (_inflight w) (retry_budget w) (metrics w)
          (network w) l.

(** ** The monad of coroutines *)

Definition M (A : Type) : Type := World -> Res A * World.

Definition ret {A} (a : A) : M A := fun w => (Ok a, w).
Definition raise {A} (e : exn) : M A := fun w => (Raise e, w).
Definition bind {A B} (m : M A) (k : A -> M B) : M B :=
  fun w => match m w with
           | (Ok a, w') => k a w'
           | (Raise e, w') => (Raise e, w')
           end.

Declare Scope coro_scope.
Delimit Scope coro_scope with coro.
Notation "x <- m ;; k" := (bind m (fun x => k))
  (at level 100, m at next level, right associativity) : coro_scope.
Notation "m ;; k" := (bind m (fun _ => k))
  (at level 100, right associativity) : coro_scope.
Open Scope coro_scope.

(** [try: body  except E as e: handler e] for the exceptions [catches]
    selects; the others pass through. *)
Definition try_except {A} (body : M A) (catches : exn -> bool)
    (handler : exn -> M A) : M A :=
  fun w => match body w with
           | (Ok a, w') => (Ok a, w')
           | (Raise e, w') =>
               if catches e then handler e w' else (Raise e, w')
           end.

(** [try: body  finally: cleanup].  An exception raised by [cleanup]
    replaces the outcome of [body]. *)
Definition try_finally {A} (body : M A) (cleanup : M unit) : M A :=
  fun w => match body w with
           | (r, w') =>
               match cleanup w' with
               | (Ok _, w'') => (r, w'')
               | (Raise e, w'') => (Raise e, w'')
               end
           end.

Definition gets {A} (f : World -> A) : M A := fun w => (Ok (f w), w).
Definition modify (f : World -> World) : M unit := fun w => (Ok tt, f w).

Definition logger (e : Event) : M unit :=
  modify (fun w => set_log (log w ++ [e]) w).

Definition time_monotonic : M Q :=
  fun w => match mono_future (clock w) with
           | [] => (Ok (mono_last (clock w)), w)
           | t :: ts => (Ok t, set_clock (mkClock t ts) w)
           end.

(** [random.random()]; an exhausted supply draws [0]. *)
Definition random_random : M Q :=
  fun w => match random_future w with
           | [] => (Ok 0%Q, w)
           | r :: rs => (Ok r, set_random_future rs w)
           end.

(** [asyncio.sleep(delay)]: a suspension point. *)
Definition asyncio_sleep_for (delay : Q) : M unit := logger (asyncio_sleep delay).

Definition counter_inc (read : Metrics -> nat) (write : nat -> Metrics -> Metrics) : M unit :=
  modify (fun w => set_metrics (write (S (read (metrics w))) (metrics w)) w).

Definition set_RETRY_ATTEMPTS (n : nat) (m : Metrics) : Metrics :=
  mkMetrics n (BREAKER_STATE m) (BREAKER_OPEN_TOTAL m) (BULKHEAD_REJECTIONS m)
            (LOAD_SHED_TOTAL m) (DOWNSTREAM_REQUESTS_TOTAL m)
            (DOWNSTREAM_ERRORS_TOTAL m).
Definition set_BREAKER_STATE (g : Z) (m : Metrics) : Metrics :=
  mkMetrics (RETRY_ATTEMPTS m) g (BREAKER_OPEN_TOTAL m) (BULKHEAD_REJECTIONS m)
            (LOAD_SHED_TOTAL m) (DOWNSTREAM_REQUESTS_TOTAL m)
            (DOWNSTREAM_ERRORS_TOTAL m).
Definition set_BREAKER_OPEN_TOTAL (n : nat) (m : Metrics) : Metrics :=
  mkMetrics (RETRY_ATTEMPTS m) (BREAKER_STATE m) n (BULKHEAD_REJECTIONS m)
            (LOAD_SHED_TOTAL m) (DOWNSTREAM_REQUESTS_TOTAL m)
            (DOWNSTREAM_ERRORS_TOTAL m).
Definition set_BULKHEAD_REJECTIONS (n : nat) (m : Metrics) : Metrics :=
  mkMetrics (RETRY_ATTEMPTS m) (BREAKER_STATE m) (BREAKER_OPEN_TOTAL m) n
            (LOAD_SHED_TOTAL m) (DOWNSTREAM_REQUESTS_TOTAL m)
            (DOWNSTREAM_ERRORS_TOTAL m).
Definition set_LOAD_SHED_TOTAL (n : nat) (m : Metrics) : Metrics :=
  mkMetrics (RETRY_ATTEMPTS m) (BREAKER_STATE m) (BREAKER_OPEN_TOTAL m)
            (BULKHEAD_REJECTIONS m) n (DOWNSTREAM_REQUESTS_TOTAL m)
            (DOWNSTREAM_ERRORS_TOTAL m).
Definition set_DOWNSTREAM_REQUESTS_TOTAL (n : nat) (m : Metrics) : Metrics :=
  mkMetrics (RETRY_ATTEMPTS m) (BREAKER_STATE m) (BREAKER_OPEN_TOTAL m)
            (BULKHEAD_REJECTIONS m) (LOAD_SHED_TOTAL m) n
            (DOWNSTREAM_ERRORS_TOTAL m).
Definition set_DOWNSTREAM_ERRORS_TOTAL (n : nat) (m : Metrics) : Metrics :=
  mkMetrics (RETRY_ATTEMPTS m) (BREAKER_STATE m) (BREAKER_OPEN_TOTAL m)
            (BULKHEAD_REJECTIONS m) (LOAD_SHED_TOTAL m)
            (DOWNSTREAM_REQUESTS_TOTAL m) n.

(** One request over [httpx.AsyncClient]: the downstream answers, or the
    transport fails (connect, read, timeout).  A network with nothing left to
    say refuses the connection. *)
Definition client_request : M Response :=
  fun w =>
    let w' := set_log (log w ++ [http_request]) w in
    match network w with
    | [] => (Raise ConnectError, w')
    | outcome :: rest => (outcome, set_network rest w')
    end.

(** [resp.raise_for_status()] on a response that is an error. *)
Definition raise_for_status (resp : Response) : M unit :=
  raise (HTTPStatusError ("Server error " +:+ pretty (status_code resp)) resp).

(** Python's [min(a, b)]: the first argument unless the second is smaller. *)
Definition py_min (a b : Q) : Q := if Qlt_le_dec b a then b else a.

(** Python's [x or y] on an optional exception: exceptions are truthy. *)
Definition or_else (last_exc : option exn) (fallback : exn) : exn :=
  match last_exc with Some e => e | None => fallback end.

(** ** libs/resilience/retry.py *)

Module Retry.

Definition DEFAULT_RETRYABLE_STATUS : gset Z := {[ 429; 500; 502; 503; 504 ]}%Z.

(** [RetryConfig] without its one mutable part: the cell of [retry_budget]
    lives in the [World]. *)
Record RetryConfig := mkRetryConfig {
  max_attempts : Z;
  base_delay : Q;
  max_delay : Q;
  multiplier : Q;
  jitter : bool;
  retryable_status_codes : gset Z
}.

Definition RetryConfig_default : RetryConfig :=
  mkRetryConfig 3 0.1 30 2 true DEFAULT_RETRYABLE_STATUS.

Definition _backoff_delay (attempt : Z) (config : RetryConfig) : M Q :=
  let base := py_min (base_delay config * multiplier config ^ attempt)
                     (max_delay config) in
  if jitter config then
    r <- random_random ;;
    ret (0 + (base - 0) * r)%Q
  else ret base.

(** The tuple of the [except] clause of [retry_with_backoff]. *)
Definition is_transport_error (exc : exn) : bool :=
  match exc with
  | ConnectError | TimeoutException | RemoteProtocolError
  | ConnectionError | AsyncioTimeoutError => true
  | _ => false
  end.

Definition budget_exhausted (w : World) : bool :=
  match retry_budget w with
  | Some b => (b <=? 0)%Z
  | None => false
  end.

(** [if config.retry_budget is not None: config.retry_budget[0] -= 1] *)
Definition spend_budget : M unit :=
  modify (fun w => match retry_budget w with
                   | Some b => set_retry_budget (Some (b - 1)%Z) w
                   | None => w
                   end).

(** How one pass through the body of the [for] loop ends, when it does not
    raise: [return result], or on to the next attempt with [last_exc]. *)
Inductive LoopStep :=
| Return (result : value)
| Continue (last_exc : option exn).

Definition is_retryable_status (config : RetryConfig) (r : Response) : bool :=
  bool_decide (status_code r ∈ retryable_status_codes config).

(** The [try] statement of the loop body, for attempt number [attempt]. *)
Definition try_attempt (func : M value) (config : RetryConfig)
    (attempt : Z) (last_exc : option exn) : M LoopStep :=
  try_except
    (result <- func ;;
     match result with
     | VResponse r =>
         if is_retryable_status config r then
           if (attempt <? max_attempts config - 1)%Z then
             delay <- _backoff_delay attempt config ;;
             counter_inc RETRY_ATTEMPTS set_RETRY_ATTEMPTS ;;
             logger (retrying_request (attempt + 1) (status_code r) delay) ;;
             spend_budget ;;
             asyncio_sleep_for delay ;;
             ret (Continue (Some (HTTPStatusError
                    ("Retryable status " +:+ pretty (status_code r)) r)))
           else ret (Return result)
         else ret (Return result)
     | VOther _ => ret (Return result)
     end)
    is_transport_error
    (fun exc =>
       if (attempt <? max_attempts config - 1)%Z then
         delay <- _backoff_delay attempt config ;;
         counter_inc RETRY_ATTEMPTS set_RETRY_ATTEMPTS ;;
         logger (retrying_after_error (attempt + 1) exc delay) ;;
         spend_budget ;;
         asyncio_sleep_for delay ;;
         ret (Continue (Some exc))
       else raise exc).

(** [for attempt in range(config.max_attempts)], from [attempt] on, with
    [todo] passes left; after the last pass comes the statement that
    follows the loop. *)
Fixpoint attempts_from (func : M value) (config : RetryConfig)
    (todo : nat) (attempt : Z) (last_exc : option exn) : M value :=
  match todo with
  | O => raise (or_else last_exc (RuntimeError "Retry failed without exception"))
  | S todo' =>
      exhausted <- gets budget_exhausted ;;
      if (exhausted : bool) then
        logger retry_budget_exhausted ;;
        raise (or_else last_exc (RuntimeError "Retry budget exhausted"))
      else
        step <- try_attempt func config attempt last_exc ;;
        match step with
        | Return result => ret result
        | Continue last_exc' =>
            attempts_from func config todo' (attempt + 1) last_exc'
        end
  end.

Definition retry_with_backoff (func : M value) (config : RetryConfig) : M value :=
  attempts_from func config (Z.to_nat (max_attempts config)) 0 None.

End Retry.

(** Python's [int(x)] on a float: truncation towards zero. *)
Definition py_int (x : Q) : Z :=
  if Qlt_le_dec x 0 then Qceiling x else Qfloor x.

(** Truthiness of an [Optional[float]]: [None] and [0.0] are falsy. *)
Definition truthy (x : option Q) : bool :=
  match x with
  | None => false
  | Some t => negb (Qeq_bool t 0)
  end.

Definition gauge_set (g : Z) : M unit :=
  modify (fun w => set_metrics (set_BREAKER_STATE g (metrics w)) w).

(** ** libs/resilience/circuit_breaker.py *)

Module CircuitBreaker.

(** The constructor arguments; [redis_client] is stored and never used. *)
Record CircuitBreaker := mkCircuitBreaker {
  name : string;
  failure_threshold : Z;
  success_threshold : Z;
  open_duration : Q;
  window_size : Q
}.

Definition CircuitBreaker_default (name : string) : CircuitBreaker :=
  mkCircuitBreaker name 5 2 30 60.

(** The fields [__init__] sets. *)
Definition init : BreakerFields := mkBreaker CLOSED [] 0 None.

Definition set_state (s : CircuitState) (b : BreakerFields) : BreakerFields :=
  mkBreaker s (_failures b) (_successes_in_half_open b) (_opened_at b).
Definition set_failures (fs : list Q) (b : BreakerFields) : BreakerFields :=
  mkBreaker (_state b) fs (_successes_in_half_open b) (_opened_at b).
Definition set_successes_in_half_open (n : Z) (b : BreakerFields) : BreakerFields :=
  mkBreaker (_state b) (_failures b) n (_opened_at b).
Definition set_opened_at (t : option Q) (b : BreakerFields) : BreakerFields :=
  mkBreaker (_state b) (_failures b) (_successes_in_half_open b) t.

Definition update (f : BreakerFields -> BreakerFields) : M unit :=
  modify (fun w => set_breaker (f (breaker w)) w).

(** [t > cutoff] *)
Definition later_than (cutoff t : Q) : bool :=
  if Qlt_le_dec cutoff t then true else false.

Definition _prune_window (self : CircuitBreaker) : M unit :=
  now <- time_monotonic ;;
  let cutoff := (now - window_size self)%Q in
  update (fun b => set_failures (List.filter (later_than cutoff) (_failures b)) b).

Definition _trip (self : CircuitBreaker) (now : Q) : M unit :=
  update (set_state OPEN) ;;
  update (set_opened_at (Some now)) ;;
  gauge_set 1 ;;
  counter_inc BREAKER_OPEN_TOTAL set_BREAKER_OPEN_TOTAL ;;
  logger circuit_breaker_tripped.

(** [x >= y] on floats *)
Definition at_least (x y : Q) : bool :=
  if Qlt_le_dec x y then false else true.

Definition _get_state (self : CircuitBreaker) : M CircuitState :=
  b <- gets breaker ;;
  match _state b with
  | OPEN =>
      match _opened_at b with
      | Some opened_at =>
          if truthy (Some opened_at) then
            now <- time_monotonic ;;
            if at_least (now - opened_at) (open_duration self) then
              logger circuit_breaker_half_open ;;
              update (set_state HALF_OPEN) ;;
              update (set_successes_in_half_open 0)
            else ret tt
          else ret tt
      | None => ret tt
      end
  | CLOSED => _prune_window self
  | HALF_OPEN => ret tt
  end ;;
  gets (fun w => _state (breaker w)).

Definition _on_success (self : CircuitBreaker) : M unit :=
  b <- gets breaker ;;
  match _state b with
  | HALF_OPEN =>
      let n := (_successes_in_half_open b + 1)%Z in
      update (set_successes_in_half_open n) ;;
      if (n >=? success_threshold self)%Z then
        logger circuit_breaker_closed ;;
        update (set_state CLOSED) ;;
        update (set_failures []) ;;
        gauge_set 0
      else ret tt
  | CLOSED => ret tt
  | OPEN => ret tt
  end.

Definition _on_failure (self : CircuitBreaker) : M unit :=
  now <- time_monotonic ;;
  b <- gets breaker ;;
  match _state b with
  | HALF_OPEN => _trip self now
  | _ =>
      update (fun b => set_failures (_failures b ++ [now]) b) ;;
      _prune_window self ;;
      b' <- gets breaker ;;
      if (Z.of_nat (length (_failures b')) >=? failure_threshold self)%Z then
        _trip self now
      else ret tt
  end.

Definition breaker_open_error (self : CircuitBreaker) : exn :=
  HTTPException 503 ("Circuit breaker OPEN for " +:+ name self)
                [("Retry-After", pretty (py_int (open_duration self)))].

Definition call {A} (self : CircuitBreaker) (func : M A)
    (fallback : option (M A)) : M A :=
  state <- _get_state self ;;
  match state with
  | OPEN =>
      logger circuit_breaker_open ;;
      gauge_set 1 ;;
      match fallback with
      | Some fb => fb
      | None => raise (breaker_open_error self)
      end
  | _ =>
      match state with
      | HALF_OPEN => gauge_set 2
      | _ => ret tt
      end ;;
      try_except
        (result <- func ;;
         _on_success self ;;
         ret result)
        (fun _ => true)
        (fun exc => _on_failure self ;; raise exc)
  end.

End CircuitBreaker.

(** ** libs/resilience/bulkhead.py *)

Module Bulkhead.

Record Bulkhead := mkBulkhead {
  name : string;
  max_concurrent : Z;
  max_wait : Q
}.

(** [asyncio.Semaphore(max_concurrent)] starts with [_value = max_concurrent]. *)
Definition init_value (self : Bulkhead) : Z := max_concurrent self.

(** [await asyncio.wait_for(self._semaphore.acquire(), timeout=self.max_wait)].
    A timeout that is not positive cancels the acquisition before it starts.
    A free slot is taken at once.  On a locked semaphore the task waits: either
    another holder releases in time and the slot passes to this task (the
    value goes up and down again), or [asyncio.TimeoutError] is raised. *)
Definition wait_for_acquire (self : Bulkhead) : M bool :=
  fun w =>
    if Qle_bool (max_wait self) 0 then (Raise AsyncioTimeoutError, w)
    else if (0 <? semaphore_value w)%Z then
      (Ok true, set_log (log w ++ [semaphore_acquire])
                  (set_semaphore_value (semaphore_value w - 1) w))
    else
      match semaphore_waits w with
      | true :: rest =>
          (Ok true, set_log (log w ++ [semaphore_acquire])
                      (set_semaphore_waits rest w))
      | false :: rest => (Raise AsyncioTimeoutError, set_semaphore_waits rest w)
      | [] => (Raise AsyncioTimeoutError, w)
      end.

Definition release : M unit :=
  modify (fun w => set_log (log w ++ [semaphore_release])
                     (set_semaphore_value (semaphore_value w + 1) w)).

Definition bulkhead_full_error (self : Bulkhead) : exn :=
  HTTPException 503
    ("Bulkhead full for " +:+ name self +:+ " (max "
       +:+ pretty (max_concurrent self) +:+ ")")
    [("Retry-After", "2")].

Definition is_asyncio_timeout (exc : exn) : bool :=
  match exc with AsyncioTimeoutError => true | _ => false end.

Definition call {A} (self : Bulkhead) (func : M A) : M A :=
  try_except (wait_for_acquire self)
    is_asyncio_timeout
    (fun _ =>
       counter_inc BULKHEAD_REJECTIONS set_BULKHEAD_REJECTIONS ;;
       logger bulkhead_rejected ;;
       raise (bulkhead_full_error self)) ;;
  try_finally func release.

(** The property [available_slots]. *)
Definition available_slots (w : World) : Z := semaphore_value w.

End Bulkhead.

(** ** libs/resilience/backpressure.py *)

Module Backpressure.

Record BackpressureMiddleware := mkBackpressure {
  _max_inflight : Z;
  _skip_paths : gset string
}.

Definition default_skip_paths : gset string := {[ "/health"; "/metrics"; "/ready" ]}.

Definition shed_response : Response :=
  mkResponse 429 "Too many requests - server overloaded" [("Retry-After", "5")].

(** The block under [async with self._lock]: the shed response, or [None]
    once the counter is incremented. *)
Definition try_enter (self : BackpressureMiddleware) : M (option Response) :=
  n <- gets _inflight ;;
  if (n >=? _max_inflight self)%Z then
    counter_inc LOAD_SHED_TOTAL set_LOAD_SHED_TOTAL ;;
    logger (load_shed n) ;;
    ret (Some shed_response)
  else
    modify (fun w => set_inflight (_inflight w + 1) w) ;;
    ret None.

Definition dispatch (self : BackpressureMiddleware) (path : string)
    (call_next : M Response) : M Response :=
  if bool_decide (path ∈ _skip_paths self) then call_next
  else
    shed <- try_enter self ;;
    match shed with
    | Some response => ret response
    | None =>
        try_finally call_next
          (modify (fun w => set_inflight (_inflight w - 1) w))
    end.

End Backpressure.

(** ** libs/resilience/timeout.py *)

(** A Python float: a finite value, an infinity or a NaN. *)
Inductive pyfloat :=
| Finite (q : Q)
| PosInf
| NegInf
| NaN.

Module Timeout.

Definition DEADLINE_HEADER : string := "X-Request-Deadline".

(** [a - b] for a finite [b] *)
Definition fsub (a : pyfloat) (b : Q) : pyfloat :=
  match a with
  | Finite x => Finite (x - b)
  | other => other
  end.

(** [a > 0]; every comparison with a NaN is false. *)
Definition gt_zero (a : pyfloat) : bool :=
  match a with
  | Finite x => if Qlt_le_dec 0 x then true else false
  | PosInf => true
  | NegInf | NaN => false
  end.

(** [b < a] *)
Definition flt (b a : pyfloat) : bool :=
  match b, a with
  | NaN, _ | _, NaN => false
  | NegInf, NegInf => false
  | NegInf, _ => true
  | _, NegInf => false
  | PosInf, _ => false
  | Finite _, PosInf => true
  | Finite x, Finite y => if Qlt_le_dec x y then true else false
  end.

(** [min(a, b)] *)
Definition fmin (a b : pyfloat) : pyfloat := if flt b a then b else a.

Record TimeoutConfig := mkTimeoutConfig {
  connect_timeout : pyfloat;
  read_timeout : pyfloat;
  write_timeout : pyfloat;
  deadline : option pyfloat
}.

(** [cls()] *)
Definition TimeoutConfig_default : TimeoutConfig :=
  mkTimeoutConfig (Finite 2) (Finite 10) (Finite 5) None.

Definition set_read_timeout (t : pyfloat) (c : TimeoutConfig) : TimeoutConfig :=
  mkTimeoutConfig (connect_timeout c) t (write_timeout c) (deadline c).
Definition set_deadline (d : option pyfloat) (c : TimeoutConfig) : TimeoutConfig :=
  mkTimeoutConfig (connect_timeout c) (read_timeout c) (write_timeout c) d.

Section FromHeader.

(** The builtin [float(s)]: [None] stands for [ValueError]. *)
Variable float : string -> option pyfloat.

(** [now] is the reading of [time.time()]. *)
Definition from_deadline_header (now : Q) (header_value : option string)
    : TimeoutConfig :=
  let config := TimeoutConfig_default in
  match header_value with
  | None => config
  | Some "" => config
  | Some text =>
      match float text with
      | Some d =>
          let config := set_deadline (Some d) config in
          let remaining := fsub d now in
          if gt_zero remaining then
            set_read_timeout (fmin (read_timeout config) remaining) config
          else
            set_read_timeout (Finite 0.001) config
      | None => config
      end
  end.

End FromHeader.

(** [remaining_seconds] and [is_expired], again for a reading [now]. *)
Definition remaining_seconds (self : TimeoutConfig) (now : Q) : option pyfloat :=
  match deadline self with
  | None => None
  | Some d =>
      let r := fsub d now in
      (* max(0.0, r): the first argument unless the second is larger *)
      Some (if flt (Finite 0) r then r else Finite 0)
  end.

(** [time.time() >= self.deadline] *)
Definition is_expired (self : TimeoutConfig) (now : Q) : bool :=
  match deadline self with
  | None => false
  | Some d => negb (flt (Finite now) d)
              && match d with NaN => false | _ => true end
  end.

(** A reader for decimal literals [[+-]digits[.digits]], the shape in which
    the gateway writes the header ([str(time.time() + 25.0)]).  On these
    literals it returns the exact value that [float] rounds. *)
Definition digit_of (c : Ascii.ascii) : option Z :=
  let n := Z.of_N (Ascii.N_of_ascii c) in
  if ((48 <=? n) && (n <=? 57))%Z then Some (n - 48)%Z else None.

Fixpoint read_digits (s : string) (acc : Z) (count : nat) : Z * nat * string :=
  match s with
  | String c rest =>
      match digit_of c with
      | Some d => read_digits rest (10 * acc + d)%Z (S count)
      | None => (acc, count, s)
      end
  | EmptyString => (acc, count, s)
  end.

Definition is_char (code : N) (c : Ascii.ascii) : bool :=
  N.eqb (Ascii.N_of_ascii c) code.

Definition read_unsigned (s : string) : option Q :=
  let '(whole, n1, rest) := read_digits s 0 0 in
  match rest with
  | EmptyString => if Nat.eqb n1 0 then None else Some (inject_Z whole)
  | String c frac_text =>
      (* 46 is the full stop *)
      if is_char 46 c then
        let '(frac, n2, rest') := read_digits frac_text 0 0 in
        match rest' with
        | EmptyString =>
            if Nat.eqb (n1 + n2) 0 then None
            else Some (inject_Z whole
                       + inject_Z frac / inject_Z (10 ^ Z.of_nat n2))%Q
        | String _ _ => None
        end
      else None
  end.

Definition float_of_decimal (s : string) : option pyfloat :=
  match s with
  | String sign rest =>
      (* 45 is the minus sign, 43 the plus sign *)
      if is_char 45 sign then (fun q => Finite (- q)%Q) <$> read_unsigned rest
      else if is_char 43 sign then Finite <$> read_unsigned rest
      else Finite <$> read_unsigned s
  | EmptyString => None
  end.

End Timeout.

(** ** services/gateway/main.py *)

Module Gateway.

Definition _orders_breaker : CircuitBreaker.CircuitBreaker :=
  CircuitBreaker.mkCircuitBreaker "orders" 5 2 30 60.
Definition _orders_bulkhead : Bulkhead.Bulkhead :=
  Bulkhead.mkBulkhead "orders" 50 1.
(** [RetryConfig(max_attempts=3, base_delay=0.1, max_delay=5.0)]; no budget. *)
Definition _retry_config : Retry.RetryConfig :=
  Retry.mkRetryConfig 3 0.1 5 2 true Retry.DEFAULT_RETRYABLE_STATUS.

Definition _do_request : M value :=
  resp <- client_request ;;
  (if (status_code resp >=? 500)%Z then raise_for_status resp else ret tt) ;;
  ret (VResponse resp).

Definition _forward (breaker : CircuitBreaker.CircuitBreaker)
    (bulkhead : Bulkhead.Bulkhead) : M value :=
  let _in_breaker := CircuitBreaker.call breaker _do_request None in
  let _in_bulkhead := Bulkhead.call bulkhead _in_breaker in
  Retry.retry_with_backoff _in_bulkhead _retry_config.

End Gateway.

(** ** services/orders/main.py *)

Module Orders.

Definition _payments_breaker : CircuitBreaker.CircuitBreaker :=
  CircuitBreaker.mkCircuitBreaker "payments" 5 2 30 60.
Definition _payments_bulkhead : Bulkhead.Bulkhead :=
  Bulkhead.mkBulkhead "payments" 20 1.

(** The inner coroutine [_do] of [_call_payments] and [_call_inventory]. *)
Definition _do : M value :=
  counter_inc DOWNSTREAM_REQUESTS_TOTAL set_DOWNSTREAM_REQUESTS_TOTAL ;;
  resp <- client_request ;;
  (if (status_code resp >=? 500)%Z then
     counter_inc DOWNSTREAM_ERRORS_TOTAL set_DOWNSTREAM_ERRORS_TOTAL ;;
     raise_for_status resp
   else ret tt) ;;
  ret (VResponse resp).

(** [resp.json()]: the decoded body; a body that is empty does not decode. *)
Definition json (v : value) : M string :=
  match v with
  | VResponse resp =>
      if String.eqb (content resp) "" then raise (OtherException "JSONDecodeError")
      else ret (content resp)
  | VOther _ => raise (OtherException "AttributeError")
  end.

(** [_call_payments]: a fresh budget cell holding 3, then
    bulkhead, breaker, retry around [_do]. *)
Definition _call_payments : M string :=
  modify (set_retry_budget (Some 3%Z)) ;;
  let retry_cfg := Retry.mkRetryConfig 3 0.2 5 2 true Retry.DEFAULT_RETRYABLE_STATUS in
  resp <- Bulkhead.call _payments_bulkhead
            (CircuitBreaker.call _payments_breaker
               (Retry.retry_with_backoff _do retry_cfg) None) ;;
  json resp.

Definition _inventory_breaker : CircuitBreaker.CircuitBreaker :=
  CircuitBreaker.mkCircuitBreaker "inventory" 5 2 30 60.
Definition _inventory_bulkhead : Bulkhead.Bulkhead :=
  Bulkhead.mkBulkhead "inventory" 20 1.

(** [_call_inventory]: no budget list, then bulkhead, breaker, retry around
    [_do]. *)
Definition _call_inventory : M string :=
  modify (set_retry_budget None) ;;
  let retry_cfg := Retry.mkRetryConfig 3 0.2 5 2 true Retry.DEFAULT_RETRYABLE_STATUS in
  resp <- Bulkhead.call _inventory_bulkhead
            (CircuitBreaker.call _inventory_breaker
               (Retry.retry_with_backoff _do retry_cfg) None) ;;
  json resp.

(** A slot of the list [asyncio.gather(..., return_exceptions=True)] returns:
    the value of the coroutine, or the exception it raised. *)
Definition gather_return_exceptions {A B} (a : M A) (b : M B) : M (Res A * Res B) :=
  fun w =>
    let '(ra, w1) := a w in
    let '(rb, w2) := b w1 in
    (Ok (ra, rb), w2).

(** [isinstance(x, Exception)] *)
Definition is_exception {A} (x : Res A) : bool :=
  match x with Raise _ => true | Ok _ => false end.

(** The two [if] statements after the [gather]. *)
Definition aggregate_status {A B} (payment_result : Res A) (inventory_result : Res B)
    : string :=
  let final_status := "confirmed" in
  let final_status :=
    if is_exception payment_result then "payment_failed" else final_status in
  let final_status :=
    if is_exception inventory_result then
      (if negb (String.eqb final_status "payment_failed")
       then "inventory_failed" else "failed")
    else final_status in
  final_status.

Definition value_or_none {A} (x : Res A) : option A :=
  match x with Ok a => Some a | Raise _ => None end.

(** What the statements after the fan-out meet.  For the [UPDATE], with
    the connection it is issued on, and for the [INSERT]: the exception the
    statement raises, if it raises.  For the cache write: [None] when
    [idempotency_key and _redis] is falsy, so that [setex] is not called,
    else the exception [setex] raises, if it raises. *)
Record Storage := mkStorage {
  update_raises : option exn;
  insert_raises : option exn;
  setex_raises : option (option exn)
}.

(** What the handler does to the database, the counter and the cache once
    the fan-out is over, in the order it does it. *)
Inductive Statement :=
| update_orders_status (status : string)
| insert_outbox_event (event_type status : string)
| ORDERS_CREATED_TOTAL_inc
| redis_setex (status : string).

(** The [JSONResponse]: the fields of [result] that come from the fan-out,
    and the status code. *)
Record OrderResponse := mkOrderResponse {
  body_status : string;
  body_payment : option string;
  body_inventory : option string;
  http_status : Z
}.

(** The [try] statement around the [gather]: the final status and the two
    results as [result] shows them. *)
Definition fan_out (call_payments call_inventory : M string)
    : M (string * option string * option string) :=
  try_except
    (results <- gather_return_exceptions call_payments call_inventory ;;
     let '(payment_result, inventory_result) := results in
     ret (aggregate_status payment_result inventory_result,
          value_or_none payment_result, value_or_none inventory_result))
    (fun _ => true)
    (fun _ => ret ("failed", None, None)).

(** [create_order] from the comment "Call payments + inventory in parallel"
    to its [return]: how the handler ends, the state of the process, and the
    statements it has executed.  The two statements on the connection are
    not in a transaction: an [UPDATE] that went through stays when the
    [INSERT] raises. *)
Definition create_order_fanout (call_payments call_inventory : M string)
    (storage : Storage) (w : World)
    : Res OrderResponse * World * list Statement :=
  match fan_out call_payments call_inventory w with
  | (Raise exc, w) => (Raise exc, w, [])
  | (Ok (final_status, payment_result, inventory_result), w) =>
      match update_raises storage with
      | Some exc => (Raise exc, w, [])
      | None =>
          let executed := [update_orders_status final_status] in
          match insert_raises storage with
          | Some exc => (Raise exc, w, executed)
          | None =>
              let executed :=
                executed ++ [insert_outbox_event "order_status_updated" final_status;
                             ORDERS_CREATED_TOTAL_inc] in
              let status_code :=
                if String.eqb final_status "confirmed" then 201%Z else 202%Z in
              let response :=
                mkOrderResponse final_status payment_result inventory_result
                                status_code in
              match setex_raises storage with
              | Some (Some exc) => (Raise exc, w, executed)
              | Some None => (Ok response, w, executed ++ [redis_setex final_status])
              | None => (Ok response, w, executed)
              end
          end
      end
  end.

End Orders.

(** ** services/notifications/main.py *)

Module Notifications.

(** What the service does that can be observed, in the order it does it.
    [xack] also records the event id its entry was checked under. *)
Inductive Effect :=
| processed_add (event_id : string)
| event_log_append (event_id : string)
| notification_sent (event_id : string)
| event_received (event_type aggregate_id : string)
| xadd (event_id : string)
| xack (msg_id event_id : string)
| duplicate_counted (operation event_id : string).

(** The module globals [_processed_events] and [_event_log], and the trail of
    effects. *)
Record State := mkState {
  _processed_events : gset string;
  _event_log : list string;
  effects : list Effect
}.

Definition initial : State := mkState ∅ [] [].

(** [deque(maxlen=1000).append(x)]: a full deque drops its oldest entry. *)
Definition deque_append (x : string) (d : list string) : list string :=
  if (length d <? 1000)%nat then d ++ [x] else drop 1 d ++ [x].

Definition emit (es : list Effect) (s : State) : State :=
  mkState (_processed_events s) (_event_log s) (effects s ++ es).

(** [_processed_events.add(event_id)] followed by [_event_log.append(...)] *)
Definition record_event (event_id : string) (s : State) : State :=
  mkState ({[ event_id ]} ∪ _processed_events s)
          (deque_append event_id (_event_log s))
          (effects s ++ [processed_add event_id; event_log_append event_id]).

Record EventPayload := mkEventPayload {
  event_type : string;
  aggregate_id : string;
  payload : string
}.

Inductive Reply :=
| already_processed (event_id : string)
| accepted (event_id : string).

(** [receive_event]; [redis] tells whether [_redis] is set and [xadd_ok]
    whether the stream append goes through (its failure is logged and
    swallowed). *)
Definition receive_event (redis xadd_ok : bool) (event : EventPayload)
    (s : State) : Reply * State :=
  let event_id := event_type event +:+ ":" +:+ aggregate_id event in
  if bool_decide (event_id ∈ _processed_events s) then
    (already_processed event_id,
     emit [duplicate_counted "receive_event" event_id] s)
  else
    let s := record_event event_id s in
    let s := if redis && xadd_ok then emit [xadd event_id] s else s in
    let s := emit [event_received (event_type event) (aggregate_id event)] s in
    (accepted event_id, s).

(** An entry of a stream read: the broker's id and the field dictionary. *)
Record Entry := mkEntry {
  msg_id : string;
  data : gmap string string
}.

(** The body of the inner [for] loop of [_redis_stream_consumer];
    [xack_ok] tells whether the acknowledgement goes through.  [false] as
    result stands for the exception that leaves the loop. *)
Definition consume_entry (xack_ok : bool) (entry : Entry) (s : State)
    : bool * State :=
  let event_id := default (msg_id entry) (data entry !! "event_id") in
  if bool_decide (event_id ∈ _processed_events s) then
    let s := emit [duplicate_counted "consume_event" event_id] s in
    if xack_ok then (true, emit [xack (msg_id entry) event_id] s) else (false, s)
  else
    let s := record_event event_id s in
    let s := emit [notification_sent event_id] s in
    if xack_ok then (true, emit [xack (msg_id entry) event_id] s) else (false, s).

(** One pass of the [while] loop of [_redis_stream_consumer] over the
    entries that [xreadgroup] returned, in order, up to the first exception
    (which the loop logs before it sleeps and reads again). *)
Fixpoint _redis_stream_consumer (entries : list (Entry * bool)) (s : State) : State :=
  match entries with
  | [] => s
  | (entry, xack_ok) :: rest =>
      match consume_entry xack_ok entry s with
      | (true, s') => _redis_stream_consumer rest s'
      | (false, s') => s'
      end
  end.

(** What reaches the process: a POST to [/events], or a batch of stream
    entries. *)
Inductive Delivery :=
| Post (redis xadd_ok : bool) (event : EventPayload)
| StreamRead (entries : list (Entry * bool)).

Definition deliver (d : Delivery) (s : State) : State :=
  match d with
  | Post redis xadd_ok event => snd (receive_event redis xadd_ok event s)
  | StreamRead entries => _redis_stream_consumer entries s
  end.

Definition run (ds : list Delivery) (s : State) : State :=
  foldl (fun s d => deliver d s) s ds.

End Notifications.

(** ** services/gateway/main.py, the proxy routes *)

Module GatewayRoutes.

Definition is_http_exception (exc : exn) : bool :=
  match exc with HTTPException _ _ _ => true | _ => false end.

Section Routes.

(** The builtin [str] on an exception. *)
Variable str : exn -> string.

(** [Response(content=resp.content, status_code=resp.status_code,
    media_type="application/json")] *)
Definition relay (v : value) : M Response :=
  match v with
  | VResponse resp =>
      ret (mkResponse (status_code resp) (content resp)
             [("content-type", "application/json")])
  | VOther _ => raise (OtherException "AttributeError")
  end.

(** [get_order] and [list_orders]: forward through [_orders_breaker] and
    [_orders_bulkhead]; an [HTTPException] passes, any other exception
    becomes a 502 whose detail is the text of the exception. *)
Definition get_order : M Response :=
  resp <- try_except
            (Gateway._forward Gateway._orders_breaker Gateway._orders_bulkhead)
            (fun exc => negb (is_http_exception exc))
            (fun exc => raise (HTTPException 502 (str exc) [])) ;;
  relay resp.

End Routes.

End GatewayRoutes.

(** ** services/orders/main.py, the forwarded headers *)

Module OrdersHeaders.

(** [request.headers.get]: the value of a header, if the request has it. *)
Definition Headers := string -> option string.

(** [if v := request.headers.get(h): headers[h] = v] *)
Definition forward_one (request_headers : Headers) (headers : gmap string string)
    (h : string) : gmap string string :=
  match request_headers h with
  | Some v => if String.eqb v "" then headers else <[ h := v ]> headers
  | None => headers
  end.

Definition _get_forward_headers (request_headers : Headers) : gmap string string :=
  foldl (forward_one request_headers) ∅
        ["X-Correlation-ID"; Timeout.DEADLINE_HEADER; "Idempotency-Key"].

End OrdersHeaders.

(** ** libs/resilience/idempotency.py *)

Module Idempotency.

Definition IDEMPOTENCY_HEADER : string := "Idempotency-Key".
Definition DEFAULT_TTL : Z := 86400.

(** The dict [{"body": body, "status_code": status_code}] that the store
    keeps under a key.  A decoded body is represented by the bytes it was
    decoded from, and the trip through [json.dumps] and [json.loads] gives
    the dict back. *)
Record Cached := mkCached {
  body : string;
  cached_status_code : Z
}.

(** The Redis behind the store: the entries under [idempotency:<key>], the
    keys whose [idempotency_lock:<key>] is set, and for each command still
    to come whether it fails (a command past the end of the list goes
    through).  Expiry is a step of the environment between two calls. *)
Record Redis := mkRedis {
  entries : gmap string Cached;
  locks : gset string;
  outage : list bool
}.

Inductive LogLine :=
| idempotency_store_read_error
| idempotency_store_write_error
| idempotency_lock_error
| idempotency_unlock_error
| idempotency_cache_hit (idempotency_key path : string).

(** The process: its Redis, the two counters by label and the log. *)
Record State := mkState {
  _redis : Redis;
  IDEMPOTENCY_HITS : gmap string nat;
  IDEMPOTENCY_CONFLICTS : gmap string nat;
  log : list LogLine
}.

Definition set_redis (r : Redis) (s : State) : State :=
  mkState r (IDEMPOTENCY_HITS s) (IDEMPOTENCY_CONFLICTS s) (log s).
Definition logger (l : LogLine) (s : State) : State :=
  mkState (_redis s) (IDEMPOTENCY_HITS s) (IDEMPOTENCY_CONFLICTS s) (log s ++ [l]).

(** [counter.labels(service=label).inc()] *)
Definition inc (label : string) (counter : gmap string nat) : gmap string nat :=
  <[ label := S (default 0%nat (counter !! label)) ]> counter.

(** The start of a Redis command: does it fail? *)
Definition command (s : State) : bool * State :=
  match outage (_redis s) with
  | [] => (false, s)
  | fails :: rest =>
      (fails, set_redis (mkRedis (entries (_redis s)) (locks (_redis s)) rest) s)
  end.

(** *** IdempotencyStore *)

Definition get (idempotency_key : string) (s : State) : option Cached * State :=
  let '(fails, s) := command s in
  if fails then (None, logger idempotency_store_read_error s)
  else (entries (_redis s) !! idempotency_key, s).

Definition set (idempotency_key : string) (response_data : Cached) (s : State) : State :=
  let '(fails, s) := command s in
  if fails then logger idempotency_store_write_error s
  else
    let r := _redis s in
    set_redis (mkRedis (<[ idempotency_key := response_data ]> (entries r))
                       (locks r) (outage r)) s.

(** [SET key 1 NX EX timeout] answers [True] when it sets the key and
    [None] when the key is there. *)
Definition acquire_lock (idempotency_key : string) (s : State) : bool * State :=
  let '(fails, s) := command s in
  if fails then (true, logger idempotency_lock_error s)
  else
    let r := _redis s in
    if bool_decide (idempotency_key ∈ locks r) then (false, s)
    else (true, set_redis (mkRedis (entries r) ({[ idempotency_key ]} ∪ locks r)
                                   (outage r)) s).

Definition release_lock (idempotency_key : string) (s : State) : State :=
  let '(fails, s) := command s in
  if fails then logger idempotency_unlock_error s
  else
    let r := _redis s in
    set_redis (mkRedis (entries r) (locks r ∖ {[ idempotency_key ]}) (outage r)) s.

(** *** IdempotencyMiddleware *)

Definition MUTATING_METHODS : gset string := {[ "POST"; "PUT"; "PATCH" ]}.

Record IdempotencyMiddleware := mkMiddleware {
  _skip_paths : gset string;
  _require_key : bool
}.

Definition default_skip_paths : gset string := {[ "/health"; "/metrics"; "/ready" ]}.

(** What [dispatch] reads of the request; [header] is
    [request.headers.get(IDEMPOTENCY_HEADER)]. *)
Record Request := mkRequest {
  method : string;
  path : string;
  header : option string
}.

Definition missing_key_response : Response :=
  mkResponse 400 "Missing Idempotency-Key header" [].

Definition in_flight_response : Response :=
  mkResponse 409 "Duplicate request in-flight" [("Retry-After", "2")].

Section Dispatch.

(** The content of [JSONResponse(content=body)] for the body decoded from
    the given bytes ([json.loads], or the text when that fails). *)
Variable render : string -> string.

Definition replayed (cached : Cached) : Response :=
  mkResponse (cached_status_code cached) (render (body cached))
             [("X-Idempotency-Replayed", "true")].

(** The [try] block: the handler, and the caching of a 2xx response. *)
Definition handle_and_cache (idempotency_key : string)
    (call_next : State -> Res Response * State) (s : State) : Res Response * State :=
  match call_next s with
  | (Ok response, s) =>
      if ((200 <=? status_code response) && (status_code response <? 300))%Z then
        let s := set idempotency_key
                     (mkCached (content response) (status_code response)) s in
        (Ok (mkResponse (status_code response) (render (content response)) []), s)
      else (Ok response, s)
  | (Raise exc, s) => (Raise exc, s)
  end.

Definition dispatch (self : IdempotencyMiddleware) (request : Request)
    (call_next : State -> Res Response * State) (s : State) : Res Response * State :=
  if negb (bool_decide (method request ∈ MUTATING_METHODS)) then call_next s
  else if bool_decide (path request ∈ _skip_paths self) then call_next s
  else
    let without_key :=
      if _require_key self then (Ok missing_key_response, s) else call_next s in
    match header request with
    | None => without_key
    | Some idempotency_key =>
        if String.eqb idempotency_key "" then without_key
        else
          let '(cached, s) := get idempotency_key s in
          match cached with
          | Some cached =>
              let s := mkState (_redis s) (inc (path request) (IDEMPOTENCY_HITS s))
                               (IDEMPOTENCY_CONFLICTS s) (log s) in
              let s := logger (idempotency_cache_hit idempotency_key (path request)) s in
              (Ok (replayed cached), s)
          | None =>
              let '(acquired, s) := acquire_lock idempotency_key s in
              if negb acquired then
                let s := mkState (_redis s) (IDEMPOTENCY_HITS s)
                                 (inc (path request) (IDEMPOTENCY_CONFLICTS s))
                                 (log s) in
                (Ok in_flight_response, s)
              else
                let '(outcome, s) := handle_and_cache idempotency_key call_next s in
                (* finally *)
                (outcome, release_lock idempotency_key s)
          end
    end.

End Dispatch.

End Idempotency.

(** ** services/inventory/main.py, the transaction of [reserve] *)

Module Inventory.

(** A row of [products]. *)
Record Product := mkProduct {
  name : string;
  stock : Z;
  reserved : Z
}.

(** A row of [reservations]; [status] and [created_at] take their
    defaults. *)
Record Reservation := mkReservation {
  id : string;
  order_id : string;
  row_product_id : string;
  row_quantity : Z;
  idempotency_key : option string
}.

Record Database := mkDatabase {
  products : gmap string Product;
  reservations : list Reservation
}.

Record ReserveItem := mkReserveItem {
  product_id : string;
  quantity : Z
}.

(** [UPDATE products SET reserved=reserved+$1 WHERE id=$2] *)
Definition update_reserved (amount : Z) (pid : string) (db : Database) : Database :=
  mkDatabase
    (alter (fun p => mkProduct (name p) (stock p) (reserved p + amount)) pid
           (products db))
    (reservations db).

Definition insufficient_stock (pid : string) (available requested : Z) : exn :=
  HTTPException 409
    ("Insufficient stock for " +:+ pid +:+ ": available=" +:+ pretty available
       +:+ ", requested=" +:+ pretty requested)
    [].

Section Reserve.

(** [str(uuid.uuid4())], by the number of the draw. *)
Variable uuid4 : nat -> string.

(** What the database does with
    [INSERT INTO reservations ... ON CONFLICT (idempotency_key) DO NOTHING]
    for the given row on the table as it is: the table after the statement,
    or the exception the statement raises. *)
Variable execute_insert : Reservation -> list Reservation -> Res (list Reservation).

(** [f"{idempotency_key}:{item.product_id}" if idempotency_key else None] *)
Definition row_key (idempotency_key : option string) (item : ReserveItem)
    : option string :=
  match idempotency_key with
  | Some key => if String.eqb key "" then None else Some (key +:+ ":" +:+ product_id item)
  | None => None
  end.

(** The body of [for item in req.items]; [drawn] counts the draws of
    [uuid4] so far. *)
Definition reserve_item (idempotency_key : option string) (req_order_id : string)
    (item : ReserveItem) (db : Database) (drawn : nat)
    : Res string * Database * nat :=
  let '(row_stock, row_reserved) :=
    match products db !! product_id item with
    | Some row => (stock row, reserved row)
    | None => (9999, 0)%Z
    end in
  let available := (row_stock - row_reserved)%Z in
  if (available <? quantity item)%Z then
    (Raise (insufficient_stock (product_id item) available (quantity item)), db, drawn)
  else
    let res_id := uuid4 drawn in
    match execute_insert
            (mkReservation res_id req_order_id (product_id item) (quantity item)
                           (row_key idempotency_key item))
            (reservations db) with
    | Raise exc => (Raise exc, db, S drawn)
    | Ok rows =>
        (Ok res_id,
         update_reserved (quantity item) (product_id item)
                         (mkDatabase (products db) rows),
         S drawn)
    end.

Fixpoint reserve_items (idempotency_key : option string) (req_order_id : string)
    (items : list ReserveItem) (db : Database) (drawn : nat)
    (reservation_ids : list string) : Res (list string) * Database * nat :=
  match items with
  | [] => (Ok reservation_ids, db, drawn)
  | item :: rest =>
      match reserve_item idempotency_key req_order_id item db drawn with
      | (Raise exc, db, drawn) => (Raise exc, db, drawn)
      | (Ok res_id, db, drawn) =>
          reserve_items idempotency_key req_order_id rest db drawn
                        (reservation_ids ++ [res_id])
      end
  end.

(** [async with conn.transaction(): for item in req.items: ...]: an
    exception rolls the tables back. *)
Definition transaction (idempotency_key : option string) (req_order_id : string)
    (items : list ReserveItem) (db : Database) (drawn : nat)
    : Res (list string) * Database * nat :=
  match reserve_items idempotency_key req_order_id items db drawn [] with
  | (Ok reservation_ids, db', drawn) => (Ok reservation_ids, db', drawn)
  | (Raise exc, _, drawn) => (Raise exc, db, drawn)
  end.

End Reserve.

End Inventory.

(** ** services/orders/main.py, the outbox worker *)

Module Outbox.

(** A row of [outbox_events]; the table is kept in the order of
    [created_at]. *)
Record OutboxEvent := mkOutboxEvent {
  id : string;
  aggregate_id : string;
  event_type : string;
  payload : string;
  published : bool
}.

Inductive LogLine :=
| outbox_publish_error (event_id : string)
| outbox_worker_error
| slept (seconds : Z).

Section Worker.

(** What lies beyond the database: the notifications service and the
    network in between. *)
Context {World : Type}.

(** [client.post(f"{notifications_url}/events", json={...})] for the three
    fields of the body. *)
Variable post : string -> string -> string -> World -> Res Response * World.

(** [dict(row["payload"])]: the dict, or the exception when the column does
    not come as a mapping. *)
Variable dict : string -> Res string.

(** The table, for each statement still to come whether it fails, the
    world, the two series and the log. *)
Record State := mkState {
  outbox_events : list OutboxEvent;
  db_outage : list bool;
  world : World;
  OUTBOX_PUBLISHED_TOTAL : gmap string nat;
  OUTBOX_PENDING_GAUGE : Z;
  log : list LogLine
}.

Definition set_outbox_events (t : list OutboxEvent) (s : State) : State :=
  mkState t (db_outage s) (world s) (OUTBOX_PUBLISHED_TOTAL s)
          (OUTBOX_PENDING_GAUGE s) (log s).
Definition set_world (w : World) (s : State) : State :=
  mkState (outbox_events s) (db_outage s) w (OUTBOX_PUBLISHED_TOTAL s)
          (OUTBOX_PENDING_GAUGE s) (log s).
Definition logger (l : LogLine) (s : State) : State :=
  mkState (outbox_events s) (db_outage s) (world s) (OUTBOX_PUBLISHED_TOTAL s)
          (OUTBOX_PENDING_GAUGE s) (log s ++ [l]).

(** The start of a statement on a pooled connection: does it fail? *)
Definition statement (s : State) : bool * State :=
  match db_outage s with
  | [] => (false, s)
  | fails :: rest =>
      (fails, mkState (outbox_events s) rest (world s) (OUTBOX_PUBLISHED_TOTAL s)
                      (OUTBOX_PENDING_GAUGE s) (log s))
  end.

Definition not_published (row : OutboxEvent) : bool := negb (published row).

(** [SELECT ... WHERE NOT published ORDER BY created_at LIMIT 50] *)
Definition fetch_unpublished (s : State) : list OutboxEvent :=
  take 50 (List.filter not_published (outbox_events s)).

(** [UPDATE outbox_events SET published=TRUE, published_at=NOW() WHERE id=$1] *)
Definition mark_published (row_id : string) (t : list OutboxEvent) : list OutboxEvent :=
  map (fun r => if String.eqb (id r) row_id
                then mkOutboxEvent (id r) (aggregate_id r) (event_type r) (payload r) true
                else r) t.

(** The body of [for row in rows], with its [try] and [except]. *)
Definition publish_row (row : OutboxEvent) (s : State) : State :=
  match dict (payload row) with
  | Raise _ => logger (outbox_publish_error (id row)) s
  | Ok body =>
      let '(outcome, w) := post (event_type row) (aggregate_id row) body (world s) in
      let s := set_world w s in
      match outcome with
      | Raise _ => logger (outbox_publish_error (id row)) s
      | Ok resp =>
          if (status_code resp <? 300)%Z then
            let '(fails, s) := statement s in
            if fails then logger (outbox_publish_error (id row)) s
            else
              let s := set_outbox_events (mark_published (id row) (outbox_events s)) s in
              mkState (outbox_events s) (db_outage s) (world s)
                      (<[ event_type row :=
                            S (default 0%nat (OUTBOX_PUBLISHED_TOTAL s !! event_type row)) ]>
                         (OUTBOX_PUBLISHED_TOTAL s))
                      (OUTBOX_PENDING_GAUGE s) (log s)
          else s
      end
  end.

(** One pass through the body of [while True]. *)
Definition outbox_pass (s : State) : State :=
  let '(fails, s) := statement s in
  if fails then logger (slept 5) (logger outbox_worker_error s)
  else
    match fetch_unpublished s with
    | [] => logger (slept 1) s
    | rows =>
        let s := foldl (fun s row => publish_row row s) s rows in
        let '(fails, s) := statement s in
        if fails then logger (slept 5) (logger outbox_worker_error s)
        else
          let count := Z.of_nat (length (List.filter not_published (outbox_events s))) in
          mkState (outbox_events s) (db_outage s) (world s) (OUTBOX_PUBLISHED_TOTAL s)
                  count (log s)
    end.

End Worker.

End Outbox.

(** * Vocabulary of the statements *)

Module OrdersSpec.
Import Orders.

(** The table of section 4.10, step 5. *)
Definition status_table (payment_ok inventory_ok : bool) : string :=
  match payment_ok, inventory_ok with
  | true, true => "confirmed"
  | false, true => "payment_failed"
  | true, false => "inventory_failed"
  | false, false => "failed"
  end.

(** The code's notion of a fan-out call that succeeded: it returned, that
    is, it raised no exception. *)
Definition succeeded {A} (x : Res A) : bool := negb (is_exception x).

(** The first of the statements after the fan-out that raises. *)
Definition first_failure (storage : Storage) : option exn :=
  match update_raises storage, insert_raises storage, setex_raises storage with
  | Some exc, _, _ => Some exc
  | None, Some exc, _ => Some exc
  | None, None, Some (Some exc) => Some exc
  | None, None, _ => None
  end.

(** The statements of a handler that ran to its [return]. *)
Definition all_statements (storage : Storage) (final_status : string)
    : list Statement :=
  [update_orders_status final_status;
   insert_outbox_event "order_status_updated" final_status;
   ORDERS_CREATED_TOTAL_inc]
  ++ match setex_raises storage with
     | Some _ => [redis_setex final_status]
     | None => []
     end.

(** The claim's notion of a call that succeeded, read on the answer of the
    service: the service did what it was asked, it answered below 400. *)
Definition accepted (answer : Response) : bool := (status_code answer <? 400)%Z.

End OrdersSpec.

Module RetrySpec.
Import Retry.

(** The outcomes of an attempt that the classifier lets through to a retry:
    a transport error of the [except] tuple, or a response whose status is in
    the configured set. *)
Definition retry_trigger (config : RetryConfig) (outcome : Res value) : bool :=
  match outcome with
  | Ok (VResponse r) => is_retryable_status config r
  | Ok (VOther _) => false
  | Raise exc => is_transport_error exc
  end.

(** An operation that hands back whatever the downstream answers. *)
Definition send : M value :=
  resp <- client_request ;;
  ret (VResponse resp).

(** The answers the downstream gave between two states of the process. *)
Definition answered (before after : World) : list (Res Response) :=
  take (length (network before) - length (network after)) (network before).

(** "Whenever the last attempt of a run met a response with a retryable
    status, the engine returns that response", for the operation [send]. *)
Definition last_answer_is_returned : Prop :=
  forall (config : RetryConfig) (w : World) (resp : Response),
    let result := fst (retry_with_backoff send config w) in
    let w' := snd (retry_with_backoff send config w) in
    last (answered w w') = Some (Ok resp) ->
    is_retryable_status config resp = true ->
    result = Ok (VResponse resp).

Definition response (status : Z) : Response := mkResponse status "{}" [].

Definition quiet_metrics : Metrics := mkMetrics 0 0 0 0 0 0 0.

(** A process at rest: closed breaker, [slots] free slots, no request in
    flight, the given budget cell and downstream behaviour. *)
Definition at_rest (slots : Z) (budget : option Z) (net : list (Res Response))
    : World :=
  mkWorld (mkClock 0 []) [] CircuitBreaker.init slots [] 0 budget
          quiet_metrics net [].

(** A run with three attempts allowed, a budget cell holding 1 and a
    downstream that answers 503 first. *)
Definition budget_run_config : RetryConfig :=
  mkRetryConfig 3 0.1 30 2 false DEFAULT_RETRYABLE_STATUS.
Definition budget_run_start : World :=
  at_rest 0 (Some 1%Z) [Ok (response 503); Ok (response 200)].

End RetrySpec.

Module OrdersRunSpec.
Import Orders OrdersSpec.

(** A storage without a cache and without failures, a payments call that
    has returned a charge, and the state in which the inventory service
    gives the one answer: breaker closed, twenty slots free. *)
Definition plain_storage : Storage := mkStorage None None None.
Definition charged : M string := ret "charged".
Definition inventory_answering (answer : Response) : World :=
  RetrySpec.at_rest 20 None [Ok answer].

(** The claim as it is written, for a request whose payment went through:
    the status is the one the table gives for the answer of the inventory
    service, and the HTTP status is 201 exactly for confirmed. *)
Definition status_follows_the_answer : Prop :=
  forall answer response,
    fst (fst (create_order_fanout charged _call_inventory plain_storage
                (inventory_answering answer)))
    = Ok response ->
    body_status response = status_table true (accepted answer)
    /\ (http_status response = 201%Z <-> accepted answer = true).

Definition insufficient_stock : Response :=
  mkResponse 409 "Insufficient stock for prod-004: available=100, requested=500" [].

End OrdersRunSpec.

Module BreakerSpec.
Import CircuitBreaker.

(** The three critical sections of the breaker; each runs under [_lock]. *)
Inductive Method := get_state | on_success | on_failure.

Definition run_method (self : CircuitBreaker) (m : Method) : M unit :=
  match m with
  | get_state => _get_state self ;; ret tt
  | on_success => _on_success self
  | on_failure => _on_failure self
  end.

(** One move of the process as the breaker sees it: a critical section
    runs, or anything else happens that leaves the breaker's fields alone
    (time passes, the wrapped operation runs, other tasks work). *)
Inductive step (self : CircuitBreaker) : World -> World -> Prop :=
| step_method w m : step self w (snd (run_method self m w))
| step_other w w' : breaker w' = breaker w -> step self w w'.

Definition reachable (self : CircuitBreaker) (w : World) : Prop :=
  exists w0, breaker w0 = init /\ rtc (step self) w0 w.

(** "opened-at is defined iff state = Open", in every reachable state. *)
Definition opened_at_iff_open : Prop :=
  forall self w, reachable self w ->
    (is_Some (_opened_at (breaker w)) <-> _state (breaker w) = OPEN).

(** The failures that [_prune_window] keeps for a reading [reading]. *)
Definition in_window (self : CircuitBreaker) (reading : Q) (failures : list Q)
    : list Q :=
  List.filter (later_than (reading - window_size self)) failures.

(** A process at rest whose monotonic clock will read [readings]. *)
Definition with_clock (readings : list Q) (w : World) : World :=
  set_clock (mkClock (mono_last (clock w)) readings) w.

Definition payments : CircuitBreaker := CircuitBreaker_default "payments".

(** Five failures at seconds 1 to 5, then a look at the state at second 40. *)
Definition tripped_then_probed : World :=
  let w0 := with_clock [1; 1; 2; 2; 3; 3; 4; 4; 5; 5; 40]%Q
              (RetrySpec.at_rest 0 None []) in
  foldl (fun w m => snd (run_method payments m w)) w0
        [on_failure; on_failure; on_failure; on_failure; on_failure; get_state].

End BreakerSpec.

Module BulkheadSpec.
Import Bulkhead.

(** Does the wait for a slot end with a slot?  It does when the wait is
    given time and either a slot is free or another holder releases one
    before [max_wait] is over. *)
Definition slot_in_time (self : Bulkhead) (w : World) : bool :=
  negb (Qle_bool (max_wait self) 0)
  && ((0 <? semaphore_value w)%Z
      || match semaphore_waits w with true :: _ => true | _ => false end).

(** The slots taken: the capacity less the value of the semaphore. *)
Definition held (self : Bulkhead) (w : World) : Z :=
  (max_concurrent self - semaphore_value w)%Z.

(** A process with [free] free slots in which the next wait on the locked
    semaphore ends as [waits] says. *)
Definition with_slots (free : Z) (waits : list bool) : World :=
  set_semaphore_waits waits (RetrySpec.at_rest free None []).

Definition payments : Bulkhead := mkBulkhead "payments" 20 1.

End BulkheadSpec.

Module BackpressureSpec.
Import Backpressure.

(** The gateway's middleware: [BackpressureMiddleware(app, max_inflight=200)]. *)
Definition gateway : BackpressureMiddleware := mkBackpressure 200 default_skip_paths.

Definition busy (n : Z) : World := set_inflight n (RetrySpec.at_rest 0 None []).

(** The state in which a shed request leaves the process. *)
Definition after_shed (w : World) : World :=
  set_log (log w ++ [load_shed (_inflight w)])
    (set_metrics (set_LOAD_SHED_TOTAL (S (LOAD_SHED_TOTAL (metrics w))) (metrics w)) w).

End BackpressureSpec.

Module TimeoutSpec.
Import Timeout.

(** Python's [max(a, b)]: the first argument unless the second is larger. *)
Definition py_max (a b : Q) : Q := if Qlt_le_dec a b then b else a.

(** "The per-hop read timeout is min(local default, deadline - now), never
    exceeds max(0, deadline - now), and is 0 once the deadline has passed",
    for a header that [float] reads as the finite deadline [d]. *)
Definition timeout_bounded_by_deadline (float : string -> option pyfloat) : Prop :=
  forall (now : Q) (text : string) (d : Q),
    text <> "" -> float text = Some (Finite d) ->
    exists t,
      read_timeout (from_deadline_header float now (Some text)) = Finite t
      /\ (t == py_min 10 (d - now))%Q
      /\ (t <= py_max 0 (d - now))%Q
      /\ ((d - now <= 0)%Q -> (t == 0)%Q).

End TimeoutSpec.

Module NotificationsSpec.
Import Notifications.

(** The kinds of effect that belong to the handling of an event, with the
    event id they are for; acknowledgements and duplicate counts belong to
    none. *)
Inductive Kind := Added | Logged | Sent | Received | Published.

Definition effect_key (e : Effect) : option (Kind * string) :=
  match e with
  | processed_add id => Some (Added, id)
  | event_log_append id => Some (Logged, id)
  | notification_sent id => Some (Sent, id)
  | event_received type aggregate => Some (Received, type +:+ ":" +:+ aggregate)
  | xadd id => Some (Published, id)
  | xack _ _ | duplicate_counted _ _ => None
  end.

(** The effects that must come after the insertion of [id] into the
    processed set: the side effects for [id] and the acknowledgement of an
    entry checked under [id]. *)
Definition needs (id : string) (e : Effect) : Prop :=
  match e with
  | processed_add _ | duplicate_counted _ _ => False
  | xack _ id' => id' = id
  | _ => exists k, effect_key e = Some (k, id)
  end.

Definition insertion_first (es : list Effect) : Prop :=
  forall before e after id,
    es = before ++ e :: after -> needs id e -> processed_add id ∈ before.

(** How often the handling of [id] got to its first side effect. *)
Definition invocations (id : string) (es : list Effect) : nat :=
  length (List.filter
            (fun e => match e with
                      | event_log_append id' => String.eqb id' id
                      | _ => false
                      end) es).

Definition keys (es : list Effect) : list (Kind * string) := omap effect_key es.

(** What holds between the processed set and the trail of effects. *)
Definition consistent (processed : gset string) (es : list Effect) : Prop :=
  NoDup (keys es)
  /\ (forall k id, (k, id) ∈ keys es -> id ∈ processed)
  /\ (forall id, id ∈ processed -> processed_add id ∈ es)
  /\ insertion_first es.

Definition sample_event : EventPayload :=
  mkEventPayload "order_created" "42" "{}".

End NotificationsSpec.

Module CompositionSpec.

Definition is_acquire (e : Event) : bool :=
  match e with semaphore_acquire => true | _ => false end.

(** How often the bulkhead has been entered. *)
Definition acquisitions (w : World) : nat :=
  length (List.filter is_acquire (log w)).

(** A coroutine that never enters the bulkhead. *)
Definition outside_bulkhead {A} (m : M A) : Prop :=
  forall w, acquisitions (snd (m w)) = acquisitions w.

(** A log line without the length of its delay. *)
Definition without_delay (e : Event) : Event :=
  match e with
  | retrying_request attempt status _ => retrying_request attempt status 0
  | retrying_after_error attempt error _ => retrying_after_error attempt error 0
  | asyncio_sleep _ => asyncio_sleep 0
  | other => other
  end.

(** A downstream that refuses the first connection and answers the second
    request, seen from a process with [slots] free slots. *)
Definition flaky_downstream (slots : Z) : World :=
  RetrySpec.at_rest slots None [Raise ConnectError; Ok (RetrySpec.response 200)].

End CompositionSpec.

Module Counting.

(** How many lines of the log satisfy [p]. *)
Definition occurrences (p : Event -> bool) (w : World) : nat :=
  length (List.filter p (log w)).

Definition is_request (e : Event) : bool :=
  match e with http_request => true | _ => false end.

(** The requests sent to the downstream so far. *)
Definition requests (w : World) : nat := occurrences is_request w.

(** An operation that sends at most one request each time it is invoked. *)
Definition one_request_at_most {A} (m : M A) : Prop :=
  forall w, (requests (snd (m w)) <= requests w + 1)%nat.

(** An operation that sends no request. *)
Definition no_request {A} (m : M A) : Prop :=
  forall w, requests (snd (m w)) = requests w.

(** An operation that leaves the budget cell alone. *)
Definition keeps_budget {A} (m : M A) : Prop :=
  forall w, retry_budget (snd (m w)) = retry_budget w.

End Counting.

Module RetryMoreSpec.
Import Retry.

(** An answer of the downstream after which the engine may try again: a
    transport error of the [except] tuple or a status of the set. *)
Definition transient (config : RetryConfig) (answer : Res Response) : bool :=
  match answer with
  | Ok r => is_retryable_status config r
  | Raise exc => is_transport_error exc
  end.

(** The budget cell allows [n] attempts in a row. *)
Definition budget_allows (n : nat) (w : World) : Prop :=
  match retry_budget w with
  | None => True
  | Some b => (Z.of_nat n <= b)%Z
  end.

(** The delay before jitter: [min(base_delay * multiplier ** attempt, max_delay)]. *)
Definition capped_delay (config : RetryConfig) (attempt : Z) : Q :=
  py_min (base_delay config * multiplier config ^ attempt) (max_delay config).

End RetryMoreSpec.

Module BreakerMoreSpec.
Import CircuitBreaker.

(** The value of the state gauge: closed 0, open 1, half-open 2. *)
Definition gauge_of (s : CircuitState) : Z :=
  match s with CLOSED => 0 | OPEN => 1 | HALF_OPEN => 2 end%Z.

Definition gauge_matches (w : World) : Prop :=
  BREAKER_STATE (metrics w) = gauge_of (_state (breaker w)).

(** An operation that leaves the breaker's fields and its gauge alone. *)
Definition keeps_breaker {A} (m : M A) : Prop :=
  forall w, breaker (snd (m w)) = breaker w
            /\ BREAKER_STATE (metrics (snd (m w))) = BREAKER_STATE (metrics w).

(** The process as a probe call in the half-open state finds it: the gauge
    reads 2. *)
Definition probing (w : World) : World :=
  set_metrics (set_BREAKER_STATE 2 (metrics w)) w.

(** [n] successes in a row reported to the breaker. *)
Definition successes (self : CircuitBreaker) (n : nat) (w : World) : World :=
  Nat.iter n (fun w => snd (_on_success self w)) w.

Definition half_open_at (opened : Q) (failures : list Q) : World :=
  set_breaker (mkBreaker HALF_OPEN failures 0 (Some opened))
    (RetrySpec.at_rest 0 None []).

End BreakerMoreSpec.

Module LogGrowth.
Import Counting.

(** An operation that adds at most [n] lines satisfying [p] to the log. *)
Definition adds (p : Event -> bool) (n : nat) {A} (m : M A) : Prop :=
  forall w, (occurrences p (snd (m w)) <= occurrences p w + n)%nat.

End LogGrowth.

Module GatewaySpec.

(** What a caller of a proxy route of the gateway can get: a relayed
    response below 500, or an [HTTPException] with 502 or 503. *)
Definition edge_outcome (o : Res Response) : Prop :=
  match o with
  | Ok resp =>
      (status_code resp < 500)%Z
      /\ resp_headers resp = [("content-type", "application/json")]
  | Raise (HTTPException code _ _) => code = 502%Z \/ code = 503%Z
  | Raise _ => False
  end.

(** What the wrapped request of the gateway can give: a response below 500,
    an [HTTPException] with 503, or an exception of another class. *)
Definition forward_outcome (o : Res value) : Prop :=
  match o with
  | Ok (VResponse resp) => (status_code resp < 500)%Z
  | Ok (VOther _) => False
  | Raise (HTTPException code _ _) => code = 503%Z
  | Raise _ => True
  end.

(** The client library raises its own exceptions, never the
    [HTTPException] of the web framework. *)
Definition client_failure (answer : Res Response) : Prop :=
  match answer with
  | Ok _ => True
  | Raise (HTTPException _ _ _) => False
  | Raise _ => True
  end.

Definition client_raises_its_own (w : World) : Prop :=
  Forall client_failure (network w).

(** From a state that satisfies [I], the operation ends with an outcome
    that satisfies [Q] in a state that satisfies [I]. *)
Definition post {A} (I : World -> Prop) (Q : Res A -> Prop) (m : M A) : Prop :=
  forall w, I w -> Q (fst (m w)) /\ I (snd (m w)).

(** An operation that never raises and leaves the network alone. *)
Definition silent {A} (m : M A) : Prop :=
  forall w, (exists a, fst (m w) = Ok a) /\ network (snd (m w)) = network w.

(** The exception the retry loop carries from one attempt to the next is
    never an [HTTPException]. *)
Definition carried (last_exc : option exn) : Prop :=
  match last_exc with
  | Some (HTTPException _ _ _) => False
  | _ => True
  end.

End GatewaySpec.

Module MoreSpec.

(** A handler that leaves the counter of the load shedder as it found it. *)
Definition keeps_inflight {A} (m : M A) : Prop :=
  forall w, _inflight (snd (m w)) = _inflight w.

(** The names [_get_forward_headers] looks up. *)
Definition forwarded_names : list string :=
  ["X-Correlation-ID"; "X-Request-Deadline"; "Idempotency-Key"].

(** The event log of the notifications service is bounded, holds no event
    id twice and holds processed ids only. *)
Definition log_invariant (s : Notifications.State) : Prop :=
  (length (Notifications._event_log s) <= 1000)%nat
  /\ NoDup (Notifications._event_log s)
  /\ forall id, id ∈ Notifications._event_log s
                -> id ∈ Notifications._processed_events s.

End MoreSpec.

Module IdempotencySpec.
Import Idempotency.

(** A request the middleware deals with: a mutating method, a path that is
    not skipped and a key that is not empty. *)
Definition handled (self : IdempotencyMiddleware) (request : Request)
    (idempotency_key : string) : Prop :=
  method request ∈ MUTATING_METHODS
  /\ path request ∉ _skip_paths self
  /\ header request = Some idempotency_key
  /\ idempotency_key <> "".

(** No Redis command fails. *)
Definition working (s : State) : Prop := outage (_redis s) = [].

(** The key is neither cached nor locked. *)
Definition fresh (idempotency_key : string) (s : State) : Prop :=
  entries (_redis s) !! idempotency_key = None
  /\ idempotency_key ∉ locks (_redis s).

(** A handler that leaves the Redis of the store alone. *)
Definition keeps_redis (call_next : State -> Res Response * State) : Prop :=
  forall s, _redis (snd (call_next s)) = _redis s.

(** The state in which the handler of a request with the key runs. *)
Definition entered (idempotency_key : string) (s : State) : State :=
  snd (acquire_lock idempotency_key (snd (get idempotency_key s))).

Definition is_2xx (response : Response) : bool :=
  ((200 <=? status_code response) && (status_code response <? 300))%Z.

(** An outcome the middleware does not cache: an exception, or a response
    outside 200..299. *)
Definition not_cached (outcome : Res Response) : Prop :=
  match outcome with
  | Ok response => is_2xx response = false
  | Raise _ => True
  end.

Definition sample_request : Request := mkRequest "POST" "/payments/charge" (Some "k1").
Definition sample_middleware : IdempotencyMiddleware := mkMiddleware default_skip_paths false.
Definition at_start (faults : list bool) : State := mkState (mkRedis ∅ ∅ faults) ∅ ∅ [].
Definition answering (response : Response) : State -> Res Response * State :=
  fun s => (Ok response, s).

End IdempotencySpec.

Module InventorySpec.
Import Inventory.

(** The quantity a request asks of a product, over all its items. *)
Definition requested (pid : string) (items : list ReserveItem) : Z :=
  foldr (fun item total =>
           if String.eqb (product_id item) pid then (quantity item + total)%Z else total)
        0%Z items.

(** No product has more reserved than it has in stock. *)
Definition not_oversold (db : Database) : Prop :=
  forall pid row, products db !! pid = Some row -> (reserved row <= stock row)%Z.

(** The rows of [products] after a reservation that went through. *)
Definition reserved_more (items : list ReserveItem) (before after : Database) : Prop :=
  forall pid,
    products after !! pid
    = (fun row => mkProduct (name row) (stock row)
                            (reserved row + requested pid items))
        <$> products before !! pid.

Definition warehouse : Database :=
  mkDatabase {[ "prod-001" := mkProduct "Widget A" 1000 0;
                "prod-004" := mkProduct "Gadget Y" 100 0 ]} [].

Definition numbered (n : nat) : string := "res-" +:+ pretty n.

(** An [INSERT] that adds the row. *)
Definition appending (row : Reservation) (rows : list Reservation)
    : Res (list Reservation) :=
  Ok (rows ++ [row]).

End InventorySpec.

Module OutboxSpec.
Import Outbox.

(** A row after a pass is the row before it, published or as it was. *)
Definition same_or_published (before after : OutboxEvent) : Prop :=
  id after = id before
  /\ aggregate_id after = aggregate_id before
  /\ event_type after = event_type before
  /\ payload after = payload before
  /\ (published before = true -> published after = true).

(** The rows still to be published. *)
Definition pending {World} (s : @State World) : list OutboxEvent :=
  List.filter not_published (outbox_events s).

(** What can happen to one post on its way to the notifications service:
    it is handled and answered, it never arrives, it is handled and the
    answer is lost, or something in between answers in place of the
    service. *)
Inductive Exchange :=
| Delivered (redis xadd_ok : bool)
| RequestLost
| ResponseLost (redis xadd_ok : bool)
| Refused (status : Z).

(** The notifications service and the exchanges still to come. *)
Definition Beyond : Type := Notifications.State * list Exchange.

(** The answer of [receive_event]: 202 from the route, or the
    [JSONResponse] of a duplicate with its default 200. *)
Definition answer (reply : Notifications.Reply) : Response :=
  match reply with
  | Notifications.accepted _ => mkResponse 202 "accepted" []
  | Notifications.already_processed _ =>
      mkResponse 200 "already_processed" [("X-Idempotency-Replayed", "true")]
  end.

(** The post of the worker, wired to [receive_event].  With no exchange
    left the connection is refused. *)
Definition post_to_notifications (event_type aggregate_id body : string)
    (beyond : Beyond) : Res Response * Beyond :=
  let '(service, exchanges) := beyond in
  let event := Notifications.mkEventPayload event_type aggregate_id body in
  match exchanges with
  | [] => (Raise ConnectError, (service, []))
  | Delivered redis xadd_ok :: rest =>
      let '(reply, service) := Notifications.receive_event redis xadd_ok event service in
      (Ok (answer reply), (service, rest))
  | RequestLost :: rest => (Raise ConnectError, (service, rest))
  | ResponseLost redis xadd_ok :: rest =>
      let '(_, service) := Notifications.receive_event redis xadd_ok event service in
      (Raise TimeoutException, (service, rest))
  | Refused status :: rest => (Ok (mkResponse status "" []), (service, rest))
  end.

(** Whatever answers in place of the service answers with an error. *)
Definition refusal_is_an_error (x : Exchange) : Prop :=
  match x with
  | Refused status => (300 <= status)%Z
  | _ => True
  end.

(** The id under which the notifications service knows the event of a row. *)
Definition event_key (row : OutboxEvent) : string :=
  event_type row +:+ ":" +:+ aggregate_id row.

(** A row of the table with the id and the event of the given row. *)
Definition shadowed (row : OutboxEvent) (t : list OutboxEvent) : Prop :=
  exists r, r ∈ t /\ id r = id row /\ event_key r = event_key row.

(** The ids of the rows are distinct (the primary key), every row marked
    as published is known to the notifications service, and only errors
    stand in for the service. *)
Definition published_are_known (s : @State Beyond) : Prop :=
  NoDup (map id (outbox_events s))
  /\ (forall row, row ∈ outbox_events s -> published row = true ->
        event_key row ∈ Notifications._processed_events (fst (world s)))
  /\ Forall refusal_is_an_error (snd (world s)).

(** Every post is answered below 300. *)
Definition always_accepted {World}
    (post : string -> string -> string -> World -> Res Response * World) : Prop :=
  forall event_type aggregate_id body w,
    exists resp w',
      post event_type aggregate_id body w = (Ok resp, w')
      /\ (status_code resp < 300)%Z.

Definition two_events : list OutboxEvent :=
  [mkOutboxEvent "e1" "o1" "order_created" "{}" false;
   mkOutboxEvent "e2" "o1" "order_status_updated" "{}" false].

End OutboxSpec.

(** * Properties *)

(** ** Order orchestration *)

Module OrdersFacts.
Import Orders OrdersSpec OrdersRunSpec.

Lemma aggregate_status_table {A B} (p : Res A) (i : Res B) :
  aggregate_status p i = status_table (succeeded p) (succeeded i).
Proof. destruct p, i; reflexivity. Qed.

(** The [try] statement around the [gather] never raises: it gives the
    status of the table and the two results. *)
Lemma fan_out_aggregates (call_payments call_inventory : M string) (w : World) :
  fan_out call_payments call_inventory w
  = (Ok (status_table (succeeded (fst (call_payments w)))
                      (succeeded (fst (call_inventory (snd (call_payments w))))),
         value_or_none (fst (call_payments w)),
         value_or_none (fst (call_inventory (snd (call_payments w))))),
     snd (call_inventory (snd (call_payments w)))).
Proof.
  unfold fan_out, try_except, bind, gather_return_exceptions, ret.
  destruct (call_payments w) as [rp w1]. cbn [fst snd].
  destruct (call_inventory w1) as [ri w2]. cbn [fst snd].
  now rewrite aggregate_status_table.
Qed.

(** C1, as the handler has it.  A fan-out call has failed when it raised
    and has succeeded when it returned.  Whatever the two calls do, the
    final status is the one the table gives for the two results (both
    succeed: confirmed; only payment fails: payment_failed; only inventory
    fails: inventory_failed; both fail: failed).  When the statements after
    the fan-out go through, the handler stores, publishes and returns that
    status, and the HTTP status is 201 exactly when it is confirmed, 202
    otherwise.  When one of them raises, the handler raises that exception
    and answers nothing; the statements before it stay executed. *)
Theorem create_order_aggregates_status (call_payments call_inventory : M string)
    (storage : Storage) (w : World) :
  let payment_result := fst (call_payments w) in
  let w1 := snd (call_payments w) in
  let inventory_result := fst (call_inventory w1) in
  let w2 := snd (call_inventory w1) in
  let final_status :=
    status_table (succeeded payment_result) (succeeded inventory_result) in
  let '(outcome, w', executed) :=
    create_order_fanout call_payments call_inventory storage w in
  w' = w2
  /\ match first_failure storage with
     | None =>
         executed = all_statements storage final_status
         /\ exists response,
              outcome = Ok response
              /\ body_status response = final_status
              /\ body_payment response = value_or_none payment_result
              /\ body_inventory response = value_or_none inventory_result
              /\ http_status response
                 = (if String.eqb final_status "confirmed" then 201 else 202)%Z
              /\ (http_status response = 201%Z <-> final_status = "confirmed")
              /\ (http_status response = 202%Z <-> final_status <> "confirmed")
     | Some exc =>
         outcome = Raise exc
         /\ executed `prefix_of` all_statements storage final_status
         /\ (update_raises storage = None ->
             update_orders_status final_status ∈ executed)
     end.
Proof.
  cbv zeta. unfold create_order_fanout. rewrite fan_out_aggregates.
  destruct storage as [[exc_u|] [exc_i|] [[exc_s|]|]];
    cbn [update_raises insert_raises setex_raises first_failure all_statements app];
    (split; [reflexivity|]).
  all: try (split; [reflexivity|]; split;
            [eexists; reflexivity || (exists []; reflexivity)
            |intros; try discriminate; repeat constructor]).
  all: split; [reflexivity|]; eexists; split; [reflexivity|]; cbn;
    destruct (fst (call_payments w)),
             (fst (call_inventory (snd (call_payments w))));
    cbn; repeat split; try reflexivity; intros; congruence.
Qed.

Example create_order_payment_down :
  let pay : M string := raise (HTTPException 503 "Circuit breaker OPEN for payments" []) in
  let inv : M string := ret "reserved" in
  forall w, exists response,
    create_order_fanout pay inv plain_storage w
    = (Ok response, w,
       [update_orders_status "payment_failed";
        insert_outbox_event "order_status_updated" "payment_failed";
        ORDERS_CREATED_TOTAL_inc])
    /\ body_status response = "payment_failed" /\ http_status response = 202%Z
    /\ body_payment response = None /\ body_inventory response = Some "reserved".
Proof. intros pay inv w. eexists. split; [reflexivity|]. cbn. auto. Qed.

(** An [INSERT] that raises after the [UPDATE] went through: no answer, and
    the row keeps its new status. *)
Example create_order_insert_fails :
  forall w,
    create_order_fanout charged (ret "reserved")
      (mkStorage None (Some (OtherException "PostgresError")) None) w
    = (Raise (OtherException "PostgresError"), w, [update_orders_status "confirmed"]).
Proof. reflexivity. Qed.

(** C1 as stated fails where a service refuses without an exception
    reaching the handler: the inventory service answers 409 for stock that
    does not suffice, [_do] returns every answer below 500, and the order is
    confirmed with 201, where the table has inventory_failed and 202. *)
Lemma insufficient_stock_is_confirmed :
  (exists response,
     fst (fst (create_order_fanout charged _call_inventory plain_storage
                 (inventory_answering insufficient_stock)))
     = Ok response
     /\ body_status response = "confirmed"
     /\ body_inventory response = Some (content insufficient_stock)
     /\ http_status response = 201%Z)
  /\ accepted insufficient_stock = false
  /\ status_table true (accepted insufficient_stock) = "inventory_failed"
  /\ ~ status_follows_the_answer.
Proof.
  assert (Hrun : fst (fst (create_order_fanout charged _call_inventory plain_storage
                             (inventory_answering insufficient_stock)))
                 = Ok (mkOrderResponse "confirmed" (Some "charged")
                         (Some (content insufficient_stock)) 201)).
  { vm_compute. reflexivity. }
  split; [eexists; split; [exact Hrun|]; repeat split|].
  split; [reflexivity|]. split; [reflexivity|].
  intros H. destruct (H insufficient_stock _ Hrun) as [Hstatus _].
  discriminate Hstatus.
Qed.

End OrdersFacts.

(** ** The retry engine *)

Module RetryFacts.
Import Retry RetrySpec.

Lemma attempts_from_exhausted func config todo attempt last_exc w :
  budget_exhausted w = true ->
  attempts_from func config (S todo) attempt last_exc w
  = (Raise (or_else last_exc (RuntimeError "Retry budget exhausted")),
     set_log (log w ++ [retry_budget_exhausted]) w).
Proof.
  intros H. cbn [attempts_from]. unfold bind at 1, gets. now rewrite H.
Qed.

Lemma attempts_from_step func config todo attempt last_exc w :
  budget_exhausted w = false ->
  attempts_from func config (S todo) attempt last_exc w
  = match try_attempt func config attempt last_exc w with
    | (Ok (Return result), w') => (Ok result, w')
    | (Ok (Continue last_exc'), w') =>
        attempts_from func config todo (attempt + 1) last_exc' w'
    | (Raise exc, w') => (Raise exc, w')
    end.
Proof.
  intros H. cbn [attempts_from]. unfold bind at 1, gets. rewrite H.
  unfold bind at 1.
  destruct (try_attempt func config attempt last_exc w) as [[[v|l]|e] w'];
    reflexivity.
Qed.

(** The bookkeeping before a retry never raises. *)
Lemma _backoff_delay_total attempt config w :
  exists delay w', _backoff_delay attempt config w = (Ok delay, w').
Proof.
  unfold _backoff_delay. destruct (jitter config).
  - unfold bind, random_random. destruct (random_future w); eauto.
  - unfold ret. eauto.
Qed.

Lemma try_attempt_value func config attempt last_exc w result w1 :
  func w = (Ok result, w1) ->
  retry_trigger config (Ok result) = false
  \/ (attempt <? max_attempts config - 1)%Z = false ->
  try_attempt func config attempt last_exc w = (Ok (Return result), w1).
Proof.
  intros Hf Hc. unfold try_attempt, try_except, bind at 1. rewrite Hf.
  destruct result as [r|x]; [|reflexivity].
  cbn in Hc. destruct (is_retryable_status config r); [|reflexivity].
  destruct Hc as [Hc|Hc]; [discriminate|]. now rewrite Hc.
Qed.

Lemma try_attempt_raise func config attempt last_exc w exc w1 :
  func w = (Raise exc, w1) ->
  is_transport_error exc = false
  \/ (attempt <? max_attempts config - 1)%Z = false ->
  try_attempt func config attempt last_exc w = (Raise exc, w1).
Proof.
  intros Hf Hc. unfold try_attempt, try_except, bind at 1. rewrite Hf.
  destruct (is_transport_error exc); [|reflexivity].
  destruct Hc as [Hc|Hc]; [discriminate|]. now rewrite Hc.
Qed.

(** The engine walks on to the next attempt only from a trigger, and never
    from the last attempt. *)
Lemma try_attempt_continue func config attempt last_exc w last_exc' w' :
  try_attempt func config attempt last_exc w = (Ok (Continue last_exc'), w') ->
  retry_trigger config (fst (func w)) = true
  /\ (attempt < max_attempts config - 1)%Z.
Proof.
  unfold try_attempt, try_except, bind at 1.
  destruct (func w) as [[[r|x]|exc] w1]; cbn [fst retry_trigger].
  - destruct (is_retryable_status config r); [|discriminate].
    destruct (attempt <? max_attempts config - 1)%Z eqn:Hlt; [|discriminate].
    intros _. split; [reflexivity|lia].
  - discriminate.
  - destruct (is_transport_error exc); [|discriminate].
    destruct (attempt <? max_attempts config - 1)%Z eqn:Hlt; [|discriminate].
    intros _. split; [reflexivity|lia].
Qed.

Lemma not_in_default_set (s : Z) :
  bool_decide (s ∈ DEFAULT_RETRYABLE_STATUS) = false ->
  s ∉ DEFAULT_RETRYABLE_STATUS.
Proof. intros H Hin. apply bool_decide_eq_false in H. contradiction. Qed.

(** C2. At any attempt of the engine, a response whose status is outside the
    configured retryable set (for the default set: 400, 401, 404) is the
    result of the whole call, and the process is left exactly as the
    operation left it: no retry is counted, logged or slept for, and the
    operation is not invoked again.  The engine goes on to another attempt
    only after a transport error of the [except] tuple or a response with a
    status in the set. *)
Theorem non_retryable_status_surfaces_immediately
    (func : M value) (config : RetryConfig) (todo : nat) (attempt : Z)
    (last_exc : option exn) (w w1 : World) (r : Response) :
  budget_exhausted w = false ->
  func w = (Ok (VResponse r), w1) ->
  status_code r ∉ retryable_status_codes config ->
  attempts_from func config (S todo) attempt last_exc w = (Ok (VResponse r), w1)
  /\ (forall last_exc' w',
        try_attempt func config attempt last_exc w
          = (Ok (Continue last_exc'), w') -> False)
  /\ (forall func' w0 last_exc' w',
        try_attempt func' config attempt last_exc w0
          = (Ok (Continue last_exc'), w') ->
        retry_trigger config (fst (func' w0)) = true)
  /\ Forall (fun s => s ∉ DEFAULT_RETRYABLE_STATUS) [400; 401; 404]%Z.
Proof.
  intros Hb Hf Hs.
  assert (Hnt : retry_trigger config (Ok (VResponse r)) = false).
  { cbn. unfold is_retryable_status. now apply bool_decide_eq_false. }
  assert (Ht : try_attempt func config attempt last_exc w
               = (Ok (Return (VResponse r)), w1)).
  { apply try_attempt_value; auto. }
  repeat split.
  - rewrite attempts_from_step by assumption. now rewrite Ht.
  - intros l w'. rewrite Ht. discriminate.
  - intros func' w0 l w' H. now apply try_attempt_continue in H.
  - repeat constructor; now apply not_in_default_set.
Qed.

End RetryFacts.

Module RetryRuns.
Import Retry RetrySpec RetryFacts.

Lemma non_retryable_status_surfaces_immediately_witness :
  let w := at_rest 0 None [Ok (response 404); Ok (response 200)] in
  budget_exhausted w = false
  /\ (status_code (response 404) ∉ retryable_status_codes RetryConfig_default)
  /\ retry_with_backoff send RetryConfig_default w
     = (Ok (VResponse (response 404)), snd (send w)).
Proof.
  intros w.
  assert (Hs : status_code (response 404) ∉ retryable_status_codes RetryConfig_default).
  { apply not_in_default_set. reflexivity. }
  split; [reflexivity|]. split; [exact Hs|].
  exact (proj1 (non_retryable_status_surfaces_immediately
                  send RetryConfig_default 2 0 None w (snd (send w))
                  (response 404) eq_refl eq_refl Hs)).
Defined.

(** C9, as the engine has it.  When the attempt numbered [max_attempts - 1]
    runs and ends in a retry trigger, its outcome is the outcome of the whole
    call and the process is left as the operation left it: a response with a
    retryable status is returned as a value, a transport error is raised
    again.  When an earlier attempt ends in a response with a retryable
    status and the budget cell holds 1 or less after it, the engine counts
    and sleeps for a retry that never runs, and raises an [HTTPStatusError]
    that carries the response. *)
Theorem final_attempt_outcome_is_surfaced
    (func : M value) (config : RetryConfig) (todo : nat) (attempt : Z)
    (last_exc : option exn) (w w1 : World) (out : Res value) :
  budget_exhausted w = false ->
  func w = (out, w1) ->
  retry_trigger config out = true ->
  (attempt = max_attempts config - 1 ->
     attempts_from func config (S todo) attempt last_exc w = (out, w1))%Z
  /\ (forall r b,
        (attempt < max_attempts config - 1)%Z ->
        out = Ok (VResponse r) ->
        retry_budget w1 = Some b -> (b <= 1)%Z ->
        exists w',
          attempts_from func config (S (S todo)) attempt last_exc w
          = (Raise (HTTPStatusError
                      ("Retryable status " +:+ pretty (status_code r)) r), w')
          /\ network w' = network w1
          /\ retry_budget w' = Some (b - 1)%Z
          /\ RETRY_ATTEMPTS (metrics w') = S (RETRY_ATTEMPTS (metrics w1))).
Proof.
  intros Hb Hf Ht. split.
  - intros Hlast. rewrite attempts_from_step by assumption.
    assert (Hnot : (attempt <? max_attempts config - 1)%Z = false)
      by (apply Z.ltb_ge; lia).
    destruct out as [result|exc].
    + rewrite (try_attempt_value _ _ _ _ _ _ _ Hf (or_intror Hnot)). reflexivity.
    + rewrite (try_attempt_raise _ _ _ _ _ _ _ Hf (or_intror Hnot)). reflexivity.
  - intros r b Hlt -> Hbud Hle. cbn in Ht.
    rewrite attempts_from_step by assumption.
    unfold try_attempt, try_except, bind at 1. rewrite Hf, Ht.
    apply Z.ltb_lt in Hlt. rewrite Hlt.
    destruct (_backoff_delay_total attempt config w1) as (delay & w2 & Hd).
    assert (Hw2 : retry_budget w2 = Some b /\ network w2 = network w1
                  /\ metrics w2 = metrics w1).
    { revert Hd. unfold _backoff_delay. destruct (jitter config).
      - unfold bind, random_random, ret.
        destruct (random_future w1); intros [= _ <-]; auto.
      - unfold ret. intros [= _ <-]. auto. }
    destruct Hw2 as (Hb2 & Hn2 & Hm2).
    unfold bind at 1. rewrite Hd. cbn.
    rewrite Hb2. cbn.
    assert (Hex : (b - 1 <=? 0)%Z = true) by (apply Z.leb_le; lia).
    rewrite Hex. cbn.
    eexists. split; [reflexivity|]. cbn. rewrite Hm2. auto.
Qed.

Lemma final_attempt_outcome_is_surfaced_witness :
  let w := at_rest 0 None [Ok (response 503)] in
  budget_exhausted w = false
  /\ retry_trigger RetryConfig_default (Ok (VResponse (response 503))) = true
  /\ attempts_from send RetryConfig_default 1 2 None w
     = (Ok (VResponse (response 503)), snd (send w)).
Proof.
  intros w. split; [reflexivity|]. split; [reflexivity|].
  exact (proj1 (final_attempt_outcome_is_surfaced
                  send RetryConfig_default 0 2 None w (snd (send w))
                  (Ok (VResponse (response 503))) eq_refl eq_refl eq_refl)
               eq_refl).
Defined.

(** C9 as stated fails when a budget is configured: the only attempt that
    runs is answered 503, and the caller gets an [HTTPStatusError], not the
    response. *)
Lemma budget_exhaustion_raises_last_status :
  fst (retry_with_backoff send budget_run_config budget_run_start)
  = Raise (HTTPStatusError "Retryable status 503" (response 503))
  /\ answered budget_run_start
       (snd (retry_with_backoff send budget_run_config budget_run_start))
     = [Ok (response 503)]
  /\ ~ last_answer_is_returned.
Proof.
  split; [vm_compute; reflexivity|]. split; [vm_compute; reflexivity|].
  intros H.
  specialize (H budget_run_config budget_run_start (response 503)).
  cbv zeta in H.
  assert (Hlast : last (answered budget_run_start
                    (snd (retry_with_backoff send budget_run_config budget_run_start)))
                  = Some (Ok (response 503))) by (vm_compute; reflexivity).
  specialize (H Hlast eq_refl).
  vm_compute in H. discriminate H.
Qed.

End RetryRuns.

(** ** The circuit breaker *)

Module BreakerFacts.
Import CircuitBreaker BreakerSpec.

Ltac run_coro :=
  unfold _trip, _prune_window, update, gauge_set, counter_inc, logger,
    modify, gets, ret, raise, bind in *;
  cbn [fst snd breaker set_breaker set_metrics set_log set_clock
       _state _failures _opened_at _successes_in_half_open
       set_state set_failures set_opened_at set_successes_in_half_open
       clock metrics log] in *.

Lemma time_monotonic_reads (w : World) :
  exists t w', time_monotonic w = (Ok t, w') /\ breaker w' = breaker w
               /\ log w' = log w /\ metrics w' = metrics w.
Proof.
  unfold time_monotonic. destruct (mono_future (clock w)); eauto 10.
Qed.

(** Once set, [_opened_at] stays set, and it is set in every state but the
    closed one. *)
Definition opened_at_kept (b b' : BreakerFields) : Prop :=
  (is_Some (_opened_at b) -> is_Some (_opened_at b'))
  /\ ((_state b <> CLOSED -> is_Some (_opened_at b)) ->
      (_state b' <> CLOSED -> is_Some (_opened_at b'))).

(** Name the fields a coroutine leaves behind, so that it is run once. *)
Ltac name_result b' Hb' :=
  match goal with
  | |- opened_at_kept _ ?after =>
      remember after as b' eqn:Hb'
  end.

Lemma _get_state_keeps self w :
  opened_at_kept (breaker w) (breaker (snd (_get_state self w))).
Proof.
  name_result b' Hb'. revert Hb'.
  unfold _get_state. unfold bind at 1, gets at 1.
  destruct (_state (breaker w)) eqn:Hs.
  - (* CLOSED *)
    destruct (time_monotonic_reads w) as (t & w' & Ht & Hb & _).
    run_coro. rewrite Ht. cbn. rewrite Hb. intros ->.
    split; cbn; [auto|]. rewrite Hs. intros _ H. now destruct H.
  - (* OPEN *)
    destruct (_opened_at (breaker w)) as [opened|] eqn:Ho.
    + destruct (truthy (Some opened)).
      * destruct (time_monotonic_reads w) as (t & w' & Ht & Hb & _).
        run_coro. rewrite Ht.
        destruct (at_least (t - opened) (open_duration self)); cbn;
          rewrite Hb; intros ->; split; cbn; rewrite ?Ho; eauto.
      * run_coro. cbn. intros ->. split; cbn; rewrite ?Ho; eauto.
    + run_coro. cbn. intros ->. split; auto.
  - run_coro. cbn. intros ->. split; auto.
Qed.

Lemma _on_success_keeps self w :
  opened_at_kept (breaker w) (breaker (snd (_on_success self w))).
Proof.
  name_result b' Hb'. revert Hb'.
  unfold _on_success. unfold bind at 1, gets at 1.
  destruct (_state (breaker w)) eqn:Hs; try (cbn; intros ->; split; now auto).
  run_coro.
  destruct (_successes_in_half_open (breaker w) + 1 >=? success_threshold self)%Z;
    cbn; intros ->; split; cbn; rewrite ?Hs; auto;
    intros H _; apply H; discriminate.
Qed.

Lemma _on_failure_keeps self w :
  opened_at_kept (breaker w) (breaker (snd (_on_failure self w))).
Proof.
  name_result b' Hb'. revert Hb'.
  unfold _on_failure.
  destruct (time_monotonic_reads w) as (now & w1 & Ht & Hb & _).
  unfold bind at 1. rewrite Ht. unfold bind at 1, gets at 1. rewrite Hb.
  destruct (_state (breaker w)) eqn:Hs.
  - run_coro.
    match goal with |- context [time_monotonic ?x] =>
      destruct (time_monotonic_reads x) as (now' & w2 & Ht2 & Hb2 & _);
      rewrite Ht2 end.
    cbn in Hb2. rewrite Hb2. cbn.
    match goal with |- context [(?a >=? ?b)%Z] => destruct (a >=? b)%Z end;
      cbn; rewrite ?Hb2; cbn; rewrite ?Hb; intros ->; split; cbn;
      rewrite ?Hs; eauto;
      intros _ H; now destruct H.
  - run_coro.
    match goal with |- context [time_monotonic ?x] =>
      destruct (time_monotonic_reads x) as (now' & w2 & Ht2 & Hb2 & _);
      rewrite Ht2 end.
    cbn in Hb2. rewrite Hb2. cbn.
    match goal with |- context [(?a >=? ?b)%Z] => destruct (a >=? b)%Z end;
      cbn; rewrite ?Hb2; cbn; rewrite ?Hb; intros ->; split; cbn;
      rewrite ?Hs; eauto;
      intros H _; apply H; discriminate.
  - run_coro. cbn. intros ->. split; eauto.
Qed.

Lemma step_keeps self w w' :
  step self w w' -> opened_at_kept (breaker w) (breaker w').
Proof.
  intros [w1 m|w1 w2 Hsame].
  - destruct m; cbn [run_method].
    + pose proof (_get_state_keeps self w1) as H.
      unfold bind. destruct (_get_state self w1) as [[s|e] w2]; exact H.
    + apply _on_success_keeps.
    + apply _on_failure_keeps.
  - rewrite Hsame. split; auto.
Qed.

Lemma steps_keep self w w' :
  rtc (step self) w w' -> opened_at_kept (breaker w) (breaker w').
Proof.
  induction 1 as [w|w w1 w2 Hstep _ IH].
  - split; auto.
  - apply step_keeps in Hstep. destruct Hstep, IH. split; auto.
Qed.

Lemma methods_are_steps self ms w :
  rtc (step self) w (foldl (fun w m => snd (run_method self m w)) w ms).
Proof.
  revert w. induction ms as [|m ms IH]; intros w; cbn [foldl].
  - constructor.
  - eapply rtc_l; [apply step_method|apply IH].
Qed.

Lemma tripped_then_probed_reachable : reachable payments tripped_then_probed.
Proof.
  eexists. split; [|apply methods_are_steps]. reflexivity.
Qed.

(** C6 as stated fails: after a trip and the open duration the breaker is
    half-open and [_opened_at] still holds the time of the trip. *)
Lemma opened_at_survives_half_open :
  reachable payments tripped_then_probed
  /\ _state (breaker tripped_then_probed) = HALF_OPEN
  /\ _opened_at (breaker tripped_then_probed) = Some 5%Q
  /\ ~ opened_at_iff_open.
Proof.
  split; [apply tripped_then_probed_reachable|].
  split; [vm_compute; reflexivity|]. split; [vm_compute; reflexivity|].
  intros H.
  destruct (H payments tripped_then_probed tripped_then_probed_reachable)
    as [Hopen _].
  assert (Hs : is_Some (_opened_at (breaker tripped_then_probed)))
    by (exists 5%Q; vm_compute; reflexivity).
  specialize (Hopen Hs). vm_compute in Hopen. discriminate Hopen.
Qed.

(** C6, as the breaker has it.  In every reachable state in which the
    breaker is open, [_opened_at] is defined, and so it is in every
    half-open state; no transition clears it, so once defined it is
    defined in every later state, closed ones included. *)
Theorem opened_at_defined_while_open self w :
  reachable self w ->
  (_state (breaker w) = OPEN -> is_Some (_opened_at (breaker w)))
  /\ (_state (breaker w) = HALF_OPEN -> is_Some (_opened_at (breaker w)))
  /\ (forall w', rtc (step self) w w' ->
        is_Some (_opened_at (breaker w)) -> is_Some (_opened_at (breaker w'))).
Proof.
  intros (w0 & Hinit & Hsteps).
  apply steps_keep in Hsteps as [_ Hinv].
  assert (H : _state (breaker w) <> CLOSED -> is_Some (_opened_at (breaker w))).
  { apply Hinv. rewrite Hinit. intros Hne. now contradict Hne. }
  split; [|split].
  - intros Hs. apply H. rewrite Hs. discriminate.
  - intros Hs. apply H. rewrite Hs. discriminate.
  - intros w' Hsteps'. apply steps_keep in Hsteps' as [Hkeep _]. exact Hkeep.
Qed.

Lemma opened_at_defined_while_open_witness :
  reachable payments tripped_then_probed
  /\ _state (breaker tripped_then_probed) = HALF_OPEN
  /\ is_Some (_opened_at (breaker tripped_then_probed)).
Proof.
  split; [apply tripped_then_probed_reachable|].
  split; [reflexivity|].
  exact (proj1 (proj2 (opened_at_defined_while_open payments tripped_then_probed
                         tripped_then_probed_reachable)) eq_refl).
Defined.

End BreakerFacts.

Module BreakerTrip.
Import CircuitBreaker BreakerSpec BreakerFacts.

(** The clock is read whatever the breaker holds. *)
Lemma time_monotonic_set_breaker b w :
  time_monotonic (set_breaker b w)
  = (fst (time_monotonic w), set_breaker b (snd (time_monotonic w))).
Proof. unfold time_monotonic. cbn. now destruct (mono_future (clock w)). Qed.

Lemma time_monotonic_next w t rest :
  mono_future (clock w) = t :: rest ->
  time_monotonic w = (Ok t, set_clock (mkClock t rest) w).
Proof. intros H. unfold time_monotonic. now rewrite H. Qed.

(** What [_on_failure] leaves in the breaker when it is not half-open. *)
Lemma _on_failure_records self w now now' rest :
  _state (breaker w) <> HALF_OPEN ->
  mono_future (clock w) = now :: now' :: rest ->
  let kept := in_window self now' (_failures (breaker w) ++ [now]) in
  exists w',
    _on_failure self w = (Ok tt, w')
    /\ _failures (breaker w') = kept
    /\ if (Z.of_nat (length kept) >=? failure_threshold self)%Z
       then _state (breaker w') = OPEN /\ _opened_at (breaker w') = Some now
            /\ BREAKER_STATE (metrics w') = 1%Z
            /\ BREAKER_OPEN_TOTAL (metrics w') = S (BREAKER_OPEN_TOTAL (metrics w))
       else _state (breaker w') = _state (breaker w)
            /\ _opened_at (breaker w') = _opened_at (breaker w).
Proof.
  intros Hs Hclock kept. unfold _on_failure.
  unfold bind at 1. rewrite (time_monotonic_next _ _ _ Hclock).
  unfold bind at 1, gets at 1. cbn [breaker set_clock].
  assert (Hbody : forall X Y : M unit,
    match _state (breaker w) with HALF_OPEN => X | _ => Y end = Y).
  { intros X Y. destruct (_state (breaker w)); congruence. }
  rewrite Hbody. run_coro. rewrite time_monotonic_set_breaker.
  rewrite (time_monotonic_next _ now' rest) by reflexivity.
  cbn. fold (in_window self now' (_failures (breaker w) ++ [now])). fold kept.
  destruct (Z.of_nat (length kept) >=? failure_threshold self)%Z;
    cbn; eexists; (split; [reflexivity|]); cbn; auto.
Qed.

(** In the half-open state one failure trips the breaker at once. *)
Lemma _on_failure_half_open self w now rest :
  _state (breaker w) = HALF_OPEN ->
  mono_future (clock w) = now :: rest ->
  exists w',
    _on_failure self w = (Ok tt, w')
    /\ _state (breaker w') = OPEN /\ _opened_at (breaker w') = Some now
    /\ _failures (breaker w') = _failures (breaker w)
    /\ BREAKER_STATE (metrics w') = 1%Z
    /\ BREAKER_OPEN_TOTAL (metrics w') = S (BREAKER_OPEN_TOTAL (metrics w)).
Proof.
  intros Hs Hclock. unfold _on_failure.
  unfold bind at 1. rewrite (time_monotonic_next _ _ _ Hclock).
  unfold bind at 1, gets at 1. cbn [breaker set_clock]. rewrite Hs.
  run_coro. cbn. eexists. split; [reflexivity|]. cbn. auto 10.
Qed.

Lemma call_short_circuits {A} self (func : M A) w w1 :
  _get_state self w = (Ok OPEN, w1) ->
  let w2 := snd ((logger circuit_breaker_open ;; gauge_set 1) w1) in
  call self func None w = (Raise (breaker_open_error self), w2)
  /\ forall fallback, call self func (Some fallback) w = fallback w2.
Proof.
  intros Hg w2. split; [|intros fallback];
    unfold call; unfold bind at 1; rewrite Hg; reflexivity.
Qed.

Lemma _get_state_stays_open self w opened t rest :
  _state (breaker w) = OPEN ->
  _opened_at (breaker w) = Some opened ->
  mono_future (clock w) = t :: rest ->
  (t - opened < open_duration self)%Q ->
  exists w', _get_state self w = (Ok OPEN, w') /\ breaker w' = breaker w.
Proof.
  intros Hs Ho Hclock Hlt. unfold _get_state.
  unfold bind at 1, gets at 1. rewrite Hs, Ho.
  destruct (truthy (Some opened)).
  - unfold bind. rewrite (time_monotonic_next _ _ _ Hclock).
    unfold at_least. destruct (Qlt_le_dec (t - opened) (open_duration self)) as [_|Hge].
    + run_coro. cbn. rewrite Hs. eauto.
    + exfalso. apply (Qlt_not_le _ _ Hlt Hge).
  - run_coro. cbn. rewrite Hs. eauto.
Qed.

(** C5. When a failure is observed and the failures on record that lie in
    the rolling window, the new one included, number at least
    [failure_threshold], that observation leaves the breaker open with
    [_opened_at] the monotonic reading taken for the failure (the state gauge
    reads 1 and the trip is counted); in the half-open state the failure
    trips the breaker whatever the count.  From then on, as long as a call
    finds the state open, which it does for every reading less than
    [open_duration] after the trip, the wrapped operation is not invoked: the
    call raises the 503 "breaker open" error, or runs the fallback. *)
Theorem breaker_trips_at_threshold
    (self : CircuitBreaker) (w : World) (now now' : Q) (rest : list Q) :
  mono_future (clock w) = now :: now' :: rest ->
  (failure_threshold self
   <= Z.of_nat (length (in_window self now' (_failures (breaker w) ++ [now]))))%Z ->
  exists w',
    _on_failure self w = (Ok tt, w')
    /\ _state (breaker w') = OPEN
    /\ _opened_at (breaker w') = Some now
    /\ BREAKER_STATE (metrics w') = 1%Z
    /\ BREAKER_OPEN_TOTAL (metrics w') = S (BREAKER_OPEN_TOTAL (metrics w))
    /\ (forall later t rest',
          breaker later = breaker w' ->
          mono_future (clock later) = t :: rest' ->
          (t - now < open_duration self)%Q ->
          exists seen,
            _get_state self later = (Ok OPEN, seen)
            /\ breaker seen = breaker w'
            /\ forall A (func : M A),
                 fst (call self func None later) = Raise (breaker_open_error self)
                 /\ snd (call self func None later)
                    = snd ((logger circuit_breaker_open ;; gauge_set 1) seen)
                 /\ forall fallback,
                      call self func (Some fallback) later
                      = fallback (snd ((logger circuit_breaker_open ;; gauge_set 1) seen))).
Proof.
  intros Hclock Hcount.
  assert (Htrip : exists w',
    _on_failure self w = (Ok tt, w')
    /\ _state (breaker w') = OPEN /\ _opened_at (breaker w') = Some now
    /\ BREAKER_STATE (metrics w') = 1%Z
    /\ BREAKER_OPEN_TOTAL (metrics w') = S (BREAKER_OPEN_TOTAL (metrics w))).
  { destruct (_state (breaker w)) eqn:Hs.
    1, 2: destruct (_on_failure_records self w now now' rest) as (w' & Hrun & _ & Hif);
      [rewrite Hs; discriminate|assumption|];
      apply Z.geb_le in Hcount; rewrite Hcount in Hif; eauto.
    destruct (_on_failure_half_open self w now (now' :: rest) Hs Hclock)
      as (w' & Hrun & Hopen & Hat & _ & Hgauge & Htotal). eauto 10. }
  destruct Htrip as (w' & Hrun & Hopen & Hat & Hgauge & Htotal).
  exists w'. repeat (split; [assumption|]).
  intros later t rest' Hsame Hclock' Hlt.
  destruct (_get_state_stays_open self later now t rest') as (seen & Hg & Hb);
    try assumption; try (rewrite Hsame; assumption).
  exists seen. split; [assumption|]. split; [congruence|].
  intros A func.
  destruct (call_short_circuits self func later seen Hg) as [Hnone Hfb].
  rewrite Hnone. auto.
Qed.

Lemma breaker_trips_at_threshold_witness :
  let w := with_clock [5; 5]%Q
             (set_breaker (mkBreaker CLOSED [1; 2; 3; 4]%Q 0 None)
                (RetrySpec.at_rest 0 None [])) in
  (failure_threshold payments
   <= Z.of_nat (length (in_window payments 5 (_failures (breaker w) ++ [5%Q]))))%Z
  /\ exists w', _on_failure payments w = (Ok tt, w')
               /\ _state (breaker w') = OPEN
               /\ _opened_at (breaker w') = Some 5%Q.
Proof.
  intros w.
  assert (Hc : (failure_threshold payments
      <= Z.of_nat (length (in_window payments 5 (_failures (breaker w) ++ [5%Q]))))%Z)
    by (vm_compute; discriminate).
  split; [exact Hc|].
  destruct (breaker_trips_at_threshold payments w 5 5 [] eq_refl Hc)
    as (w' & Hrun & Hopen & Hat & _).
  exists w'. auto.
Defined.

(** Scenario 3 of the specification at the breaker: five calls in a row
    whose operation fails trip the breaker; the sixth call, one second
    later, is answered by the breaker and the downstream sees no request. *)
Example five_failures_then_fast_fail :
  let failing : M value := RetrySpec.send in
  let w0 := with_clock [1; 1; 1; 2; 2; 2; 3; 3; 3; 4; 4; 4; 5; 5; 5; 6]%Q
              (RetrySpec.at_rest 0 None
                 [Raise ConnectError; Raise ConnectError; Raise ConnectError;
                  Raise ConnectError; Raise ConnectError;
                  Ok (RetrySpec.response 200)]) in
  let five := foldl (fun w _ => snd (call payments failing None w)) w0
                    (seq 0 5) in
  _state (breaker five) = OPEN
  /\ _opened_at (breaker five) = Some 5%Q
  /\ fst (call payments failing None five) = Raise (breaker_open_error payments)
  /\ network (snd (call payments failing None five))
     = [Ok (RetrySpec.response 200)].
Proof. vm_compute. auto. Qed.

End BreakerTrip.

(** ** The bulkhead *)

Module BulkheadFacts.
Import Bulkhead BulkheadSpec.

Lemma wait_for_acquire_rejects self w :
  slot_in_time self w = false ->
  exists w1, wait_for_acquire self w = (Raise AsyncioTimeoutError, w1)
             /\ semaphore_value w1 = semaphore_value w
             /\ log w1 = log w /\ metrics w1 = metrics w.
Proof.
  unfold slot_in_time, wait_for_acquire.
  destruct (Qle_bool (max_wait self) 0); cbn [negb andb]; [eauto 10|].
  destruct (0 <? semaphore_value w)%Z; cbn [orb]; [discriminate|].
  destruct (semaphore_waits w) as [|[|] rest]; try discriminate; eauto 10.
Qed.

Lemma wait_for_acquire_takes self w :
  slot_in_time self w = true ->
  exists w1, wait_for_acquire self w = (Ok true, w1)
             /\ semaphore_value w1
                = (if (0 <? semaphore_value w)%Z then semaphore_value w - 1
                   else semaphore_value w)%Z
             /\ log w1 = log w ++ [semaphore_acquire].
Proof.
  unfold slot_in_time, wait_for_acquire.
  destruct (Qle_bool (max_wait self) 0); cbn [negb andb]; [discriminate|].
  destruct (0 <? semaphore_value w)%Z; cbn [orb]; [eauto 10|].
  destruct (semaphore_waits w) as [|[|] rest]; try discriminate; eauto 10.
Qed.

Lemma call_rejected {A} self (func : M A) w w1 :
  wait_for_acquire self w = (Raise AsyncioTimeoutError, w1) ->
  call self func w
  = (Raise (bulkhead_full_error self),
     snd ((counter_inc BULKHEAD_REJECTIONS set_BULKHEAD_REJECTIONS ;;
           logger bulkhead_rejected) w1)).
Proof.
  intros Hw. unfold call, bind at 1, try_except. rewrite Hw. reflexivity.
Qed.

Lemma call_with_slot {A} self (func : M A) w w1 :
  wait_for_acquire self w = (Ok true, w1) ->
  call self func w = (fst (func w1), snd (release (snd (func w1)))).
Proof.
  intros Hw. unfold call, bind at 1, try_except. rewrite Hw.
  unfold try_finally. now destruct (func w1) as [r w2].
Qed.

(** C7. A call that gets no slot within [max_wait] raises the 503
    "Bulkhead full" error with a [Retry-After] header, counts the rejection
    and leaves the semaphore as it was, whatever [func] is: [func] is not
    invoked.  A call that gets a slot runs [func] once and then releases,
    whether [func] returned or raised, so the value of the semaphore ends one
    above the value [func] left.  When [func] leaves the semaphore alone, the
    slots held while it runs are one more than before and never more than
    [max_concurrent], and a call that took a free slot restores the value of
    the semaphore. *)
Theorem bulkhead_call_contract {A} (self : Bulkhead) (func : M A) (w : World) :
  (slot_in_time self w = false ->
     exists w',
       (forall B (g : M B), call self g w = (Raise (bulkhead_full_error self), w'))
       /\ bulkhead_full_error self
          = HTTPException 503
              ("Bulkhead full for " +:+ name self +:+ " (max "
                 +:+ pretty (max_concurrent self) +:+ ")")
              [("Retry-After", "2")]
       /\ semaphore_value w' = semaphore_value w
       /\ BULKHEAD_REJECTIONS (metrics w') = S (BULKHEAD_REJECTIONS (metrics w)))
  /\ (slot_in_time self w = true ->
      exists w1,
        wait_for_acquire self w = (Ok true, w1)
        /\ call self func w = (fst (func w1), snd (release (snd (func w1))))
        /\ semaphore_value (snd (call self func w))
           = (semaphore_value (snd (func w1)) + 1)%Z
        /\ (semaphore_value (snd (func w1)) = semaphore_value w1 ->
            (0 <= semaphore_value w <= max_concurrent self)%Z ->
            (held self w1 <= max_concurrent self)%Z
            /\ (held self (snd (call self func w)) <= max_concurrent self)%Z
            /\ ((0 < semaphore_value w)%Z ->
                held self w1 = (held self w + 1)%Z
                /\ semaphore_value (snd (call self func w)) = semaphore_value w))).
Proof.
  split.
  - intros Hno.
    destruct (wait_for_acquire_rejects self w Hno) as (w1 & Hw & Hv & Hl & Hm).
    eexists. split; [|split; [reflexivity|]].
    + intros B g. apply (call_rejected self g w w1 Hw).
    + cbn. rewrite Hm. auto.
  - intros Hyes.
    destruct (wait_for_acquire_takes self w Hyes) as (w1 & Hw & Hv & Hl).
    exists w1. split; [assumption|].
    rewrite (call_with_slot self func w w1 Hw). split; [reflexivity|].
    cbn [snd]. unfold release, modify. cbn [snd semaphore_value set_log
      set_semaphore_value].
    split; [reflexivity|].
    intros Hkeep Hrange. unfold held. cbn [semaphore_value set_log set_semaphore_value].
    rewrite Hkeep, Hv.
    destruct (0 <? semaphore_value w)%Z eqn:Hfree.
    + apply Z.ltb_lt in Hfree. repeat split; lia.
    + apply Z.ltb_ge in Hfree. repeat split; lia.
Qed.

Lemma bulkhead_call_contract_witness :
  let failing : M value := raise ConnectError in
  slot_in_time payments (with_slots 20 []) = true
  /\ slot_in_time payments (with_slots 0 [false]) = false
  /\ fst (call payments failing (with_slots 20 [])) = Raise ConnectError
  /\ semaphore_value (snd (call payments failing (with_slots 20 []))) = 20%Z
  /\ exists w', call payments failing (with_slots 0 [false])
                = (Raise (bulkhead_full_error payments), w').
Proof.
  intros failing.
  pose proof (bulkhead_call_contract payments failing (with_slots 20 [])) as [_ Hyes].
  pose proof (bulkhead_call_contract payments failing (with_slots 0 [false])) as [Hno _].
  split; [reflexivity|]. split; [reflexivity|].
  destruct (Hyes eq_refl) as (w1 & Hw & Hcall & Hval & Hkept).
  destruct (Hno eq_refl) as (w' & Hrej & _).
  split; [rewrite Hcall; reflexivity|].
  split; [reflexivity|].
  exists w'. apply Hrej.
Defined.

End BulkheadFacts.

(** ** Load shedding *)

Module BackpressureFacts.
Import Backpressure BackpressureSpec.

Lemma dispatch_exempt self path call_next w :
  path ∈ _skip_paths self -> dispatch self path call_next w = call_next w.
Proof.
  intros H. unfold dispatch. now rewrite bool_decide_eq_true_2.
Qed.

(** C8. On a path that is not exempt: with [_inflight >= _max_inflight] the
    filter answers 429 with [Retry-After: 5], whatever the handler is (it is
    not invoked), and the counter keeps its value; with
    [_inflight < _max_inflight], in particular at [_max_inflight - 1], the
    handler runs, in a state whose counter is one higher, and when it
    returns or raises the counter is one lower than the handler left it. *)
Theorem load_shed_admission (self : BackpressureMiddleware) (path : string)
    (call_next : M Response) (w : World) :
  path ∉ _skip_paths self ->
  ((_inflight w >= _max_inflight self)%Z ->
     (forall handler, dispatch self path handler w = (Ok shed_response, after_shed w))
     /\ status_code shed_response = 429%Z
     /\ resp_headers shed_response = [("Retry-After", "5")]
     /\ _inflight (after_shed w) = _inflight w)
  /\ ((_inflight w < _max_inflight self)%Z ->
      let entered := set_inflight (_inflight w + 1) w in
      let left := snd (call_next entered) in
      dispatch self path call_next w
      = (fst (call_next entered), set_inflight (_inflight left - 1) left))
  /\ ((_inflight w = _max_inflight self - 1)%Z ->
      fst (dispatch self path call_next w)
      = fst (call_next (set_inflight (_max_inflight self) w))).
Proof.
  intros Hpath.
  assert (Hskip : bool_decide (path ∈ _skip_paths self) = false)
    by now apply bool_decide_eq_false.
  assert (Henter : (_inflight w < _max_inflight self)%Z ->
    dispatch self path call_next w
    = (fst (call_next (set_inflight (_inflight w + 1) w)),
       set_inflight
         (_inflight (snd (call_next (set_inflight (_inflight w + 1) w))) - 1)
         (snd (call_next (set_inflight (_inflight w + 1) w))))).
  { intros Hlt. unfold dispatch. rewrite Hskip.
    unfold try_enter, bind at 1, bind at 1, gets.
    assert (Hge : (_inflight w >=? _max_inflight self)%Z = false)
      by (rewrite Z.geb_leb; apply Z.leb_gt; lia).
    rewrite Hge. unfold bind at 1, modify at 1, ret at 1, try_finally.
    destruct (call_next (set_inflight (_inflight w + 1) w)) as [r w1].
    reflexivity. }
  split; [|split].
  - intros Hfull. split; [|auto].
    intros handler. unfold dispatch. rewrite Hskip.
    unfold try_enter, bind at 1, bind at 1, gets.
    assert (Hge : (_inflight w >=? _max_inflight self)%Z = true)
      by (apply Z.geb_le; lia).
    rewrite Hge. reflexivity.
  - exact Henter.
  - intros Heq. rewrite Henter by lia. cbn [fst].
    now replace (_inflight w + 1)%Z with (_max_inflight self) by lia.
Qed.

Lemma load_shed_admission_witness :
  let slow : M Response := raise TimeoutException in
  ("/orders" ∉ _skip_paths gateway)
  /\ dispatch gateway "/orders" slow (busy 200) = (Ok shed_response, after_shed (busy 200))
  /\ fst (dispatch gateway "/orders" slow (busy 199)) = Raise TimeoutException
  /\ _inflight (snd (dispatch gateway "/orders" slow (busy 199))) = 199%Z.
Proof.
  intros slow.
  assert (Hpath : "/orders" ∉ _skip_paths gateway).
  { apply (proj1 (bool_decide_eq_false _)). vm_compute. reflexivity. }
  split; [exact Hpath|].
  destruct (load_shed_admission gateway "/orders" slow (busy 200) Hpath)
    as ((Hshed & _) & _ & _); [vm_compute; discriminate|].
  destruct (load_shed_admission gateway "/orders" slow (busy 199) Hpath)
    as (_ & Henter & _).
  split; [apply Hshed|].
  rewrite Henter by reflexivity.
  split; reflexivity.
Defined.

End BackpressureFacts.

(** ** Deadlines *)

Module TimeoutFacts.
Import Timeout TimeoutSpec.

Lemma py_min_le_max (a r : Q) : (0 < r -> py_min a r <= py_max 0 r)%Q.
Proof.
  intros Hr. unfold py_min, py_max.
  destruct (Qlt_le_dec r a), (Qlt_le_dec 0 r); lra.
Qed.

Example float_of_decimal_reads :
  float_of_decimal "100" = Some (Finite 100)
  /\ float_of_decimal "-3" = Some (Finite (- 3))
  /\ float_of_decimal "1730678425.5" = Some (Finite (1730678425 + 5 / 10))
  /\ float_of_decimal "soon" = None
  /\ float_of_decimal "" = None.
Proof. vm_compute. auto 10. Qed.

Section FromHeader.

Variable float : string -> option pyfloat.

Lemma from_deadline_header_text now text :
  text <> "" ->
  from_deadline_header float now (Some text)
  = match float text with
    | Some d =>
        let config := set_deadline (Some d) TimeoutConfig_default in
        if gt_zero (fsub d now)
        then set_read_timeout (fmin (Finite 10) (fsub d now)) config
        else set_read_timeout (Finite 0.001) config
    | None => TimeoutConfig_default
    end.
Proof. intros Hne. destruct text; [congruence|reflexivity]. Qed.

(** A header that is absent, empty or not a number changes nothing. *)
Lemma from_deadline_header_default now header :
  header = None \/ header = Some "" \/
    (exists text, header = Some text /\ float text = None) ->
  from_deadline_header float now header = TimeoutConfig_default.
Proof.
  intros [->|[->|(text & -> & Hf)]]; try reflexivity.
  destruct text; [reflexivity|]. cbn. now rewrite Hf.
Qed.

(** C4, as the helper has it.  For a header that reads as a finite
    deadline: while the deadline lies ahead, the read timeout is
    min(default, deadline - now), which is at most max(0, deadline - now);
    once the deadline has passed, the read timeout is the floor of one
    millisecond, 0.001, not 0. *)
Theorem read_timeout_from_deadline (now : Q) (text : string) (d : Q) :
  text <> "" -> float text = Some (Finite d) ->
  let config := from_deadline_header float now (Some text) in
  deadline config = Some (Finite d)
  /\ ((0 < d - now)%Q ->
      read_timeout config = Finite (py_min 10 (d - now))
      /\ (py_min 10 (d - now) <= py_max 0 (d - now))%Q)
  /\ ((d - now <= 0)%Q -> read_timeout config = Finite 0.001).
Proof.
  intros Hne Hf config. subst config.
  rewrite from_deadline_header_text by assumption. rewrite Hf.
  cbn [fsub gt_zero].
  destruct (Qlt_le_dec 0 (d - now)) as [Hpos|Hneg]; cbn.
  - split; [reflexivity|]. split.
    + intros _. split; [|now apply py_min_le_max].
      unfold fmin, flt, py_min. now destruct (Qlt_le_dec (d - now) 10).
    + intros Hle. lra.
  - split; [reflexivity|]. split; [intros Hlt; lra|reflexivity].
Qed.

(** The deadlines that are not finite: an infinite one leaves the
    default, a NaN or a negative infinity gives the floor. *)
Lemma read_timeout_not_finite now text d :
  text <> "" -> float text = Some d ->
  read_timeout (from_deadline_header float now (Some text))
  = match d with
    | PosInf => Finite 10
    | NegInf | NaN => Finite 0.001
    | Finite x => read_timeout (from_deadline_header float now (Some text))
    end.
Proof.
  intros Hne Hf. destruct d; try reflexivity;
    rewrite from_deadline_header_text by assumption; rewrite Hf; reflexivity.
Qed.

End FromHeader.

Lemma read_timeout_from_deadline_witness :
  "130" <> "" /\ float_of_decimal "130" = Some (Finite 130)
  /\ read_timeout (from_deadline_header float_of_decimal 125.5 (Some "130"))
     = Finite (py_min 10 (130 - 125.5)).
Proof.
  assert (Hne : "130" <> "") by discriminate.
  assert (Hf : float_of_decimal "130" = Some (Finite 130)) by reflexivity.
  split; [exact Hne|]. split; [exact Hf|].
  destruct (read_timeout_from_deadline float_of_decimal 125.5 "130" 130 Hne Hf)
    as (_ & Hahead & _).
  apply Hahead. reflexivity.
Defined.

(** C4 as stated fails for a deadline that has passed: at second 200 a
    header of 100 gives a read timeout of 0.001, which is neither 0 nor at
    most max(0, 100 - 200) = 0. *)
Lemma expired_deadline_gives_floor :
  read_timeout (from_deadline_header float_of_decimal 200 (Some "100"))
  = Finite 0.001
  /\ ~ (0.001 <= py_max 0 (100 - 200))%Q
  /\ ~ (0.001 == py_min 10 (100 - 200))%Q
  /\ ~ timeout_bounded_by_deadline float_of_decimal.
Proof.
  split; [reflexivity|].
  split; [vm_compute; intros H; apply H; reflexivity|].
  split; [vm_compute; discriminate|].
  intros H.
  destruct (H 200%Q "100" 100%Q) as (t & Ht & _ & _ & Hzero);
    [discriminate|reflexivity|].
  assert (Hexp : (100 - 200 <= 0)%Q) by (vm_compute; discriminate).
  specialize (Hzero Hexp).
  assert (Heq : t = 0.001%Q).
  { assert (H1 : read_timeout (from_deadline_header float_of_decimal 200 (Some "100"))
               = Finite 0.001) by reflexivity.
    rewrite H1 in Ht. congruence. }
  subst t. vm_compute in Hzero. discriminate Hzero.
Qed.

End TimeoutFacts.

(** ** The idempotent consumer *)

Module NotificationsFacts.
Import Notifications NotificationsSpec.

Lemma keys_snoc es e :
  keys (es ++ [e]) = keys es ++ match effect_key e with Some k => [k] | None => [] end.
Proof. unfold keys. rewrite omap_app. cbn. now destruct (effect_key e). Qed.

Lemma insertion_first_snoc es e :
  insertion_first es ->
  (forall id, needs id e -> processed_add id ∈ es) ->
  insertion_first (es ++ [e]).
Proof.
  intros Hes He before e' after id Heq Hneeds.
  destruct after as [|x after _] using rev_ind.
  - apply app_inj_tail in Heq as [<- <-]. now apply He.
  - change (before ++ e' :: after ++ [x]) with (before ++ (e' :: after) ++ [x]) in Heq.
    rewrite app_assoc in Heq. apply app_inj_tail in Heq as [-> _].
    eapply Hes; eauto.
Qed.

Lemma consistent_snoc_plain processed es e :
  consistent processed es ->
  effect_key e = None ->
  (forall id, needs id e -> id ∈ processed) ->
  consistent processed (es ++ [e]).
Proof.
  intros (Hnd & Hin & Hadd & Hord) Hkey Hneeds. repeat split.
  - rewrite keys_snoc, Hkey, app_nil_r. exact Hnd.
  - intros k id. rewrite keys_snoc, Hkey, app_nil_r. apply Hin.
  - intros id Hid. apply elem_of_app. left. now apply Hadd.
  - apply insertion_first_snoc; [exact Hord|]. intros id Hn. apply Hadd, Hneeds, Hn.
Qed.

Lemma consistent_snoc_keyed processed es e k id :
  consistent processed es ->
  effect_key e = Some (k, id) ->
  id ∈ processed ->
  (k, id) ∉ keys es ->
  (forall id', needs id' e -> id' = id) ->
  consistent processed (es ++ [e]).
Proof.
  intros (Hnd & Hin & Hadd & Hord) Hkey Hid Hfresh Hneeds. repeat split.
  - rewrite keys_snoc, Hkey. apply NoDup_app. repeat split; [exact Hnd| |apply NoDup_singleton].
    intros x Hx Hx'. apply list_elem_of_singleton in Hx'. now subst.
  - intros k' id'. rewrite keys_snoc, Hkey. intros [H|H]%elem_of_app; [eauto|].
    apply list_elem_of_singleton in H. now inversion H; subst.
  - intros id' Hid'. apply elem_of_app. left. now apply Hadd.
  - apply insertion_first_snoc; [exact Hord|].
    intros id' Hn. apply Hneeds in Hn as ->. now apply Hadd.
Qed.

Lemma consistent_snoc_add processed es id :
  consistent processed es ->
  id ∉ processed ->
  consistent ({[ id ]} ∪ processed) (es ++ [processed_add id])
  /\ forall k, k <> Added -> (k, id) ∉ keys (es ++ [processed_add id]).
Proof.
  intros (Hnd & Hin & Hadd & Hord) Hnew.
  assert (Hfresh : forall k, (k, id) ∉ keys es) by (intros k Hk; eauto).
  split; [repeat split|].
  - rewrite keys_snoc. cbn. apply NoDup_app. repeat split; [exact Hnd| |apply NoDup_singleton].
    intros x Hx Hx'. apply list_elem_of_singleton in Hx'. subst. now apply (Hfresh Added).
  - intros k id'. rewrite keys_snoc. cbn. intros [H|H]%elem_of_app.
    + apply elem_of_union. right. eauto.
    + apply list_elem_of_singleton in H. inversion H; subst.
      apply elem_of_union. left. now apply elem_of_singleton.
  - intros id' [Hid'|Hid']%elem_of_union; apply elem_of_app.
    + apply elem_of_singleton in Hid' as ->. right. now apply list_elem_of_singleton.
    + left. now apply Hadd.
  - apply insertion_first_snoc; [exact Hord|]. intros id' [].
  - intros k Hk. rewrite keys_snoc. cbn. intros [H|H]%elem_of_app.
    + now apply (Hfresh k).
    + apply list_elem_of_singleton in H. inversion H. congruence.
Qed.

Lemma record_event_consistent s id :
  consistent (_processed_events s) (effects s) ->
  id ∉ _processed_events s ->
  let s' := record_event id s in
  consistent (_processed_events s') (effects s')
  /\ id ∈ _processed_events s'
  /\ forall k, k <> Added -> k <> Logged -> (k, id) ∉ keys (effects s').
Proof.
  intros Hc Hnew s'. subst s'. unfold record_event. cbn.
  destruct (consistent_snoc_add _ _ id Hc Hnew) as [Hc1 Hfresh1].
  change (effects s ++ [processed_add id; event_log_append id])
    with (effects s ++ [processed_add id] ++ [event_log_append id]).
  rewrite app_assoc.
  assert (Hid : id ∈ ({[ id ]} ∪ _processed_events s : gset string))
    by (apply elem_of_union; left; now apply elem_of_singleton).
  split; [|split; [exact Hid|]].
  - apply (consistent_snoc_keyed _ _ (event_log_append id) Logged id Hc1 eq_refl Hid).
    + apply Hfresh1. discriminate.
    + intros id' [k Hk]. now inversion Hk.
  - intros k Hk1 Hk2. rewrite keys_snoc. cbn. intros [H|H]%elem_of_app.
    + now apply (Hfresh1 k).
    + apply list_elem_of_singleton in H. inversion H. congruence.
Qed.

(** A POST keeps the processed set and the trail consistent. *)
Lemma receive_event_consistent redis xadd_ok event s :
  consistent (_processed_events s) (effects s) ->
  let s' := snd (receive_event redis xadd_ok event s) in
  consistent (_processed_events s') (effects s').
Proof.
  intros Hc. unfold receive_event.
  set (id := event_type event +:+ ":" +:+ aggregate_id event).
  destruct (bool_decide (id ∈ _processed_events s)) eqn:Hseen; cbn [snd].
  - apply consistent_snoc_plain; [exact Hc|reflexivity|intros id' []].
  - apply bool_decide_eq_false in Hseen.
    destruct (record_event_consistent s id Hc Hseen) as (Hc1 & Hid & Hfresh).
    set (s1 := record_event id s) in *.
    assert (Hstep : forall s2,
      consistent (_processed_events s2) (effects s2) ->
      id ∈ _processed_events s2 ->
      (Received, id) ∉ keys (effects s2) ->
      let s3 := emit [event_received (event_type event) (aggregate_id event)] s2 in
      consistent (_processed_events s3) (effects s3)).
    { intros s2 Hc2 Hid2 Hfr. cbn.
      apply (consistent_snoc_keyed _ _ (event_received (event_type event) (aggregate_id event))
               Received id Hc2 eq_refl Hid2 Hfr).
      intros id' [k Hk]. now inversion Hk. }
    destruct (redis && xadd_ok).
    + apply Hstep.
      * cbn. apply (consistent_snoc_keyed _ _ (xadd id) Published id Hc1 eq_refl Hid).
        -- apply Hfresh; discriminate.
        -- intros id' [k Hk]. now inversion Hk.
      * exact Hid.
      * cbn. rewrite keys_snoc. cbn. intros [H|H]%elem_of_app.
        -- revert H. apply Hfresh; discriminate.
        -- apply list_elem_of_singleton in H. discriminate H.
    + apply Hstep; [exact Hc1|exact Hid|apply Hfresh; discriminate].
Qed.

(** So does a stream entry, acknowledged or not. *)
Lemma consume_entry_consistent xack_ok entry s :
  consistent (_processed_events s) (effects s) ->
  let s' := snd (consume_entry xack_ok entry s) in
  consistent (_processed_events s') (effects s').
Proof.
  intros Hc. unfold consume_entry.
  set (id := default (msg_id entry) (data entry !! "event_id")).
  destruct (bool_decide (id ∈ _processed_events s)) eqn:Hseen.
  - apply bool_decide_eq_true in Hseen.
    assert (Hc1 : consistent (_processed_events s)
                    (effects s ++ [duplicate_counted "consume_event" id]))
      by (apply consistent_snoc_plain; [exact Hc|reflexivity|intros id' []]).
    destruct xack_ok; cbn [snd]; [|exact Hc1].
    cbn. apply consistent_snoc_plain; [exact Hc1|reflexivity|].
    intros id' Hn. cbn in Hn. now subst.
  - apply bool_decide_eq_false in Hseen.
    destruct (record_event_consistent s id Hc Hseen) as (Hc1 & Hid & Hfresh).
    set (s1 := record_event id s) in *.
    assert (Hc2 : consistent (_processed_events s1)
                    (effects s1 ++ [notification_sent id])).
    { apply (consistent_snoc_keyed _ _ (notification_sent id) Sent id Hc1 eq_refl Hid).
      - apply Hfresh; discriminate.
      - intros id' [k Hk]. now inversion Hk. }
    destruct xack_ok; cbn [snd]; [|exact Hc2].
    cbn. apply consistent_snoc_plain; [exact Hc2|reflexivity|].
    intros id' Hn. cbn in Hn. now subst.
Qed.

Lemma stream_read_consistent entries s :
  consistent (_processed_events s) (effects s) ->
  consistent (_processed_events (_redis_stream_consumer entries s))
             (effects (_redis_stream_consumer entries s)).
Proof.
  revert s. induction entries as [|[entry xack_ok] rest IH]; intros s Hc; [exact Hc|].
  cbn [_redis_stream_consumer].
  pose proof (consume_entry_consistent xack_ok entry s Hc) as Hstep.
  destruct (consume_entry xack_ok entry s) as [[|] s']; cbn in Hstep; auto.
Qed.

Lemma run_consistent ds s :
  consistent (_processed_events s) (effects s) ->
  consistent (_processed_events (run ds s)) (effects (run ds s)).
Proof.
  revert s. induction ds as [|d ds IH]; intros s Hc; [exact Hc|].
  cbn. apply IH. destruct d as [redis xadd_ok event|entries]; cbn [deliver].
  - now apply receive_event_consistent.
  - now apply stream_read_consistent.
Qed.

Lemma initial_consistent : consistent (_processed_events initial) (effects initial).
Proof.
  repeat split; cbn.
  - constructor.
  - intros k id H. inversion H.
  - intros id H. now apply not_elem_of_empty in H.
  - intros before e after id Heq. now destruct before.
Qed.

Lemma invocations_cons id e es :
  invocations id (e :: es)
  = (match e with
     | event_log_append id' => if String.eqb id' id then 1 else 0
     | _ => 0
     end + invocations id es)%nat.
Proof.
  unfold invocations. cbn [List.filter].
  destruct e; try reflexivity. now destruct (String.eqb event_id id).
Qed.

Lemma keys_cons e es :
  keys (e :: es)
  = match effect_key e with Some k => k :: keys es | None => keys es end.
Proof. unfold keys. cbn. now destruct (effect_key e). Qed.

Lemma invocations_logged id es :
  (0 < invocations id es)%nat -> (Logged, id) ∈ keys es.
Proof.
  induction es as [|e es IH]; [cbn; lia|].
  rewrite invocations_cons, keys_cons.
  destruct e; cbn [effect_key];
    try (intros H; try apply list_elem_of_further; apply IH; exact H).
  destruct (String.eqb_spec event_id id) as [->|Hne].
  - intros _. apply list_elem_of_here.
  - intros H. apply list_elem_of_further. now apply IH.
Qed.

Lemma invocations_at_most_one id es :
  NoDup (keys es) -> (invocations id es <= 1)%nat.
Proof.
  induction es as [|e es IH]; [cbn; lia|].
  rewrite invocations_cons, keys_cons.
  destruct e; cbn [effect_key];
    try (intros H; try apply NoDup_cons in H as [_ H]; apply IH; exact H).
  intros [Hnew Hnd]%NoDup_cons. specialize (IH Hnd).
  destruct (String.eqb_spec event_id id) as [->|Hne]; [|exact IH].
  destruct (invocations id es) eqn:Hn; [lia|].
  exfalso. apply Hnew, invocations_logged. lia.
Qed.

(** C10. Whatever is delivered to the process, by POST or from the stream,
    in whatever order and however often: every side effect for an event id
    and every acknowledgement of an entry checked under that id comes after
    the insertion of the id into the processed set; the handling of an id
    gets to its first side effect at most once; and no side effect of any
    kind occurs twice for one id. *)
Theorem side_effects_at_most_once (ds : list Delivery) :
  let s := run ds initial in
  insertion_first (effects s)
  /\ (forall id, invocations id (effects s) <= 1)%nat
  /\ NoDup (keys (effects s))
  /\ (forall id, (0 < invocations id (effects s))%nat -> id ∈ _processed_events s).
Proof.
  intros s.
  destruct (run_consistent ds initial initial_consistent)
    as (Hnd & Hin & Hadd & Hord).
  fold s in Hnd, Hin, Hadd, Hord.
  repeat split; auto.
  - intros id. now apply invocations_at_most_one.
  - intros id Hpos. apply (Hin Logged). now apply invocations_logged.
Qed.

(** The same event posted twice and then read from the stream twice: one
    round of side effects, three duplicates. *)
Example redelivery_is_deduplicated :
  let entry := mkEntry "1-0" {[ "event_id" := "order_created:42" ]} in
  effects (run [Post true true sample_event; Post true true sample_event;
                StreamRead [(entry, true); (entry, true)]] initial)
  = [processed_add "order_created:42"; event_log_append "order_created:42";
     xadd "order_created:42"; event_received "order_created" "42";
     duplicate_counted "receive_event" "order_created:42";
     duplicate_counted "consume_event" "order_created:42";
     xack "1-0" "order_created:42";
     duplicate_counted "consume_event" "order_created:42";
     xack "1-0" "order_created:42"].
Proof. vm_compute. reflexivity. Qed.

End NotificationsFacts.

(** ** The order of the wrappers *)

Module CompositionFacts.
Import CompositionSpec.

Lemma acquisitions_log w w' : log w' = log w -> acquisitions w' = acquisitions w.
Proof. unfold acquisitions. now intros ->. Qed.

Lemma acquisitions_logged e w w' :
  is_acquire e = false -> log w' = log w ++ [e] ->
  acquisitions w' = acquisitions w.
Proof.
  intros He Hl. unfold acquisitions. rewrite Hl, List.filter_app. cbn.
  rewrite He. now rewrite app_nil_r.
Qed.

Create HintDb outside discriminated.

Lemma outside_ret {A} (a : A) : outside_bulkhead (ret a).
Proof. now intros w. Qed.

Lemma outside_raise {A} e : outside_bulkhead (@raise A e).
Proof. now intros w. Qed.

Lemma outside_gets {A} (f : World -> A) : outside_bulkhead (gets f).
Proof. now intros w. Qed.

Lemma outside_modify f :
  (forall w, log (f w) = log w) -> outside_bulkhead (modify f).
Proof. intros H w. apply acquisitions_log, H. Qed.

Lemma outside_logger e : is_acquire e = false -> outside_bulkhead (logger e).
Proof. intros He w. now apply (acquisitions_logged e). Qed.

Lemma outside_bind {A B} (m : M A) (k : A -> M B) :
  outside_bulkhead m -> (forall a, outside_bulkhead (k a)) ->
  outside_bulkhead (bind m k).
Proof.
  intros Hm Hk w. unfold bind. specialize (Hm w).
  destruct (m w) as [[a|e] w1]; cbn [snd] in *; [|exact Hm].
  now rewrite Hk.
Qed.

Lemma outside_try_except {A} (body : M A) catches handler :
  outside_bulkhead body -> (forall e, outside_bulkhead (handler e)) ->
  outside_bulkhead (try_except body catches handler).
Proof.
  intros Hb Hh w. unfold try_except. specialize (Hb w).
  destruct (body w) as [[a|e] w1]; cbn [snd] in *; [exact Hb|].
  destruct (catches e); [|exact Hb]. now rewrite Hh.
Qed.

Lemma outside_time_monotonic : outside_bulkhead time_monotonic.
Proof. intros w. unfold time_monotonic. now destruct (mono_future (clock w)). Qed.

Lemma outside_random_random : outside_bulkhead random_random.
Proof. intros w. unfold random_random. now destruct (random_future w). Qed.

Lemma outside_client_request : outside_bulkhead client_request.
Proof.
  intros w. unfold client_request.
  destruct (network w); cbn [snd]; now apply (acquisitions_logged http_request).
Qed.

Lemma outside_spend_budget : outside_bulkhead Retry.spend_budget.
Proof.
  apply outside_modify. intros w. now destruct (retry_budget w).
Qed.

#[local] Hint Resolve outside_ret outside_raise outside_gets outside_logger
  outside_bind outside_try_except outside_time_monotonic outside_random_random
  outside_client_request outside_spend_budget : outside.

Ltac outside :=
  repeat first
    [ progress intros
    | apply outside_bind
    | apply outside_try_except
    | apply outside_modify; intros; reflexivity
    | apply outside_logger; reflexivity
    | solve [auto with outside]
    | match goal with
      | |- outside_bulkhead (match ?x with _ => _ end) => destruct x
      | |- outside_bulkhead (if ?b then _ else _) => destruct b
      end ].

Lemma outside_retry func config :
  outside_bulkhead func ->
  outside_bulkhead (Retry.retry_with_backoff func config).
Proof.
  intros Hf. unfold Retry.retry_with_backoff.
  generalize (Z.to_nat (Retry.max_attempts config)) 0%Z (@None exn).
  intros todo. induction todo as [|todo IH]; intros attempt last_exc;
    cbn [Retry.attempts_from]; [outside|].
  apply outside_bind; [outside|]. intros [|]; [outside|].
  apply outside_bind; [|intros [result|last_exc']; [outside|apply IH]].
  unfold Retry.try_attempt, Retry._backoff_delay, counter_inc, asyncio_sleep_for.
  outside.
Qed.

Lemma outside_breaker {A} self (func : M A) :
  outside_bulkhead func ->
  outside_bulkhead (CircuitBreaker.call self func None).
Proof.
  intros Hf.
  unfold CircuitBreaker.call, CircuitBreaker._get_state,
    CircuitBreaker._on_success, CircuitBreaker._on_failure,
    CircuitBreaker._trip, CircuitBreaker._prune_window,
    CircuitBreaker.update, gauge_set, counter_inc.
  outside.
Qed.

Lemma outside__do : outside_bulkhead Orders._do.
Proof. unfold Orders._do, raise_for_status, counter_inc. outside. Qed.

(** Around any operation that stays outside of it, the bulkhead is entered
    at most once per call. *)
Lemma bulkhead_entered_once {A} self (func : M A) w :
  outside_bulkhead func ->
  (acquisitions (snd (Bulkhead.call self func w)) <= acquisitions w + 1)%nat.
Proof.
  intros Hf. destruct (BulkheadSpec.slot_in_time self w) eqn:Hslot.
  - destruct (BulkheadFacts.wait_for_acquire_takes self w Hslot) as (w1 & Hw & _ & Hl).
    rewrite (BulkheadFacts.call_with_slot self func w w1 Hw). cbn [snd].
    rewrite (acquisitions_logged semaphore_release (snd (func w1)))
      by reflexivity.
    rewrite Hf. unfold acquisitions. rewrite Hl, List.filter_app, length_app.
    cbn. lia.
  - destruct (BulkheadFacts.wait_for_acquire_rejects self w Hslot)
      as (w1 & Hw & _ & Hl & _).
    rewrite (BulkheadFacts.call_rejected self func w w1 Hw). cbn [snd].
    rewrite (acquisitions_logged bulkhead_rejected w1) by reflexivity.
    rewrite (acquisitions_log w w1 Hl). lia.
Qed.

(** The orders service has the bulkhead outermost: whatever the downstream
    does and however often the engine retries, one call to
    [_call_payments] enters the bulkhead at most once. *)
Lemma orders_retry_stays_in_bulkhead w :
  (acquisitions (snd (Orders._call_payments w)) <= acquisitions w + 1)%nat.
Proof.
  unfold Orders._call_payments.
  unfold bind at 1, modify at 1.
  set (w0 := set_retry_budget (Some 3%Z) w).
  assert (Hw0 : acquisitions w0 = acquisitions w) by reflexivity.
  rewrite <- Hw0. clearbody w0. clear Hw0.
  unfold bind.
  match goal with |- context [Bulkhead.call ?b ?f w0] =>
    pose proof (bulkhead_entered_once b f w0) as Hb;
    destruct (Bulkhead.call b f w0) as [[resp|e] w1] end;
    cbn [snd] in *.
  - assert (Hj : outside_bulkhead (Orders.json resp))
      by (unfold Orders.json; outside).
    rewrite Hj. apply Hb. apply outside_breaker, outside_retry, outside__do.
  - apply Hb. apply outside_breaker, outside_retry, outside__do.
Qed.

(** C3 at the gateway.  [_forward] hands [_in_bulkhead] to the retry
    engine, so the engine is the outermost wrapper: when the first request
    meets a refused connection, the retry enters the bulkhead a second time
    (and the breaker has seen a failure of its own).  [_call_payments] of the
    orders service, on the same downstream, enters the bulkhead once and
    retries inside it.  A rejection by the bulkhead is not retried at the
    gateway either. *)
Theorem gateway_retry_reenters_bulkhead :
  let gateway := Gateway._forward Gateway._orders_breaker Gateway._orders_bulkhead in
  fst (gateway (flaky_downstream 50)) = Ok (VResponse (RetrySpec.response 200))
  /\ map without_delay (log (snd (gateway (flaky_downstream 50))))
     = [semaphore_acquire; http_request; semaphore_release;
        retrying_after_error 1 ConnectError 0; asyncio_sleep 0;
        semaphore_acquire; http_request; semaphore_release]
  /\ acquisitions (snd (gateway (flaky_downstream 50))) = 2%nat
  /\ _failures (breaker (snd (gateway (flaky_downstream 50)))) = [0%Q]
  /\ map without_delay (log (snd (Orders._call_payments (flaky_downstream 20))))
     = [semaphore_acquire; http_request;
        retrying_after_error 1 ConnectError 0; asyncio_sleep 0;
        http_request; semaphore_release]
  /\ acquisitions (snd (Orders._call_payments (flaky_downstream 20))) = 1%nat
  /\ _failures (breaker (snd (Orders._call_payments (flaky_downstream 20)))) = []
  /\ (let full := set_semaphore_waits [false; false; false]
                    (RetrySpec.at_rest 0 None [Ok (RetrySpec.response 200)]) in
      fst (gateway full) = Raise (Bulkhead.bulkhead_full_error Gateway._orders_bulkhead)
      /\ log (snd (gateway full)) = [bulkhead_rejected]
      /\ RETRY_ATTEMPTS (metrics (snd (gateway full))) = 0%nat).
Proof. vm_compute. repeat split; reflexivity. Qed.

End CompositionFacts.

(** ** More on the retry engine *)

Module RetryBounds.
Import Retry RetrySpec RetryFacts Counting.

(** The bookkeeping before a retry: it cannot fail, counts the retry, logs
    it, takes one from the budget and sleeps; it sends nothing. *)
Lemma bookkeeping_run (config : RetryConfig) (attempt : Z) (mk : Q -> Event)
    (k : LoopStep) (w1 : World) :
  exists delay w2,
    (delay <- _backoff_delay attempt config ;;
     counter_inc RETRY_ATTEMPTS set_RETRY_ATTEMPTS ;;
     logger (mk delay) ;;
     spend_budget ;;
     asyncio_sleep_for delay ;;
     ret k) w1 = (Ok k, w2)
    /\ log w2 = log w1 ++ [mk delay; asyncio_sleep delay]
    /\ retry_budget w2 = (fun b => b - 1)%Z <$> retry_budget w1
    /\ network w2 = network w1
    /\ RETRY_ATTEMPTS (metrics w2) = S (RETRY_ATTEMPTS (metrics w1)).
Proof.
  destruct (_backoff_delay_total attempt config w1) as (delay & w2 & Hd).
  assert (Hw2 : log w2 = log w1 /\ retry_budget w2 = retry_budget w1
                /\ network w2 = network w1 /\ metrics w2 = metrics w1).
  { revert Hd. unfold _backoff_delay. destruct (jitter config).
    - unfold bind, random_random, ret.
      destruct (random_future w1); intros [= _ <-]; auto.
    - unfold ret. intros [= _ <-]. auto. }
  destruct Hw2 as (Hl & Hb & Hn & Hm).
  exists delay. eexists. unfold bind at 1. rewrite Hd.
  split; [reflexivity|]. cbn. rewrite <- Hl, <- Hb, <- Hn, <- Hm.
  destruct (retry_budget w2) eqn:E; cbn; rewrite ?E, <- app_assoc; auto.
Qed.

(** The three ways a pass through the loop body can end. *)
Lemma try_attempt_shape func config attempt last_exc w :
  match try_attempt func config attempt last_exc w with
  | (Ok (Return v), w2) => func w = (Ok v, w2)
  | (Raise e, w2) => func w = (Raise e, w2)
  | (Ok (Continue l), w2) =>
      retry_trigger config (fst (func w)) = true
      /\ (attempt < max_attempts config - 1)%Z
      /\ exists ev delay,
           is_request ev = false
           /\ log w2 = log (snd (func w)) ++ [ev; asyncio_sleep delay]
           /\ retry_budget w2 = (fun b => b - 1)%Z <$> retry_budget (snd (func w))
           /\ network w2 = network (snd (func w))
           /\ RETRY_ATTEMPTS (metrics w2)
              = S (RETRY_ATTEMPTS (metrics (snd (func w))))
  end.
Proof.
  unfold try_attempt, try_except, bind at 1.
  destruct (func w) as [[[r|x]|exc] w1]; cbn [fst snd retry_trigger];
    try reflexivity.
  - destruct (is_retryable_status config r); [|reflexivity].
    destruct (attempt <? max_attempts config - 1)%Z eqn:Hlt; [|reflexivity].
    destruct (bookkeeping_run config attempt
                (retrying_request (attempt + 1) (status_code r))
                (Continue (Some (HTTPStatusError
                   ("Retryable status " +:+ pretty (status_code r)) r))) w1)
      as (delay & w2 & -> & Hl & Hb & Hn & Hm).
    split; [reflexivity|]. split; [lia|].
    eexists _, delay. split; [|split; [exact Hl|auto]]. reflexivity.
  - destruct (is_transport_error exc); [|reflexivity].
    destruct (attempt <? max_attempts config - 1)%Z eqn:Hlt; [|reflexivity].
    destruct (bookkeeping_run config attempt
                (retrying_after_error (attempt + 1) exc)
                (Continue (Some exc)) w1)
      as (delay & w2 & -> & Hl & Hb & Hn & Hm).
    split; [reflexivity|]. split; [lia|].
    eexists _, delay. split; [|split; [exact Hl|auto]]. reflexivity.
Qed.

Lemma requests_app w w' es :
  log w' = log w ++ es ->
  requests w' = (requests w + length (List.filter is_request es))%nat.
Proof.
  intros H. unfold requests, occurrences. now rewrite H, List.filter_app, length_app.
Qed.

Lemma try_attempt_requests func config attempt last_exc w :
  one_request_at_most func ->
  (requests (snd (try_attempt func config attempt last_exc w)) <= requests w + 1)%nat.
Proof.
  intros Hf. pose proof (try_attempt_shape func config attempt last_exc w) as H.
  specialize (Hf w).
  destruct (try_attempt func config attempt last_exc w) as [[[v|l]|e] w2];
    cbn [snd].
  - now rewrite H in Hf.
  - destruct H as (_ & _ & ev & delay & Hev & Hl & _).
    rewrite (requests_app _ _ _ Hl). cbn. rewrite Hev. cbn. lia.
  - now rewrite H in Hf.
Qed.

Lemma attempts_from_requests func config todo attempt last_exc w :
  one_request_at_most func ->
  (requests (snd (attempts_from func config todo attempt last_exc w))
   <= requests w + todo)%nat.
Proof.
  intros Hf. revert attempt last_exc w.
  induction todo as [|todo IH]; intros attempt last_exc w.
  - cbn. lia.
  - destruct (budget_exhausted w) eqn:Hb.
    + rewrite attempts_from_exhausted by assumption. cbn [snd].
      rewrite (requests_app w _ [retry_budget_exhausted]) by reflexivity. cbn. lia.
    + rewrite attempts_from_step by assumption.
      pose proof (try_attempt_requests func config attempt last_exc w Hf) as Hstep.
      destruct (try_attempt func config attempt last_exc w) as [[[v|l]|e] w2];
        cbn [snd] in *; try lia.
      specialize (IH (attempt + 1)%Z l w2). lia.
Qed.

(** X1. Whatever the operation meets, one call of the engine invokes it at most
    [max_attempts] times: an operation that sends at most one request per
    invocation makes the engine send at most [max_attempts] requests, and
    none at all when [max_attempts] is zero or negative. *)
Theorem retry_sends_at_most_max_attempts (func : M value) (config : RetryConfig)
    (w : World) :
  one_request_at_most func ->
  (requests (snd (retry_with_backoff func config w))
   <= requests w + Z.to_nat (max_attempts config))%nat.
Proof. intros Hf. now apply attempts_from_requests. Qed.

Lemma send_one_request : one_request_at_most send.
Proof.
  intros w. unfold send, bind, client_request.
  destruct (network w) as [|[r|e] rest]; cbn [snd];
    rewrite (requests_app w _ [http_request]) by reflexivity; cbn; lia.
Qed.

Lemma retry_sends_at_most_max_attempts_witness :
  one_request_at_most send
  /\ (requests (snd (retry_with_backoff send RetryConfig_default
                      (at_rest 0 None [])))
      <= requests (at_rest 0 None []) + 3)%nat.
Proof.
  split; [exact send_one_request|].
  exact (retry_sends_at_most_max_attempts send RetryConfig_default
           (at_rest 0 None []) send_one_request).
Defined.

End RetryBounds.

Module RetryMore.
Import Retry RetrySpec RetryFacts Counting RetryBounds RetryMoreSpec.

Lemma attempts_from_budget func config todo attempt last_exc w b :
  one_request_at_most func -> keeps_budget func ->
  retry_budget w = Some b ->
  (requests (snd (attempts_from func config todo attempt last_exc w))
   <= requests w + Z.to_nat b)%nat.
Proof.
  intros Hf Hk. revert attempt last_exc w b.
  induction todo as [|todo IH]; intros attempt last_exc w b Hb.
  - cbn. lia.
  - destruct (budget_exhausted w) eqn:Hex.
    + rewrite attempts_from_exhausted by assumption. cbn [snd].
      rewrite (requests_app w _ [retry_budget_exhausted]) by reflexivity. cbn. lia.
    + assert (Hpos : (0 < b)%Z).
      { unfold budget_exhausted in Hex. rewrite Hb in Hex.
        apply Z.leb_gt in Hex. lia. }
      rewrite attempts_from_step by assumption.
      pose proof (try_attempt_requests func config attempt last_exc w Hf) as Hstep.
      pose proof (try_attempt_shape func config attempt last_exc w) as Hshape.
      destruct (try_attempt func config attempt last_exc w) as [[[v|l]|e] w2];
        cbn [snd] in *; try lia.
      destruct Hshape as (_ & _ & ev & delay & _ & _ & Hb2 & _).
      rewrite Hk, Hb in Hb2. cbn in Hb2.
      specialize (IH (attempt + 1)%Z l w2 (b - 1)%Z Hb2). lia.
Qed.

(** X2. With a budget cell holding [b], one call of the engine invokes the
    operation at most [b] times (so a budget of [b] pays for [b - 1]
    retries), and not at all when [b] is zero or negative. *)
Theorem budget_bounds_attempts (func : M value) (config : RetryConfig)
    (w : World) (b : Z) :
  one_request_at_most func -> keeps_budget func ->
  retry_budget w = Some b ->
  (requests (snd (retry_with_backoff func config w))
   <= requests w + Z.to_nat b)%nat.
Proof. intros Hf Hk Hb. now apply attempts_from_budget. Qed.

Lemma send_keeps_budget : keeps_budget send.
Proof.
  intros w. unfold send, bind, client_request.
  now destruct (network w) as [|[r|e] rest].
Qed.

Lemma budget_bounds_attempts_witness :
  let w := at_rest 0 (Some 1%Z) [Raise ConnectError; Ok (response 200)] in
  retry_budget w = Some 1%Z
  /\ (requests (snd (retry_with_backoff send RetryConfig_default w))
      <= requests w + 1)%nat.
Proof.
  intros w. split; [reflexivity|].
  exact (budget_bounds_attempts send RetryConfig_default w 1
           send_one_request send_keeps_budget eq_refl).
Defined.

(** X3. With nothing to attempt the engine raises a [RuntimeError] and leaves the
    operation alone: for [max_attempts] zero or negative the loop body never
    runs; for a budget that is zero or negative on entry the first pass stops
    at the budget check. *)
Theorem nothing_to_attempt (func : M value) (config : RetryConfig) (w : World) :
  ((max_attempts config <= 0)%Z ->
     retry_with_backoff func config w
     = (Raise (RuntimeError "Retry failed without exception"), w))
  /\ ((0 < max_attempts config)%Z -> budget_exhausted w = true ->
      retry_with_backoff func config w
      = (Raise (RuntimeError "Retry budget exhausted"),
         set_log (log w ++ [retry_budget_exhausted]) w)).
Proof.
  unfold retry_with_backoff. split.
  - intros Hle. replace (Z.to_nat (max_attempts config)) with 0%nat by lia.
    reflexivity.
  - intros Hpos Hex.
    destruct (Z.to_nat (max_attempts config)) as [|todo] eqn:Hn; [lia|].
    now rewrite attempts_from_exhausted.
Qed.

Lemma nothing_to_attempt_witness :
  let config := mkRetryConfig 0 0.1 30 2 true DEFAULT_RETRYABLE_STATUS in
  let w := at_rest 0 None [Ok (response 200)] in
  (max_attempts config <= 0)%Z
  /\ retry_with_backoff send config w
     = (Raise (RuntimeError "Retry failed without exception"), w)
  /\ retry_with_backoff send RetryConfig_default (at_rest 0 (Some 0%Z) [])
     = (Raise (RuntimeError "Retry budget exhausted"),
        set_log [retry_budget_exhausted] (at_rest 0 (Some 0%Z) [])).
Proof.
  intros config w.
  assert (H0 : (max_attempts config <= 0)%Z) by (cbn; lia).
  split; [exact H0|]. split.
  - exact (proj1 (nothing_to_attempt send config w) H0).
  - exact (proj2 (nothing_to_attempt send RetryConfig_default
                    (at_rest 0 (Some 0%Z) [])) eq_refl eq_refl).
Defined.

(** A trigger before the last attempt sends the engine round the loop. *)
Lemma try_attempt_retries func config attempt last_exc w out w1 :
  func w = (out, w1) ->
  retry_trigger config out = true ->
  (attempt < max_attempts config - 1)%Z ->
  exists l w2,
    try_attempt func config attempt last_exc w = (Ok (Continue l), w2)
    /\ retry_budget w2 = (fun b => b - 1)%Z <$> retry_budget w1
    /\ network w2 = network w1
    /\ RETRY_ATTEMPTS (metrics w2) = S (RETRY_ATTEMPTS (metrics w1)).
Proof.
  intros Hf Ht Hlt. apply Z.ltb_lt in Hlt.
  unfold try_attempt, try_except, bind at 1. rewrite Hf.
  destruct out as [[r|x]|exc]; cbn in Ht; try discriminate; rewrite Ht, Hlt.
  - destruct (bookkeeping_run config attempt
                (retrying_request (attempt + 1) (status_code r))
                (Continue (Some (HTTPStatusError
                   ("Retryable status " +:+ pretty (status_code r)) r))) w1)
      as (delay & w2 & -> & _ & Hb & Hn & Hm). eauto 10.
  - destruct (bookkeeping_run config attempt
                (retrying_after_error (attempt + 1) exc)
                (Continue (Some exc)) w1)
      as (delay & w2 & -> & _ & Hb & Hn & Hm). eauto 10.
Qed.

Lemma send_next w answer rest :
  network w = answer :: rest ->
  exists w1,
    send w = (match answer with Ok r => Ok (VResponse r) | Raise e => Raise e end, w1)
    /\ network w1 = rest /\ retry_budget w1 = retry_budget w
    /\ metrics w1 = metrics w.
Proof.
  intros Hn. unfold send, bind, client_request. rewrite Hn.
  destruct answer; eexists; (split; [reflexivity|]); auto.
Qed.

Lemma attempts_from_recovers config answers :
  forall todo attempt last_exc w r rest,
  network w = answers ++ Ok r :: rest ->
  Forall (fun a => transient config a = true) answers ->
  is_retryable_status config r = false ->
  (length answers < todo)%nat ->
  (attempt + Z.of_nat (length answers) < max_attempts config)%Z ->
  budget_allows (S (length answers)) w ->
  exists w',
    attempts_from send config todo attempt last_exc w = (Ok (VResponse r), w')
    /\ network w' = rest
    /\ RETRY_ATTEMPTS (metrics w')
       = (RETRY_ATTEMPTS (metrics w) + length answers)%nat.
Proof.
  induction answers as [|a answers IH];
    intros todo attempt last_exc w r rest Hn Hall Hr Htodo Hatt Hbud;
    (destruct todo as [|todo]; [cbn in Htodo; lia|]);
    (assert (Hex : budget_exhausted w = false);
     [unfold budget_exhausted, budget_allows in *;
      destruct (retry_budget w); [apply Z.leb_gt; cbn in Hbud; lia|reflexivity]|]);
    rewrite attempts_from_step by assumption.
  - destruct (send_next w (Ok r) rest Hn) as (w1 & Hs & Hn1 & _ & Hm1).
    rewrite (try_attempt_value send config attempt last_exc w _ w1 Hs)
      by (left; exact Hr).
    exists w1. rewrite Hm1. repeat split; auto; cbn; lia.
  - apply Forall_cons in Hall as [Ha Hall].
    destruct (send_next w a (answers ++ Ok r :: rest) Hn) as (w1 & Hs & Hn1 & Hb1 & Hm1).
    destruct (try_attempt_retries send config attempt last_exc w _ w1 Hs)
      as (l & w2 & -> & Hb2 & Hn2 & Hm2).
    { now destruct a. }
    { cbn [length] in Hatt. lia. }
    destruct (IH todo (attempt + 1)%Z l w2 r rest) as (w' & Hrun & Hn' & Hm');
      try assumption.
    + congruence.
    + cbn [length] in Htodo. lia.
    + cbn [length] in Hatt. lia.
    + unfold budget_allows in *. rewrite Hb2, Hb1.
      destruct (retry_budget w); cbn; [|exact I]. cbn [length] in Hbud. lia.
    + exists w'. rewrite Hrun, Hm', Hm2, Hm1. repeat split; auto;
        cbn [length]; lia.
Qed.

(** X4. When the downstream first gives fewer than [max_attempts] transient
    answers (transport errors of the tuple, statuses of the set) and then a
    response with a status outside the set, and the budget covers the
    attempts, the engine returns that response, has sent exactly those
    requests and has counted one retry per transient answer. *)
Theorem retry_recovers_after_transient_answers (config : RetryConfig) (w : World)
    (answers : list (Res Response)) (r : Response) (rest : list (Res Response)) :
  network w = answers ++ Ok r :: rest ->
  Forall (fun a => transient config a = true) answers ->
  is_retryable_status config r = false ->
  (Z.of_nat (length answers) < max_attempts config)%Z ->
  budget_allows (S (length answers)) w ->
  exists w',
    retry_with_backoff send config w = (Ok (VResponse r), w')
    /\ network w' = rest
    /\ RETRY_ATTEMPTS (metrics w')
       = (RETRY_ATTEMPTS (metrics w) + length answers)%nat.
Proof.
  intros Hn Hall Hr Hlen Hbud.
  apply attempts_from_recovers; auto; lia.
Qed.

Lemma retry_recovers_after_transient_answers_witness :
  let w := at_rest 0 (Some 3%Z)
             [Raise ConnectError; Ok (response 503); Ok (response 201)] in
  exists w',
    retry_with_backoff send RetryConfig_default w = (Ok (VResponse (response 201)), w')
    /\ network w' = []
    /\ RETRY_ATTEMPTS (metrics w') = 2%nat.
Proof.
  intros w.
  apply (retry_recovers_after_transient_answers RetryConfig_default w
           [Raise ConnectError; Ok (response 503)] (response 201) []).
  - reflexivity.
  - repeat constructor.
  - reflexivity.
  - cbn. lia.
  - cbn. lia.
Defined.

(** X5. The services never retry a server error.  [_do] of the orders service
    and [_do_request] of the gateway turn an answer of 500 or above into an
    [HTTPStatusError] before the engine sees a response; that class is not in
    the [except] tuple, so the engine raises it after one request and counts
    no retry, whether or not the status is in the retryable set. *)
Theorem server_errors_are_not_retried (config : RetryConfig) (w : World)
    (r : Response) (rest : list (Res Response)) :
  (0 < max_attempts config)%Z ->
  budget_exhausted w = false ->
  network w = Ok r :: rest ->
  (500 <= status_code r)%Z ->
  (exists message w',
     retry_with_backoff Orders._do config w = (Raise (HTTPStatusError message r), w')
     /\ network w' = rest
     /\ RETRY_ATTEMPTS (metrics w') = RETRY_ATTEMPTS (metrics w)
     /\ DOWNSTREAM_ERRORS_TOTAL (metrics w') = S (DOWNSTREAM_ERRORS_TOTAL (metrics w)))
  /\ (exists message w',
        retry_with_backoff Gateway._do_request config w
        = (Raise (HTTPStatusError message r), w')
        /\ network w' = rest
        /\ RETRY_ATTEMPTS (metrics w') = RETRY_ATTEMPTS (metrics w)).
Proof.
  intros Hmax Hex Hn Hs. unfold retry_with_backoff.
  destruct (Z.to_nat (max_attempts config)) as [|todo] eqn:Htodo; [lia|].
  assert (Hge : (status_code r >=? 500)%Z = true) by (apply Z.geb_le; lia).
  split.
  - assert (Hdo : exists w1, Orders._do w
        = (Raise (HTTPStatusError ("Server error " +:+ pretty (status_code r)) r), w1)
        /\ network w1 = rest
        /\ RETRY_ATTEMPTS (metrics w1) = RETRY_ATTEMPTS (metrics w)
        /\ DOWNSTREAM_ERRORS_TOTAL (metrics w1) = S (DOWNSTREAM_ERRORS_TOTAL (metrics w))).
    { unfold Orders._do, bind, counter_inc, modify, client_request, raise_for_status, raise.
      cbn. rewrite Hn, Hge. eexists. split; [reflexivity|]. cbn. auto. }
    destruct Hdo as (w1 & Hdo & Hfacts).
    rewrite attempts_from_step by assumption.
    rewrite (try_attempt_raise _ _ _ _ _ _ _ Hdo) by (left; reflexivity).
    eauto 10.
  - assert (Hdo : exists w1, Gateway._do_request w
        = (Raise (HTTPStatusError ("Server error " +:+ pretty (status_code r)) r), w1)
        /\ network w1 = rest
        /\ RETRY_ATTEMPTS (metrics w1) = RETRY_ATTEMPTS (metrics w)).
    { unfold Gateway._do_request, bind, client_request, raise_for_status, raise.
      rewrite Hn, Hge. eexists. split; [reflexivity|]. cbn. auto. }
    destruct Hdo as (w1 & Hdo & Hfacts).
    rewrite attempts_from_step by assumption.
    rewrite (try_attempt_raise _ _ _ _ _ _ _ Hdo) by (left; reflexivity).
    eauto 10.
Qed.

Lemma server_errors_are_not_retried_witness :
  let w := at_rest 0 None [Ok (response 503); Ok (response 200)] in
  exists message w',
    retry_with_backoff Orders._do RetryConfig_default w
    = (Raise (HTTPStatusError message (response 503)), w')
    /\ network w' = [Ok (response 200)]
    /\ RETRY_ATTEMPTS (metrics w') = RETRY_ATTEMPTS (metrics w).
Proof.
  intros w.
  destruct (server_errors_are_not_retried RetryConfig_default w (response 503)
              [Ok (response 200)]) as [(message & w' & Hrun & Hn & Hr & _) _].
  - reflexivity.
  - reflexivity.
  - reflexivity.
  - cbn. lia.
  - exists message, w'. auto.
Defined.

End RetryMore.

Module BackoffFacts.
Import Retry RetrySpec RetryMoreSpec.

Lemma py_min_bounds (a b : Q) :
  (0 <= a -> 0 <= b -> 0 <= py_min a b /\ py_min a b <= a /\ py_min a b <= b)%Q.
Proof.
  intros Ha Hb. unfold py_min. destruct (Qlt_le_dec b a); repeat split; lra.
Qed.

Lemma jitter_bounds (c r : Q) :
  (0 <= c -> 0 <= r -> r <= 1 -> 0 <= 0 + (c - 0) * r /\ 0 + (c - 0) * r <= c)%Q.
Proof.
  intros Hc Hr0 Hr1. split.
  - assert (H : (0 <= c * r)%Q) by (apply Qmult_le_0_compat; assumption). lra.
  - assert (H : (c * r <= c * 1)%Q).
    { rewrite !(Qmult_comm c). apply Qmult_le_compat_r; assumption. }
    lra.
Qed.

(** X6. The delay before a retry is never negative and never above
    [min(base_delay * multiplier ** attempt, max_delay)], hence never above
    [max_delay]: it is that cap without jitter, and the cap scaled by the
    draw with jitter.  The parameters are not negative and the draw lies in
    [0, 1]. *)
Theorem backoff_delay_within_cap (config : RetryConfig) (attempt : Z) (w : World) :
  (0 <= base_delay config)%Q -> (0 <= multiplier config)%Q ->
  (0 <= max_delay config)%Q ->
  (forall r rest, random_future w = r :: rest -> (0 <= r /\ r <= 1)%Q) ->
  exists delay w',
    _backoff_delay attempt config w = (Ok delay, w')
    /\ (0 <= delay)%Q
    /\ (delay <= capped_delay config attempt)%Q
    /\ (capped_delay config attempt <= max_delay config)%Q
    /\ (jitter config = false -> delay = capped_delay config attempt /\ w' = w).
Proof.
  intros Hb Hm Hd Hr.
  assert (Hpow : (0 <= base_delay config * multiplier config ^ attempt)%Q).
  { apply Qmult_le_0_compat; [assumption|]. now apply Qpower_0_le. }
  destruct (py_min_bounds _ _ Hpow Hd) as (Hc0 & _ & Hcmax).
  fold (capped_delay config attempt) in Hc0, Hcmax.
  unfold _backoff_delay. fold (capped_delay config attempt).
  destruct (jitter config).
  - unfold bind, random_random, ret.
    destruct (random_future w) as [|r rest] eqn:Hf.
    + eexists _, _. split; [reflexivity|].
      destruct (jitter_bounds (capped_delay config attempt) 0) as [H0 H1];
        try assumption; try lra;
        repeat split; try assumption; discriminate.
    + destruct (Hr r rest eq_refl) as [Hr0 Hr1].
      eexists _, _. split; [reflexivity|].
      destruct (jitter_bounds (capped_delay config attempt) r) as [H0 H1];
        try assumption;
        repeat split; try assumption; discriminate.
  - unfold ret. eexists _, _. split; [reflexivity|].
    repeat split; try assumption; lra.
Qed.

Lemma backoff_delay_within_cap_witness :
  let w := set_random_future [0.5%Q] (at_rest 0 None []) in
  exists delay w',
    _backoff_delay 9 Gateway._retry_config w = (Ok delay, w')
    /\ (0 <= delay)%Q /\ (delay <= 5)%Q.
Proof.
  intros w.
  destruct (backoff_delay_within_cap Gateway._retry_config 9 w)
    as (delay & w' & Hrun & H0 & Hcap & Hmax & _).
  - cbn. lra.
  - cbn. lra.
  - cbn. lra.
  - intros r rest [= <- <-]. lra.
  - exists delay, w'. split; [exact Hrun|]. split; [exact H0|].
    eapply Qle_trans; [exact Hcap|exact Hmax].
Defined.

End BackoffFacts.

(** ** More on the circuit breaker *)

Module BreakerMore.
Import CircuitBreaker BreakerSpec BreakerFacts BreakerTrip BreakerMoreSpec.

Lemma _get_state_half_open self w :
  _state (breaker w) = HALF_OPEN -> _get_state self w = (Ok HALF_OPEN, w).
Proof.
  intros Hs. unfold _get_state, bind, gets, ret. rewrite Hs. cbn. now rewrite Hs.
Qed.

Lemma _on_success_ok self w : exists w', _on_success self w = (Ok tt, w').
Proof.
  unfold _on_success. unfold bind at 1, gets at 1.
  destruct (_state (breaker w)); run_coro; eauto.
  destruct (_ >=? _)%Z; eauto.
Qed.

Lemma _on_failure_ok self w : exists w', _on_failure self w = (Ok tt, w').
Proof.
  unfold _on_failure.
  destruct (time_monotonic_reads w) as (now & w1 & Ht & _).
  unfold bind at 1. rewrite Ht. unfold bind at 1, gets at 1.
  destruct (_state (breaker w1)); run_coro; eauto;
    match goal with |- context [time_monotonic ?x] =>
      destruct (time_monotonic_reads x) as (now' & w2 & Ht2 & _); rewrite Ht2
    end; destruct (_ >=? _)%Z; eauto.
Qed.

(** X7. In the half-open state one failing call re-opens the breaker: the
    exception of the operation reaches the caller unchanged, the state is
    open, [_opened_at] is the reading taken for this failure, the trip is
    counted, and the failure window is left as it was. *)
Theorem half_open_failure_reopens {A} (self : CircuitBreaker) (func : M A)
    (fallback : option (M A)) (w w1 : World) (exc : exn) (now : Q) (rest : list Q) :
  _state (breaker w) = HALF_OPEN ->
  func (probing w) = (Raise exc, w1) ->
  breaker w1 = breaker w ->
  mono_future (clock w1) = now :: rest ->
  exists w',
    call self func fallback w = (Raise exc, w')
    /\ _state (breaker w') = OPEN
    /\ _opened_at (breaker w') = Some now
    /\ _failures (breaker w') = _failures (breaker w)
    /\ BREAKER_STATE (metrics w') = 1%Z
    /\ BREAKER_OPEN_TOTAL (metrics w') = S (BREAKER_OPEN_TOTAL (metrics w1)).
Proof.
  intros Hs Hf Hb Hclock.
  assert (Hs1 : _state (breaker w1) = HALF_OPEN) by (rewrite Hb; exact Hs).
  destruct (_on_failure_half_open self w1 now rest Hs1 Hclock)
    as (w' & Hrun & Hfacts).
  exists w'. unfold call, bind at 1. rewrite (_get_state_half_open self w Hs).
  unfold bind at 1, gauge_set, modify. fold (probing w).
  unfold try_except, bind at 1. rewrite Hf. cbn match.
  unfold bind. rewrite Hrun. rewrite <- Hb.
  split; [reflexivity|]. tauto.
Qed.

Lemma half_open_failure_reopens_witness :
  let w := with_clock [70%Q] (half_open_at 5 [1; 2; 3; 4; 5]%Q) in
  let failing : M value := raise ConnectError in
  exists w',
    call payments failing None w = (Raise ConnectError, w')
    /\ _state (breaker w') = OPEN
    /\ _opened_at (breaker w') = Some 70%Q.
Proof.
  intros w failing.
  destruct (half_open_failure_reopens payments failing None w (probing w)
              ConnectError 70 []) as (w' & Hrun & Hs & Ho & _);
    try reflexivity.
  exists w'. auto.
Defined.

(** X8. Once [open_duration] has gone by since the trip, the next call finds the
    breaker half-open and is let through as a probe: the half-open success
    count starts at 0, the failure window is kept, the gauge reads 2, and the
    outcome of the call is the outcome of the operation, fallback or not. *)
Theorem open_duration_elapsed_lets_probe_through {A} (self : CircuitBreaker)
    (func : M A) (fallback : option (M A)) (w : World) (opened now : Q)
    (rest : list Q) :
  _state (breaker w) = OPEN ->
  _opened_at (breaker w) = Some opened ->
  ~ (opened == 0)%Q ->
  mono_future (clock w) = now :: rest ->
  (open_duration self <= now - opened)%Q ->
  exists w1,
    _get_state self w = (Ok HALF_OPEN, w1)
    /\ _successes_in_half_open (breaker w1) = 0%Z
    /\ _failures (breaker w1) = _failures (breaker w)
    /\ _opened_at (breaker w1) = Some opened
    /\ fst (call self func fallback w) = fst (func (probing w1)).
Proof.
  intros Hs Ho Hne Hclock Hge.
  assert (Hget : exists w1, _get_state self w = (Ok HALF_OPEN, w1)
            /\ _successes_in_half_open (breaker w1) = 0%Z
            /\ _failures (breaker w1) = _failures (breaker w)
            /\ _opened_at (breaker w1) = Some opened).
  { unfold _get_state. unfold bind at 1, gets at 1. rewrite Hs, Ho.
    assert (Ht : truthy (Some opened) = true).
    { cbn. apply negb_true_iff. destruct (Qeq_bool opened 0) eqn:E; [|reflexivity].
      apply Qeq_bool_iff in E. contradiction. }
    rewrite Ht. unfold bind. rewrite (time_monotonic_next _ _ _ Hclock).
    unfold at_least.
    destruct (Qlt_le_dec (now - opened) (open_duration self)) as [Hlt|_];
      [exfalso; apply (Qlt_not_le _ _ Hlt Hge)|].
    run_coro. cbn. eexists. split; [reflexivity|]. cbn. rewrite Ho. auto. }
  destruct Hget as (w1 & Hget & Hfacts). exists w1.
  split; [exact Hget|]. repeat (split; [tauto|]).
  unfold call, bind at 1. rewrite Hget.
  unfold bind at 1, gauge_set, modify. fold (probing w1).
  unfold try_except, bind at 1.
  destruct (func (probing w1)) as [[v|e] w2]; cbn [fst].
  - unfold bind. destruct (_on_success_ok self w2) as (w3 & ->). reflexivity.
  - cbn match. unfold bind. destruct (_on_failure_ok self w2) as (w3 & ->).
    reflexivity.
Qed.

Lemma open_duration_elapsed_lets_probe_through_witness :
  let w := with_clock [40%Q]
             (set_breaker (mkBreaker OPEN [1; 2; 3; 4; 5]%Q 0 (Some 5%Q))
                (RetrySpec.at_rest 0 None [Ok (RetrySpec.response 200)])) in
  exists w1,
    _get_state payments w = (Ok HALF_OPEN, w1)
    /\ fst (call payments RetrySpec.send None w)
       = fst (RetrySpec.send (probing w1)).
Proof.
  intros w.
  destruct (open_duration_elapsed_lets_probe_through payments RetrySpec.send None
              w 5 40 []) as (w1 & Hget & _ & _ & _ & Hcall).
  - reflexivity.
  - reflexivity.
  - intros H. vm_compute in H. discriminate H.
  - reflexivity.
  - vm_compute. discriminate.
  - exists w1. auto.
Defined.

(** X9. A breaker whose [_opened_at] is falsy while it is open (it tripped at the
    monotonic reading 0.0, or the field is [None]) never leaves the open
    state: [_get_state] does not even read the clock and answers OPEN. *)
Theorem open_with_falsy_opened_at_stays_open (self : CircuitBreaker) (w : World) :
  _state (breaker w) = OPEN ->
  truthy (_opened_at (breaker w)) = false ->
  _get_state self w = (Ok OPEN, w).
Proof.
  intros Hs Ht. unfold _get_state, bind, gets, ret. rewrite Hs.
  destruct (_opened_at (breaker w)) as [opened|]; [rewrite Ht|];
    cbn; now rewrite Hs.
Qed.

Lemma open_with_falsy_opened_at_stays_open_witness :
  let w := with_clock [1000000%Q]
             (set_breaker (mkBreaker OPEN [] 0 (Some 0%Q))
                (RetrySpec.at_rest 0 None [])) in
  _get_state payments w = (Ok OPEN, w).
Proof.
  intros w.
  exact (open_with_falsy_opened_at_stays_open payments w eq_refl eq_refl).
Defined.

Lemma _on_success_half_open self w :
  _state (breaker w) = HALF_OPEN ->
  let n := (_successes_in_half_open (breaker w) + 1)%Z in
  exists w',
    _on_success self w = (Ok tt, w')
    /\ _opened_at (breaker w') = _opened_at (breaker w)
    /\ _successes_in_half_open (breaker w') = n
    /\ if (n >=? success_threshold self)%Z
       then _state (breaker w') = CLOSED /\ _failures (breaker w') = []
            /\ BREAKER_STATE (metrics w') = 0%Z
       else _state (breaker w') = HALF_OPEN
            /\ _failures (breaker w') = _failures (breaker w)
            /\ metrics w' = metrics w.
Proof.
  intros Hs n. unfold _on_success. unfold bind at 1, gets at 1. rewrite Hs.
  run_coro. fold n. destruct (n >=? success_threshold self)%Z;
    cbn; eexists; (split; [reflexivity|]); cbn; auto.
Qed.

Lemma successes_S self n w :
  successes self (S n) w = snd (_on_success self (successes self n w)).
Proof. reflexivity. Qed.

Lemma successes_below_threshold self w j :
  _state (breaker w) = HALF_OPEN ->
  _successes_in_half_open (breaker w) = 0%Z ->
  (Z.of_nat j < success_threshold self)%Z ->
  _state (breaker (successes self j w)) = HALF_OPEN
  /\ _successes_in_half_open (breaker (successes self j w)) = Z.of_nat j
  /\ _failures (breaker (successes self j w)) = _failures (breaker w)
  /\ _opened_at (breaker (successes self j w)) = _opened_at (breaker w).
Proof.
  intros Hs H0. induction j as [|j IH]; intros Hlt; [cbn; auto|].
  destruct IH as (Hs' & Hn' & Hf' & Ho'); [lia|].
  rewrite successes_S.
  destruct (_on_success_half_open self (successes self j w) Hs')
    as (w' & -> & Ho & Hn & Hif).
  cbn [snd]. rewrite Hn' in Hn, Hif.
  assert (Hlow : (Z.of_nat j + 1 >=? success_threshold self)%Z = false)
    by (rewrite Z.geb_leb; apply Z.leb_gt; lia).
  rewrite Hlow in Hif. destruct Hif as (Hs2 & Hf2 & _).
  repeat split; try congruence. rewrite Hn. lia.
Qed.

(** X10. From the half-open state with no success counted yet, fewer than
    [success_threshold] successes in a row leave the breaker half-open with
    its failure window untouched; the success that reaches the threshold
    closes it, clears the window and sets the gauge to 0.  [_opened_at]
    keeps the time of the last trip throughout. *)
Theorem half_open_closes_at_success_threshold (self : CircuitBreaker) (w : World) :
  _state (breaker w) = HALF_OPEN ->
  _successes_in_half_open (breaker w) = 0%Z ->
  (0 < success_threshold self)%Z ->
  let k := Z.to_nat (success_threshold self) in
  (forall j, (j < k)%nat ->
     _state (breaker (successes self j w)) = HALF_OPEN
     /\ _failures (breaker (successes self j w)) = _failures (breaker w))
  /\ _state (breaker (successes self k w)) = CLOSED
  /\ _failures (breaker (successes self k w)) = []
  /\ BREAKER_STATE (metrics (successes self k w)) = 0%Z
  /\ _opened_at (breaker (successes self k w)) = _opened_at (breaker w).
Proof.
  intros Hs H0 Hpos k. split.
  - intros j Hj.
    destruct (successes_below_threshold self w j Hs H0) as (H1 & _ & H2 & _);
      [lia|auto].
  - destruct k as [|k'] eqn:Hk; [lia|].
    destruct (successes_below_threshold self w k' Hs H0) as (Hs' & Hn' & _ & Ho');
      [lia|].
    rewrite successes_S.
    destruct (_on_success_half_open self (successes self k' w) Hs')
      as (w' & -> & Ho & Hn & Hif).
    cbn [snd]. rewrite Hn' in Hif.
    assert (Hreach : (Z.of_nat k' + 1 >=? success_threshold self)%Z = true)
      by (apply Z.geb_le; lia).
    rewrite Hreach in Hif. destruct Hif as (Hc & Hf & Hg).
    repeat split; congruence.
Qed.

Lemma half_open_closes_at_success_threshold_witness :
  let w := half_open_at 5 [1; 2; 3; 4; 5]%Q in
  _state (breaker (successes payments 1 w)) = HALF_OPEN
  /\ _state (breaker (successes payments 2 w)) = CLOSED
  /\ _failures (breaker (successes payments 2 w)) = [].
Proof.
  intros w.
  destruct (half_open_closes_at_success_threshold payments w eq_refl eq_refl eq_refl)
    as (Hbelow & Hclosed & Hfail & _).
  split; [apply (Hbelow 1%nat); cbn; lia|]. split; [exact Hclosed|exact Hfail].
Defined.

(** X11. In the closed state a failure is recorded, the window is pruned, and the
    breaker trips exactly when the failures kept number at least
    [failure_threshold]; below that it stays closed and [_opened_at] is not
    touched. *)
Theorem closed_breaker_trips_exactly_at_threshold (self : CircuitBreaker)
    (w : World) (now now' : Q) (rest : list Q) :
  _state (breaker w) = CLOSED ->
  mono_future (clock w) = now :: now' :: rest ->
  let kept := in_window self now' (_failures (breaker w) ++ [now]) in
  exists w',
    _on_failure self w = (Ok tt, w')
    /\ _failures (breaker w') = kept
    /\ (_state (breaker w') = OPEN
        <-> (failure_threshold self <= Z.of_nat (length kept))%Z)
    /\ (_state (breaker w') = CLOSED
        <-> (Z.of_nat (length kept) < failure_threshold self)%Z)
    /\ ((Z.of_nat (length kept) < failure_threshold self)%Z ->
        _opened_at (breaker w') = _opened_at (breaker w)).
Proof.
  intros Hs Hclock kept.
  destruct (_on_failure_records self w now now' rest) as (w' & Hrun & Hkept & Hif);
    [rewrite Hs; discriminate|assumption|].
  fold kept in Hkept, Hif. exists w'.
  split; [exact Hrun|]. split; [exact Hkept|].
  destruct (Z.of_nat (length kept) >=? failure_threshold self)%Z eqn:Hge.
  - apply Z.geb_le in Hge. destruct Hif as (Ho & _).
    rewrite Ho. repeat split; intros; try lia; try discriminate.
  - rewrite Z.geb_leb in Hge. apply Z.leb_gt in Hge. destruct Hif as (Hsame & Hat).
    rewrite Hsame, Hs. repeat split; intros; try lia; try discriminate; auto.
Qed.

Lemma closed_breaker_trips_exactly_at_threshold_witness :
  let w := with_clock [100; 100]%Q
             (set_breaker (mkBreaker CLOSED [1; 2; 3; 99]%Q 0 None)
                (RetrySpec.at_rest 0 None [])) in
  exists w',
    _on_failure payments w = (Ok tt, w')
    /\ _failures (breaker w') = [99; 100]%Q
    /\ _state (breaker w') = CLOSED.
Proof.
  intros w.
  destruct (closed_breaker_trips_exactly_at_threshold payments w 100 100 []
              eq_refl eq_refl) as (w' & Hrun & Hkept & _ & Hclosed & _).
  exists w'. split; [exact Hrun|]. split; [exact Hkept|].
  apply Hclosed. vm_compute. reflexivity.
Defined.

Lemma _on_success_gauge self w :
  gauge_matches w -> gauge_matches (snd (_on_success self w)).
Proof.
  unfold gauge_matches. intros Hg.
  destruct (_state (breaker w)) eqn:Hs.
  1, 2: unfold _on_success, bind, gets; rewrite Hs; cbn; now rewrite Hs.
  destruct (_on_success_half_open self w Hs) as (w' & -> & _ & _ & Hif).
  cbn [snd]. destruct (_ >=? _)%Z.
  - destruct Hif as (-> & _ & ->). reflexivity.
  - destruct Hif as (-> & _ & ->). now rewrite Hg.
Qed.

Lemma _on_failure_outcome self w :
  exists w',
    _on_failure self w = (Ok tt, w')
    /\ ((_state (breaker w') = _state (breaker w)
         /\ BREAKER_STATE (metrics w') = BREAKER_STATE (metrics w))
        \/ (_state (breaker w') = OPEN /\ BREAKER_STATE (metrics w') = 1%Z)).
Proof.
  unfold _on_failure.
  destruct (time_monotonic_reads w) as (now & w1 & Ht & Hb & _ & Hm).
  unfold bind at 1. rewrite Ht. unfold bind at 1, gets at 1. rewrite Hb.
  destruct (_state (breaker w)) eqn:Hs; run_coro;
    try match goal with |- context [time_monotonic ?x] =>
      destruct (time_monotonic_reads x) as (now' & w2 & Ht2 & Hb2 & _ & Hm2);
      rewrite Ht2; cbn in Hb2, Hm2; rewrite ?Hb2
    end;
    try match goal with |- context [(?a >=? ?b)%Z] => destruct (a >=? b)%Z end;
    cbn; eexists; (split; [reflexivity|]); cbn;
    rewrite ?Hb2, ?Hm2; cbn; rewrite ?Hb, ?Hm, ?Hs; auto.
Qed.

Lemma _on_failure_gauge self w :
  gauge_matches w -> gauge_matches (snd (_on_failure self w)).
Proof.
  unfold gauge_matches. intros Hg.
  destruct (_on_failure_outcome self w) as (w' & Hrun & Hcases).
  rewrite Hrun. cbn [snd].
  destruct Hcases as [[Hs Hm]|[Hs Hm]]; rewrite Hs, Hm; auto.
Qed.

Lemma _get_state_gauge self w :
  exists s w1,
    _get_state self w = (Ok s, w1)
    /\ _state (breaker w1) = s
    /\ metrics w1 = metrics w
    /\ (s = CLOSED -> _state (breaker w) = CLOSED).
Proof.
  unfold _get_state. unfold bind at 1, gets at 1.
  destruct (_state (breaker w)) eqn:Hs.
  - destruct (time_monotonic_reads w) as (t & w' & Ht & Hb & _ & Hm).
    run_coro. rewrite Ht. cbn. rewrite Hb, Hs. eauto 10.
  - destruct (_opened_at (breaker w)) as [opened|].
    + destruct (truthy (Some opened)).
      * destruct (time_monotonic_reads w) as (t & w' & Ht & Hb & _ & Hm).
        run_coro. rewrite Ht.
        destruct (at_least (t - opened) (open_duration self)); cbn;
          rewrite ?Hb, ?Hs; eexists _, _; (split; [reflexivity|]); cbn;
          rewrite ?Hb, ?Hs; repeat split; auto; discriminate.
      * run_coro. cbn. rewrite Hs.
        eexists _, _; (split; [reflexivity|]); repeat split; auto; discriminate.
    + run_coro. cbn. rewrite Hs.
      eexists _, _; (split; [reflexivity|]); repeat split; auto; discriminate.
  - run_coro. cbn. rewrite Hs.
    eexists _, _; (split; [reflexivity|]); repeat split; auto; discriminate.
Qed.

(** X12. The state gauge follows the state across a call: when the gauge shows
    the state before a call, and the operation and the fallback leave the
    breaker and its gauge alone, the gauge shows the state after the call,
    whichever way the call ends (closed 0, open 1, half-open 2). *)
Theorem gauge_shows_state_after_call {A} (self : CircuitBreaker) (func : M A)
    (fallback : option (M A)) (w : World) :
  keeps_breaker func ->
  (forall fb, fallback = Some fb -> keeps_breaker fb) ->
  gauge_matches w ->
  gauge_matches (snd (call self func fallback w)).
Proof.
  intros Hf Hfb Hg.
  destruct (_get_state_gauge self w) as (s & w1 & Hget & Hs1 & Hm1 & Hclosed).
  unfold call, bind at 1. rewrite Hget.
  assert (Hguarded : forall w2, gauge_matches w2 ->
    gauge_matches (snd (try_except
        (result <- func ;; _on_success self ;; ret result)
        (fun _ => true)
        (fun exc => _on_failure self ;; raise exc) w2))).
  { intros w2 Hg2. unfold try_except, bind at 1.
    assert (Hg3 : gauge_matches (snd (func w2))).
    { unfold gauge_matches in *. destruct (Hf w2) as [-> ->]. exact Hg2. }
    destruct (func w2) as [[v|e] w3]; cbn [snd] in Hg3.
    - unfold bind. pose proof (_on_success_gauge self w3 Hg3) as H.
      destruct (_on_success_ok self w3) as (w4 & Hrun). rewrite Hrun in *. exact H.
    - cbn match. unfold bind. pose proof (_on_failure_gauge self w3 Hg3) as H.
      destruct (_on_failure_ok self w3) as (w4 & Hrun). rewrite Hrun in *. exact H. }
  destruct s.
  - unfold bind at 1, ret at 1. apply Hguarded.
    unfold gauge_matches in *. rewrite Hm1, Hs1, Hg, (Hclosed eq_refl). reflexivity.
  - unfold bind, logger, gauge_set, modify. cbn.
    destruct fallback as [fb|].
    + match goal with |- gauge_matches (snd (fb ?x)) =>
        destruct (Hfb fb eq_refl x) as [Hb Hm] end.
      unfold gauge_matches. rewrite Hb, Hm. cbn. now rewrite Hs1.
    + unfold gauge_matches. cbn. now rewrite Hs1.
  - unfold bind at 1, gauge_set at 1, modify at 1. apply Hguarded.
    unfold gauge_matches. cbn. now rewrite Hs1.
Qed.

Lemma gauge_shows_state_after_call_witness :
  let w := with_clock [5; 5; 5]%Q
             (set_breaker (mkBreaker CLOSED [1; 2; 3; 4]%Q 0 None)
                (RetrySpec.at_rest 0 None [Raise ConnectError])) in
  gauge_matches w
  /\ _state (breaker (snd (call payments RetrySpec.send None w))) = OPEN
  /\ BREAKER_STATE (metrics (snd (call payments RetrySpec.send None w))) = 1%Z.
Proof.
  intros w.
  assert (Hg : gauge_matches w) by reflexivity.
  assert (Hk : keeps_breaker RetrySpec.send).
  { intros w0. unfold RetrySpec.send, bind, client_request.
    now destruct (network w0) as [|[r|e] rest]. }
  pose proof (gauge_shows_state_after_call payments RetrySpec.send None w Hk
                (fun fb H => match H with end) Hg) as Hafter.
  split; [exact Hg|].
  assert (Hs : _state (breaker (snd (call payments RetrySpec.send None w))) = OPEN)
    by (vm_compute; reflexivity).
  split; [exact Hs|].
  unfold gauge_matches in Hafter. rewrite Hafter, Hs. reflexivity.
Defined.

End BreakerMore.

(** ** How the log grows *)

Module LogGrowthFacts.
Import Counting LogGrowth.

Section Growth.

Variable p : Event -> bool.

Lemma occurrences_log w w' : log w' = log w -> occurrences p w' = occurrences p w.
Proof. unfold occurrences. now intros ->. Qed.

Lemma occurrences_app w w' es :
  log w' = log w ++ es ->
  occurrences p w' = (occurrences p w + length (List.filter p es))%nat.
Proof.
  intros H. unfold occurrences. now rewrite H, List.filter_app, length_app.
Qed.

Lemma adds_weaken {A} (m : M A) n k : (n <= k)%nat -> adds p n m -> adds p k m.
Proof. intros Hle H w. specialize (H w). lia. Qed.

Lemma adds_ret {A} (a : A) : adds p 0 (ret a).
Proof. intros w. cbn. lia. Qed.

Lemma adds_raise {A} e : adds p 0 (@raise A e).
Proof. intros w. cbn. lia. Qed.

Lemma adds_gets {A} (f : World -> A) : adds p 0 (gets f).
Proof. intros w. cbn. lia. Qed.

Lemma adds_modify f : (forall w, log (f w) = log w) -> adds p 0 (modify f).
Proof. intros H w. unfold modify. cbn [snd]. rewrite (occurrences_log w (f w) (H w)). lia. Qed.

Lemma adds_logger e : p e = false -> adds p 0 (logger e).
Proof.
  intros He w. unfold logger, modify. cbn [snd].
  rewrite (occurrences_app w (set_log (log w ++ [e]) w) [e] eq_refl).
  cbn. rewrite He. cbn. lia.
Qed.

Lemma adds_bind {A B} (m : M A) (k : A -> M B) n1 n2 :
  adds p n1 m -> (forall a, adds p n2 (k a)) -> adds p (n1 + n2) (bind m k).
Proof.
  intros Hm Hk w. unfold bind. specialize (Hm w).
  destruct (m w) as [[a|e] w1]; cbn [snd] in *; [|lia].
  specialize (Hk a w1). lia.
Qed.

Lemma adds_bind0 {A B} (m : M A) (k : A -> M B) n :
  adds p 0 m -> (forall a, adds p n (k a)) -> adds p n (bind m k).
Proof. intros Hm Hk. apply (adds_bind m k 0 n Hm Hk). Qed.

Lemma adds_try_except {A} (body : M A) catches handler n :
  adds p n body -> (forall e, adds p 0 (handler e)) ->
  adds p n (try_except body catches handler).
Proof.
  intros Hb Hh w. unfold try_except. specialize (Hb w).
  destruct (body w) as [[a|e] w1]; cbn [snd] in *; [lia|].
  destruct (catches e); [|cbn; lia]. specialize (Hh e w1). lia.
Qed.

Lemma adds_try_finally {A} (body : M A) cleanup n :
  adds p n body -> adds p 0 cleanup -> adds p n (try_finally body cleanup).
Proof.
  intros Hb Hc w. unfold try_finally. specialize (Hb w).
  destruct (body w) as [r w1]. specialize (Hc w1).
  destruct (cleanup w1) as [[[]|e] w2]; cbn [snd] in *; lia.
Qed.

Lemma adds_time_monotonic : adds p 0 time_monotonic.
Proof.
  intros w. unfold time_monotonic.
  destruct (mono_future (clock w)); cbn [snd];
    [|rewrite (occurrences_log w) by reflexivity]; lia.
Qed.

Lemma adds_counter_inc read write : adds p 0 (counter_inc read write).
Proof. apply adds_modify. reflexivity. Qed.

Lemma adds_gauge_set g : adds p 0 (gauge_set g).
Proof. apply adds_modify. reflexivity. Qed.

End Growth.

Ltac grows :=
  repeat first
    [ progress intros
    | assumption
    | apply adds_bind0
    | apply adds_try_except
    | apply adds_try_finally
    | apply adds_ret
    | apply adds_raise
    | apply adds_gets
    | apply adds_time_monotonic
    | apply adds_counter_inc
    | apply adds_gauge_set
    | apply adds_modify; intros; reflexivity
    | apply adds_logger; reflexivity
    | apply adds_logger; assumption
    | match goal with
      | |- adds _ _ (match ?x with _ => _ end) => destruct x
      | |- adds _ _ (if ?b then _ else _) => destruct b
      end ].

(** The breaker adds to the log whatever the operation adds, and lines of
    its own that are no requests. *)
Lemma adds_breaker_call {A} p n self (func : M A) :
  p circuit_breaker_open = false -> p circuit_breaker_half_open = false ->
  p circuit_breaker_closed = false -> p circuit_breaker_tripped = false ->
  adds p n func -> adds p n (CircuitBreaker.call self func None).
Proof.
  intros H1 H2 H3 H4 Hf.
  assert (Hs : adds p 0 (CircuitBreaker._on_success self)).
  { unfold CircuitBreaker._on_success, CircuitBreaker.update. grows. }
  assert (Hfail : adds p 0 (CircuitBreaker._on_failure self)).
  { unfold CircuitBreaker._on_failure, CircuitBreaker._trip,
      CircuitBreaker._prune_window, CircuitBreaker.update.
    grows. }
  assert (Hg : adds p 0 (CircuitBreaker._get_state self)).
  { unfold CircuitBreaker._get_state, CircuitBreaker._prune_window,
      CircuitBreaker.update.
    grows; apply adds_logger; assumption. }
  unfold CircuitBreaker.call.
  apply adds_bind0; [exact Hg|]. intros [| |].
  - apply adds_bind0; [grows|]. intros _.
    apply adds_try_except; [|grows].
    replace n with (n + 0)%nat by lia. apply adds_bind; [exact Hf|]. grows.
  - apply (adds_weaken p _ 0 n); [lia|]. grows.
  - apply adds_bind0; [grows|]. intros _.
    apply adds_try_except; [|grows].
    replace n with (n + 0)%nat by lia. apply adds_bind; [exact Hf|]. grows.
Qed.

Lemma adds_bulkhead_call {A} p n self (func : M A) :
  p semaphore_acquire = false -> p semaphore_release = false ->
  p bulkhead_rejected = false ->
  adds p n func -> adds p n (Bulkhead.call self func).
Proof.
  intros H1 H2 H3 Hf. unfold Bulkhead.call.
  apply adds_bind0.
  - apply adds_try_except.
    + intros w. unfold Bulkhead.wait_for_acquire.
      destruct (Qle_bool _ _); [cbn; lia|].
      destruct (0 <? semaphore_value w)%Z; cbn [snd].
      * rewrite (occurrences_app p w _ [semaphore_acquire]) by reflexivity.
        cbn. rewrite H1. cbn. lia.
      * destruct (semaphore_waits w) as [|[|] rest]; cbn [snd]; try lia.
        -- rewrite (occurrences_app p w _ [semaphore_acquire]) by reflexivity.
           cbn. rewrite H1. cbn. lia.
        -- rewrite (occurrences_log p w) by reflexivity. lia.
    + intros e. grows.
  - intros _. apply adds_try_finally; [exact Hf|].
    intros w. unfold Bulkhead.release, modify. cbn [snd].
    rewrite (occurrences_app p w _ [semaphore_release]) by reflexivity.
    cbn. rewrite H2. cbn. lia.
Qed.

End LogGrowthFacts.

(** ** How many requests one call can send *)

Module CallBounds.
Import Retry RetrySpec RetryFacts Counting RetryBounds LogGrowth LogGrowthFacts.

Lemma try_attempt_adds func config attempt last_exc n :
  adds is_request n func ->
  adds is_request n (try_attempt func config attempt last_exc).
Proof.
  intros Hf w. pose proof (try_attempt_shape func config attempt last_exc w) as H.
  specialize (Hf w).
  destruct (try_attempt func config attempt last_exc w) as [[[v|l]|e] w2];
    cbn [snd].
  - now rewrite H in Hf.
  - destruct H as (_ & _ & ev & delay & Hev & Hl & _).
    rewrite (occurrences_app is_request _ _ _ Hl). cbn. rewrite Hev. cbn. lia.
  - now rewrite H in Hf.
Qed.

Lemma attempts_from_adds func config n todo :
  adds is_request n func ->
  forall attempt last_exc,
    adds is_request (todo * n) (attempts_from func config todo attempt last_exc).
Proof.
  intros Hf. induction todo as [|todo IH]; intros attempt last_exc w.
  - cbn. lia.
  - destruct (budget_exhausted w) eqn:Hb.
    + rewrite attempts_from_exhausted by assumption. cbn [snd].
      rewrite (occurrences_app is_request w
                 (set_log (log w ++ [retry_budget_exhausted]) w)
                 [retry_budget_exhausted] eq_refl).
      cbn. lia.
    + rewrite attempts_from_step by assumption.
      pose proof (try_attempt_adds func config attempt last_exc n Hf w) as Hstep.
      destruct (try_attempt func config attempt last_exc w) as [[[v|l]|e] w2];
        cbn [snd] in *; try lia.
      specialize (IH (attempt + 1)%Z l w2). lia.
Qed.

Lemma retry_with_backoff_adds func config n :
  adds is_request n func ->
  adds is_request (Z.to_nat (max_attempts config) * n) (retry_with_backoff func config).
Proof. intros Hf. now apply attempts_from_adds. Qed.

Lemma client_request_adds : adds is_request 1 client_request.
Proof.
  intros w. unfold client_request.
  destruct (network w) as [|[r|e] rest]; cbn [snd];
    rewrite (occurrences_app is_request w _ [http_request]) by reflexivity;
    cbn; lia.
Qed.

Lemma _do_request_adds : adds is_request 1 Gateway._do_request.
Proof.
  unfold Gateway._do_request, raise_for_status.
  apply (adds_bind is_request _ _ 1 0); [exact client_request_adds|]. grows.
Qed.

Lemma _do_adds : adds is_request 1 Orders._do.
Proof.
  unfold Orders._do, raise_for_status.
  apply adds_bind0; [grows|]. intros _.
  apply (adds_bind is_request _ _ 1 0); [exact client_request_adds|]. grows.
Qed.

(** X13. One call of [_forward] sends at most three requests to the downstream,
    whatever the breaker, the bulkhead and the downstream do. *)
Theorem forward_sends_at_most_three_requests breaker bulkhead (w : World) :
  (requests (snd (Gateway._forward breaker bulkhead w)) <= requests w + 3)%nat.
Proof.
  unfold Gateway._forward.
  apply (retry_with_backoff_adds _ Gateway._retry_config 1).
  apply adds_bulkhead_call; try reflexivity.
  apply adds_breaker_call; try reflexivity.
  exact _do_request_adds.
Qed.

(** X14. One call of [_call_payments] sends at most three requests to the
    payments service. *)
Theorem call_payments_sends_at_most_three_requests (w : World) :
  (requests (snd (Orders._call_payments w)) <= requests w + 3)%nat.
Proof.
  assert (H : adds is_request 3 Orders._call_payments).
  { unfold Orders._call_payments, Orders.json.
    apply adds_bind0; [grows|]. intros _.
    apply (adds_bind is_request _ _ 3 0); [|grows].
    apply adds_bulkhead_call; try reflexivity.
    apply adds_breaker_call; try reflexivity.
    apply (retry_with_backoff_adds Orders._do
             (mkRetryConfig 3 0.2 5 2 true DEFAULT_RETRYABLE_STATUS) 1).
    exact _do_adds. }
  exact (H w).
Qed.

End CallBounds.

(** ** What the proxy routes of the gateway answer *)

Module GatewayFacts.
Import GatewaySpec.

Lemma silent_ret {A} (a : A) : silent (ret a).
Proof. intros w. split; [now exists a|reflexivity]. Qed.

Lemma silent_gets {A} (f : World -> A) : silent (gets f).
Proof. intros w. split; [now eexists|reflexivity]. Qed.

Lemma silent_modify f : (forall w, network (f w) = network w) -> silent (modify f).
Proof. intros H w. split; [now exists tt|apply H]. Qed.

Lemma silent_bind {A B} (m : M A) (k : A -> M B) :
  silent m -> (forall a, silent (k a)) -> silent (bind m k).
Proof.
  intros Hm Hk w. unfold bind. destruct (Hm w) as [[a Ha] Hn].
  destruct (m w) as [r w1]. cbn in Ha, Hn. subst r.
  destruct (Hk a w1) as [Hb Hn']. split; [exact Hb|congruence].
Qed.

Lemma silent_time_monotonic : silent time_monotonic.
Proof.
  intros w. unfold time_monotonic.
  destruct (mono_future (clock w)); (split; [now eexists|reflexivity]).
Qed.

Lemma silent_random_random : silent random_random.
Proof.
  intros w. unfold random_random.
  destruct (random_future w); (split; [now eexists|reflexivity]).
Qed.

Ltac hush :=
  repeat first
    [ progress intros
    | assumption
    | apply silent_bind
    | apply silent_ret
    | apply silent_gets
    | apply silent_time_monotonic
    | apply silent_random_random
    | apply silent_modify; intros; reflexivity
    | apply silent_modify; intros ?w; destruct (retry_budget w); reflexivity
    | match goal with
      | |- silent (match ?x with _ => _ end) => destruct x
      | |- silent (if ?b then _ else _) => destruct b
      end ].

Lemma silent__get_state self : silent (CircuitBreaker._get_state self).
Proof.
  unfold CircuitBreaker._get_state, CircuitBreaker._prune_window,
    CircuitBreaker.update, logger. hush.
Qed.

Lemma silent__on_success self : silent (CircuitBreaker._on_success self).
Proof.
  unfold CircuitBreaker._on_success, CircuitBreaker.update, logger, gauge_set. hush.
Qed.

Lemma silent__on_failure self : silent (CircuitBreaker._on_failure self).
Proof.
  unfold CircuitBreaker._on_failure, CircuitBreaker._trip,
    CircuitBreaker._prune_window, CircuitBreaker.update, logger, gauge_set,
    counter_inc. hush.
Qed.

Section Post.

Variable I : World -> Prop.
Hypothesis I_network : forall w w', network w' = network w -> I w -> I w'.

Lemma post_ret {A} (Q : Res A -> Prop) (a : A) : Q (Ok a) -> post I Q (ret a).
Proof. intros H w Hw. now split. Qed.

Lemma post_raise {A} (Q : Res A -> Prop) e : Q (Raise e) -> post I Q (raise e).
Proof. intros H w Hw. now split. Qed.

Lemma post_bind {A B} (Qm : Res A -> Prop) (Q : Res B -> Prop) (m : M A) (k : A -> M B) :
  post I Qm m ->
  (forall a, Qm (Ok a) -> post I Q (k a)) ->
  (forall e, Qm (Raise e) -> Q (Raise e)) ->
  post I Q (bind m k).
Proof.
  intros Hm Hk He w Hw. unfold bind. destruct (Hm w Hw) as [Hq Hi].
  destruct (m w) as [[a|e] w1]; cbn [fst snd] in *.
  - exact (Hk a Hq w1 Hi).
  - split; [now apply He|assumption].
Qed.

Lemma post_silent_bind {A B} (Q : Res B -> Prop) (m : M A) (k : A -> M B) :
  silent m -> (forall a, post I Q (k a)) -> post I Q (bind m k).
Proof using I_network.
  intros Hm Hk w Hw. unfold bind. destruct (Hm w) as [[a Ha] Hn].
  destruct (m w) as [r w1]. cbn in Ha, Hn. subst r.
  apply Hk. exact (I_network w w1 Hn Hw).
Qed.

Lemma post_try_except {A} (Qb Q : Res A -> Prop) (body : M A) catches handler :
  post I Qb body ->
  (forall a, Qb (Ok a) -> Q (Ok a)) ->
  (forall e, Qb (Raise e) -> catches e = false -> Q (Raise e)) ->
  (forall e, Qb (Raise e) -> catches e = true -> post I Q (handler e)) ->
  post I Q (try_except body catches handler).
Proof.
  intros Hb Hok Hpass Hcatch w Hw. unfold try_except.
  destruct (Hb w Hw) as [Hq Hi].
  destruct (body w) as [[a|e] w1]; cbn [fst snd] in *.
  - split; [now apply Hok|assumption].
  - destruct (catches e) eqn:Hc.
    + exact (Hcatch e Hq Hc w1 Hi).
    + split; [now apply Hpass|assumption].
Qed.

Lemma post_try_finally {A} (Q : Res A -> Prop) (body : M A) cleanup :
  post I Q body -> silent cleanup -> post I Q (try_finally body cleanup).
Proof using I_network.
  intros Hb Hc w Hw. unfold try_finally. destruct (Hb w Hw) as [Hq Hi].
  destruct (body w) as [r w1]. cbn [fst snd] in *.
  destruct (Hc w1) as [[[] Ha] Hn].
  destruct (cleanup w1) as [r' w2]. cbn in Ha, Hn. subst r'.
  split; [assumption|exact (I_network w1 w2 Hn Hi)].
Qed.

End Post.

Lemma honest_network w w' :
  network w' = network w -> client_raises_its_own w -> client_raises_its_own w'.
Proof. unfold client_raises_its_own. now intros ->. Qed.

Lemma post__do_request :
  post client_raises_its_own forward_outcome Gateway._do_request.
Proof.
  intros w Hw. unfold Gateway._do_request, bind, client_request, raise_for_status.
  unfold client_raises_its_own in *.
  destruct (network w) as [|[r|e] rest] eqn:Hn; cbn.
  - split; [exact I|]. unfold client_raises_its_own. cbn. now rewrite Hn.
  - apply Forall_cons in Hw as [_ Hrest].
    destruct (status_code r >=? 500)%Z eqn:Hs; cbn.
    + split; [exact I|exact Hrest].
    + split; [|exact Hrest]. rewrite Z.geb_leb in Hs. apply Z.leb_gt in Hs. lia.
  - apply Forall_cons in Hw as [He Hrest].
    split; [|exact Hrest]. destruct e; try exact I. destruct He.
Qed.

Lemma post_breaker_call self (func : M value) :
  post client_raises_its_own forward_outcome func ->
  post client_raises_its_own forward_outcome (CircuitBreaker.call self func None).
Proof.
  intros Hf. unfold CircuitBreaker.call.
  apply (post_silent_bind _ honest_network); [apply silent__get_state|].
  assert (Hrun : forall pre : M unit, silent pre ->
    post client_raises_its_own forward_outcome
      (pre ;;
       try_except (result <- func ;; CircuitBreaker._on_success self ;; ret result)
         (fun _ => true)
         (fun exc => CircuitBreaker._on_failure self ;; raise exc))).
  { intros pre Hpre. apply (post_silent_bind _ honest_network); [exact Hpre|].
    intros _.
    apply (post_try_except _ forward_outcome forward_outcome).
    - apply (post_bind _ forward_outcome forward_outcome); [exact Hf| |auto].
      intros a Ha. apply (post_silent_bind _ honest_network);
        [apply silent__on_success|].
      intros _. now apply post_ret.
    - auto.
    - discriminate.
    - intros e He _. apply (post_silent_bind _ honest_network);
        [apply silent__on_failure|].
      intros _. now apply post_raise. }
  intros [| |].
  - apply Hrun, silent_ret.
  - apply (post_silent_bind _ honest_network);
      [unfold logger; apply silent_modify; reflexivity|].
    intros _. apply (post_silent_bind _ honest_network);
      [unfold gauge_set; apply silent_modify; reflexivity|].
    intros _. apply post_raise. reflexivity.
  - apply Hrun. unfold gauge_set. apply silent_modify. reflexivity.
Qed.

Lemma post_bulkhead_call self (func : M value) :
  post client_raises_its_own forward_outcome func ->
  post client_raises_its_own forward_outcome (Bulkhead.call self func).
Proof.
  intros Hf. unfold Bulkhead.call.
  apply (post_bind _ (fun o => match o with
                               | Ok _ => True
                               | Raise (HTTPException code _ _) => code = 503%Z
                               | Raise _ => True
                               end)).
  - apply (post_try_except _ (fun o => match o with
                                       | Ok _ => True
                                       | Raise e => e = AsyncioTimeoutError
                                       end)).
    + intros w Hw. unfold Bulkhead.wait_for_acquire.
      destruct (Qle_bool _ _); [now split|].
      destruct (0 <? semaphore_value w)%Z;
        [split; [exact I|now apply (honest_network w)]|].
      destruct (semaphore_waits w) as [|[|] rest];
        (split; [reflexivity || exact I|now apply (honest_network w)]).
    + auto.
    + intros e -> He. discriminate.
    + intros e _ He.
      apply (post_silent_bind _ honest_network);
        [unfold counter_inc; apply silent_modify; reflexivity|].
      intros _. apply (post_silent_bind _ honest_network);
        [unfold logger; apply silent_modify; reflexivity|].
      intros _. apply post_raise. reflexivity.
  - intros _ _. apply (post_try_finally _ honest_network); [exact Hf|].
    unfold Bulkhead.release. apply silent_modify. reflexivity.
  - intros e. now destruct e.
Qed.

Lemma carried_outcome last_exc message :
  carried last_exc -> forward_outcome (Raise (or_else last_exc (RuntimeError message))).
Proof. destruct last_exc as [[]|]; cbn; auto; contradiction. Qed.

Lemma post_try_attempt func config attempt last_exc :
  post client_raises_its_own forward_outcome func ->
  post client_raises_its_own
    (fun o => match o with
              | Ok (Retry.Return v) => forward_outcome (Ok v)
              | Ok (Retry.Continue l) => carried l
              | Raise e => forward_outcome (Raise e)
              end)
    (Retry.try_attempt func config attempt last_exc).
Proof.
  intros Hf w Hw.
  remember (Retry.try_attempt func config attempt last_exc w) as run eqn:Hrun.
  unfold Retry.try_attempt, try_except, bind at 1 in Hrun.
  destruct (Hf w Hw) as [Hq Hi].
  destruct (func w) as [[[r|x]|exc] w1]; cbn [fst snd] in *.
  - destruct (Retry.is_retryable_status config r); [|now subst run].
    destruct (attempt <? Retry.max_attempts config - 1)%Z; [|now subst run].
    destruct (RetryBounds.bookkeeping_run config attempt
                (retrying_request (attempt + 1) (status_code r))
                (Retry.Continue (Some (HTTPStatusError
                   ("Retryable status " +:+ pretty (status_code r)) r))) w1)
      as (delay & w2 & Hk & _ & _ & Hn & _).
    rewrite Hk in Hrun. subst run.
    split; [exact I|exact (honest_network w1 w2 Hn Hi)].
  - destruct Hq.
  - destruct (Retry.is_transport_error exc) eqn:Ht; [|now subst run].
    destruct (attempt <? Retry.max_attempts config - 1)%Z; [|now subst run].
    destruct (RetryBounds.bookkeeping_run config attempt
                (retrying_after_error (attempt + 1) exc)
                (Retry.Continue (Some exc)) w1)
      as (delay & w2 & Hk & _ & _ & Hn & _).
    rewrite Hk in Hrun. subst run.
    split; [now destruct exc|exact (honest_network w1 w2 Hn Hi)].
Qed.

Lemma post_attempts_from func config todo :
  post client_raises_its_own forward_outcome func ->
  forall attempt last_exc,
    carried last_exc ->
    post client_raises_its_own forward_outcome
      (Retry.attempts_from func config todo attempt last_exc).
Proof.
  intros Hf. induction todo as [|todo IH]; intros attempt last_exc Hc w Hw.
  - split; [now apply carried_outcome|exact Hw].
  - destruct (Retry.budget_exhausted w) eqn:Hb.
    + rewrite RetryFacts.attempts_from_exhausted by assumption.
      split; [now apply carried_outcome|].
      now apply (honest_network w).
    + rewrite RetryFacts.attempts_from_step by assumption.
      destruct (post_try_attempt func config attempt last_exc Hf w Hw) as [Hq Hi].
      destruct (Retry.try_attempt func config attempt last_exc w)
        as [[[v|l]|e] w2]; cbn [fst snd] in *.
      * now split.
      * exact (IH (attempt + 1)%Z l Hq w2 Hi).
      * now split.
Qed.

Lemma post__forward breaker bulkhead :
  post client_raises_its_own forward_outcome (Gateway._forward breaker bulkhead).
Proof.
  unfold Gateway._forward, Retry.retry_with_backoff.
  apply post_attempts_from; [|exact I].
  apply post_bulkhead_call, post_breaker_call, post__do_request.
Qed.

Section Routes.

Variable str : exn -> string.

(** X15. Whatever the orders service, the breaker and the bulkhead do, the
    routes [get_order] and [list_orders] either relay a response whose
    status is below 500, as [application/json], or raise an [HTTPException]
    with 502 or 503; no other exception reaches the framework.  The client
    library raises its own exceptions only. *)
Theorem get_order_relays_or_raises_502_503 (w : World) :
  client_raises_its_own w ->
  edge_outcome (fst (GatewayRoutes.get_order str w)).
Proof.
  intros Hw. unfold GatewayRoutes.get_order, bind, try_except.
  destruct (post__forward Gateway._orders_breaker Gateway._orders_bulkhead w Hw)
    as [Hq _].
  destruct (Gateway._forward Gateway._orders_breaker Gateway._orders_bulkhead w)
    as [[[r|x]|e] w1]; cbn [fst snd] in *.
  - cbn. now split.
  - destruct Hq.
  - destruct e; cbn; auto.
Qed.

End Routes.

Lemma get_order_relays_or_raises_502_503_witness :
  let w := RetrySpec.at_rest 1 None [Raise ConnectError; Ok (RetrySpec.response 404)] in
  client_raises_its_own w
  /\ edge_outcome (fst (GatewayRoutes.get_order (fun _ => "error") w)).
Proof.
  intros w.
  assert (Hw : client_raises_its_own w) by (repeat constructor).
  split; [exact Hw|].
  exact (get_order_relays_or_raises_502_503 (fun _ => "error") w Hw).
Defined.

End GatewayFacts.

(** ** The counter of the load shedder *)

Module BackpressureMore.
Import Backpressure BackpressureSpec MoreSpec.

(** X16. Around a handler that leaves the counter alone, [dispatch] leaves the
    counter as it found it: on an exempt path, when it sheds, when the
    handler returns and when the handler raises. *)
Theorem dispatch_restores_inflight (self : BackpressureMiddleware) (path : string)
    (call_next : M Response) (w : World) :
  keeps_inflight call_next ->
  _inflight (snd (dispatch self path call_next w)) = _inflight w.
Proof.
  intros Hk. unfold dispatch.
  destruct (bool_decide (path ∈ _skip_paths self)); [apply Hk|].
  unfold try_enter, bind at 1, bind at 1, gets.
  destruct (_inflight w >=? _max_inflight self)%Z; [reflexivity|].
  unfold bind at 1, modify at 1, ret at 1, try_finally.
  specialize (Hk (set_inflight (_inflight w + 1) w)).
  destruct (call_next (set_inflight (_inflight w + 1) w)) as [r w1].
  cbn in *. lia.
Qed.

Lemma dispatch_restores_inflight_witness :
  let failing : M Response := raise TimeoutException in
  keeps_inflight failing
  /\ _inflight (snd (dispatch gateway "/orders" failing (busy 7))) = 7%Z
  /\ _inflight (snd (dispatch gateway "/orders" failing (busy 200))) = 200%Z.
Proof.
  intros failing.
  assert (Hk : keeps_inflight failing) by (intros w; reflexivity).
  split; [exact Hk|]. split.
  - exact (dispatch_restores_inflight gateway "/orders" failing (busy 7) Hk).
  - exact (dispatch_restores_inflight gateway "/orders" failing (busy 200) Hk).
Defined.

End BackpressureMore.

(** ** Deadlines *)

Module TimeoutMore.
Import Timeout.

Section FromHeader.

Variable float : string -> option pyfloat.

(** X17. Whatever the header holds (nothing, text that is no number, a deadline
    in the past or ahead, an infinity, a NaN), the read timeout that
    [from_deadline_header] sets is a finite number of seconds, above zero
    and at most the default of 10, and the other two timeouts keep their
    defaults. *)
Theorem read_timeout_is_positive_and_capped (now : Q) (header_value : option string) :
  let config := from_deadline_header float now header_value in
  (exists t, read_timeout config = Finite t /\ (0 < t)%Q /\ (t <= 10)%Q)
  /\ connect_timeout config = Finite 2
  /\ write_timeout config = Finite 5.
Proof.
  cbn zeta.
  assert (Hdef : exists t, Finite 10 = Finite t /\ (0 < t)%Q /\ (t <= 10)%Q)
    by (exists 10%Q; repeat split; lra).
  destruct header_value as [text|]; [|now split].
  destruct text as [|c text]; [now split|].
  unfold from_deadline_header.
  destruct (float (String c text)) as [d|]; [|now split].
  cbn zeta.
  destruct (gt_zero (fsub d now)) eqn:Hgt; cbn.
  - split; [|now split].
    destruct d as [x| | |]; cbn in *; try discriminate.
    + unfold fmin, flt.
      destruct (Qlt_le_dec 0 (x - now)); [|discriminate].
      destruct (Qlt_le_dec (x - now) 10).
      * exists (x - now)%Q. repeat split; lra.
      * exact Hdef.
    + exact Hdef.
  - split; [|now split]. exists 0.001%Q. repeat split; lra.
Qed.

End FromHeader.

(** X18. [is_expired] and [remaining_seconds] agree: with a deadline that is a
    number, the request is expired exactly when no time remains; without a
    deadline it never expires and nothing is reported; what remains is never
    negative and never a NaN.  A NaN deadline is the one disagreement: no
    time remains and the request is not expired. *)
Theorem expired_iff_nothing_remains (self : TimeoutConfig) (now : Q) :
  match deadline self with
  | None => is_expired self now = false /\ remaining_seconds self now = None
  | Some NaN =>
      is_expired self now = false /\ remaining_seconds self now = Some (Finite 0)
  | Some _ =>
      (is_expired self now = true <-> remaining_seconds self now = Some (Finite 0))
      /\ exists r, remaining_seconds self now = Some r
                   /\ (r = PosInf \/ exists q, r = Finite q /\ (0 <= q)%Q)
  end.
Proof.
  assert (Hzero : forall q, Some (Finite q) = Some (Finite 0) -> (q == 0)%Q)
    by (intros q [= ->]; reflexivity).
  unfold is_expired, remaining_seconds.
  destruct (deadline self) as [[d| | |]|]; cbn; try (split; reflexivity).
  - destruct (Qlt_le_dec now d) as [Hlt|Hle];
      destruct (Qlt_le_dec 0 (d - now)) as [Hpos|Hneg]; cbn; try lra.
    + split.
      * split; [discriminate|]. intros H. apply Hzero in H. lra.
      * eexists. split; [reflexivity|]. right. eexists. split; [reflexivity|lra].
    + split; [now split|].
      eexists. split; [reflexivity|]. right. exists 0%Q. split; [reflexivity|lra].
  - split; [split; discriminate|].
    eexists. split; [reflexivity|]. now left.
  - split; [now split|].
    eexists. split; [reflexivity|]. right. exists 0%Q. split; [reflexivity|lra].
Qed.

End TimeoutMore.

(** ** The headers the orders service passes on *)

Module OrdersHeadersFacts.
Import OrdersHeaders MoreSpec.

Lemma foldl_forward_one request_headers names :
  forall acc h,
    foldl (forward_one request_headers) acc names !! h
    = match (if bool_decide (h ∈ names) then request_headers h else None) with
      | Some v => if String.eqb v "" then acc !! h else Some v
      | None => acc !! h
      end.
Proof.
  induction names as [|n names IH]; intros acc h.
  - reflexivity.
  - cbn [foldl]. rewrite IH.
    destruct (decide (h ∈ names)) as [Hin|Hin].
    + rewrite !bool_decide_eq_true_2 by (try right; assumption).
      destruct (request_headers h) as [v|] eqn:Hv.
      * destruct (String.eqb v "") eqn:Hev; [|reflexivity].
        unfold forward_one. destruct (request_headers n) as [vn|] eqn:Hn; [|reflexivity].
        destruct (String.eqb vn "") eqn:Hen; [reflexivity|].
        destruct (decide (n = h)) as [->|Hne].
        -- congruence.
        -- now rewrite lookup_insert_ne.
      * unfold forward_one. destruct (request_headers n) as [vn|] eqn:Hn; [|reflexivity].
        destruct (String.eqb vn ""); [reflexivity|].
        destruct (decide (n = h)) as [->|Hne]; [congruence|].
        now rewrite lookup_insert_ne.
    + rewrite (bool_decide_eq_false_2 (h ∈ names)) by assumption.
      unfold forward_one at 1.
      destruct (decide (n = h)) as [->|Hne].
      * rewrite bool_decide_eq_true_2 by left.
        destruct (request_headers h) as [v|]; [|reflexivity].
        destruct (String.eqb v ""); [reflexivity|]. now rewrite lookup_insert_eq.
      * rewrite bool_decide_eq_false_2
          by (intros [->|?]%elem_of_cons; [congruence|contradiction]).
        destruct (request_headers n) as [vn|]; [|reflexivity].
        destruct (String.eqb vn ""); [reflexivity|]. now rewrite lookup_insert_ne.
Qed.

(** X19. The headers passed on to the payments and inventory services are
    exactly those of the three names that the request carries with a
    value that is not empty; no other header of the request leaks through
    and no header is invented. *)
Theorem forward_headers_are_the_named_ones (request_headers : Headers)
    (h v : string) :
  _get_forward_headers request_headers !! h = Some v
  <-> h ∈ forwarded_names /\ request_headers h = Some v /\ v <> "".
Proof.
  unfold _get_forward_headers. rewrite foldl_forward_one.
  change ["X-Correlation-ID"; Timeout.DEADLINE_HEADER; "Idempotency-Key"]
    with forwarded_names.
  rewrite lookup_empty.
  destruct (bool_decide (h ∈ forwarded_names)) eqn:Hin.
  - apply bool_decide_eq_true in Hin.
    destruct (request_headers h) as [x|]; [|split; [discriminate|now intros (_ & ? & _)]].
    destruct (String.eqb x "") eqn:Hx.
    + apply String.eqb_eq in Hx. subst x.
      split; [discriminate|]. intros (_ & [= <-] & Hne). now destruct Hne.
    + apply String.eqb_neq in Hx. split.
      * intros [= <-]. auto.
      * now intros (_ & [= <-] & _).
  - apply bool_decide_eq_false in Hin.
    split; [discriminate|]. now intros (? & _).
Qed.

End OrdersHeadersFacts.

(** ** The event log of the notifications service *)

Module NotificationsMore.
Import Notifications MoreSpec.

Lemma deque_append_elem x d y :
  y ∈ deque_append x d -> y = x \/ y ∈ d.
Proof.
  unfold deque_append. destruct (length d <? 1000)%nat.
  - intros [H|H%list_elem_of_singleton]%elem_of_app; auto.
  - intros [H|H%list_elem_of_singleton]%elem_of_app; auto.
    right. destruct d; [assumption|]. cbn in H. now right.
Qed.

Lemma record_event_invariant id s :
  id ∉ _processed_events s -> log_invariant s -> log_invariant (record_event id s).
Proof.
  intros Hnew (Hlen & Hnd & Hsub). unfold record_event, log_invariant. cbn.
  assert (Hfresh : id ∉ _event_log s) by (intros H; apply Hnew, Hsub, H).
  split; [|split].
  - unfold deque_append. destruct (length (_event_log s) <? 1000)%nat eqn:Hlt.
    + apply Nat.ltb_lt in Hlt. rewrite length_app. cbn. lia.
    + rewrite length_app, length_drop. cbn. lia.
  - unfold deque_append. destruct (length (_event_log s) <? 1000)%nat.
    + apply NoDup_app. split; [assumption|]. split; [|apply NoDup_singleton].
      intros y Hy ->%list_elem_of_singleton. contradiction.
    + apply NoDup_app. split; [|split; [|apply NoDup_singleton]].
      * destruct (_event_log s) as [|z d]; [constructor|].
        cbn. now apply NoDup_cons in Hnd as [_ Hnd].
      * intros y Hy ->%list_elem_of_singleton. apply Hfresh.
        destruct (_event_log s) as [|z d]; [assumption|]. cbn in Hy. now right.
  - intros y [->|Hy]%deque_append_elem; set_solver.
Qed.

Lemma emit_invariant es s : log_invariant s -> log_invariant (emit es s).
Proof. exact id. Qed.

Lemma receive_event_invariant redis xadd_ok event s :
  log_invariant s -> log_invariant (snd (receive_event redis xadd_ok event s)).
Proof.
  intros Hs. unfold receive_event.
  destruct (bool_decide _) eqn:Hin; cbn [snd].
  - now apply emit_invariant.
  - apply bool_decide_eq_false in Hin. apply emit_invariant.
    destruct (redis && xadd_ok); [apply emit_invariant|];
      now apply record_event_invariant.
Qed.

Lemma consume_entry_invariant xack_ok entry s :
  log_invariant s -> log_invariant (snd (consume_entry xack_ok entry s)).
Proof.
  intros Hs. unfold consume_entry.
  destruct (bool_decide _) eqn:Hin.
  - destruct xack_ok; cbn [snd]; repeat apply emit_invariant; assumption.
  - apply bool_decide_eq_false in Hin.
    destruct xack_ok; cbn [snd]; repeat apply emit_invariant;
      now apply record_event_invariant.
Qed.

Lemma _redis_stream_consumer_invariant entries :
  forall s, log_invariant s -> log_invariant (_redis_stream_consumer entries s).
Proof.
  induction entries as [|[entry xack_ok] rest IH]; intros s Hs; [assumption|].
  cbn [_redis_stream_consumer].
  pose proof (consume_entry_invariant xack_ok entry s Hs) as Hstep.
  destruct (consume_entry xack_ok entry s) as [[|] s']; cbn [snd] in Hstep; auto.
Qed.

Lemma processed_grows_record id s :
  _processed_events s ⊆ _processed_events (record_event id s).
Proof. cbn. set_solver. Qed.

Lemma deliver_grows d s : _processed_events s ⊆ _processed_events (deliver d s).
Proof.
  destruct d as [redis xadd_ok event|entries]; cbn [deliver].
  - unfold receive_event. destruct (bool_decide _); cbn [snd]; [reflexivity|].
    destruct (redis && xadd_ok); cbn; set_solver.
  - revert s. induction entries as [|[entry xack_ok] rest IH]; intros s; [reflexivity|].
    cbn [_redis_stream_consumer].
    assert (Hstep : _processed_events s
                    ⊆ _processed_events (snd (consume_entry xack_ok entry s))).
    { unfold consume_entry. destruct (bool_decide _), xack_ok; cbn; set_solver. }
    destruct (consume_entry xack_ok entry s) as [[|] s']; cbn [snd] in Hstep;
      [|assumption].
    etransitivity; [exact Hstep|apply IH].
Qed.

(** X20. Over any sequence of posts and stream reads, with acknowledgements and
    stream appends failing or not: [_event_log] never holds more than 1000
    entries and never holds an event id twice, every id in it is in
    [_processed_events], and [_processed_events] never loses an id. *)
Theorem event_log_is_bounded_and_duplicate_free (ds : list Delivery) :
  log_invariant (run ds initial)
  /\ forall s, _processed_events s ⊆ _processed_events (run ds s).
Proof.
  split.
  - assert (H : forall s, log_invariant s -> log_invariant (run ds s)).
    { unfold run. induction ds as [|d ds IH]; intros s Hs; [assumption|].
      cbn [foldl]. apply IH. destruct d; cbn [deliver].
      - now apply receive_event_invariant.
      - now apply _redis_stream_consumer_invariant. }
    apply H. unfold log_invariant, initial. cbn.
    split; [lia|]. split; [constructor|]. intros id Hid. inversion Hid.
  - unfold run. induction ds as [|d ds IH]; intros s; [reflexivity|].
    cbn [foldl]. etransitivity; [apply deliver_grows|apply IH].
Qed.

End NotificationsMore.

(** ** The idempotency middleware *)

Module IdempotencyFacts.
Import Idempotency IdempotencySpec.

Lemma command_working s : working s -> command s = (false, s).
Proof. unfold working, command. now intros ->. Qed.

Lemma dispatch_handled render self request key call_next s :
  handled self request key ->
  dispatch render self request call_next s
  = let '(cached, s) := get key s in
    match cached with
    | Some cached =>
        (Ok (replayed render cached),
         logger (idempotency_cache_hit key (path request))
           (mkState (_redis s) (inc (path request) (IDEMPOTENCY_HITS s))
                    (IDEMPOTENCY_CONFLICTS s) (log s)))
    | None =>
        let '(acquired, s) := acquire_lock key s in
        if negb acquired then
          (Ok in_flight_response,
           mkState (_redis s) (IDEMPOTENCY_HITS s)
                   (inc (path request) (IDEMPOTENCY_CONFLICTS s)) (log s))
        else
          let '(outcome, s) := handle_and_cache render key call_next s in
          (outcome, release_lock key s)
    end.
Proof.
  intros (Hm & Hp & Hh & Hk). unfold dispatch.
  rewrite (bool_decide_eq_true_2 _ Hm), (bool_decide_eq_false_2 _ Hp), Hh.
  cbn [negb]. apply String.eqb_neq in Hk. now rewrite Hk.
Qed.

Lemma get_working key s : working s -> get key s = (entries (_redis s) !! key, s).
Proof. intros Hw. unfold get. now rewrite command_working. Qed.

Lemma acquire_lock_free key s :
  working s -> key ∉ locks (_redis s) ->
  acquire_lock key s
  = (true, set_redis (mkRedis (entries (_redis s)) ({[ key ]} ∪ locks (_redis s)) []) s).
Proof.
  intros Hw Hfree. unfold acquire_lock. rewrite command_working by assumption.
  rewrite bool_decide_eq_false_2 by assumption. now rewrite Hw.
Qed.

Lemma entered_fresh key s :
  working s -> fresh key s ->
  entered key s
  = set_redis (mkRedis (entries (_redis s)) ({[ key ]} ∪ locks (_redis s)) []) s.
Proof.
  intros Hw [Hnone Hfree]. unfold entered.
  rewrite get_working by assumption. cbn [snd].
  now rewrite acquire_lock_free.
Qed.

Lemma set_working key cached s :
  working s ->
  set key cached s
  = set_redis (mkRedis (<[ key := cached ]> (entries (_redis s)))
                       (locks (_redis s)) []) s.
Proof. intros Hw. unfold set. rewrite command_working by assumption. now rewrite Hw. Qed.

Lemma release_lock_working key s :
  working s ->
  release_lock key s
  = set_redis (mkRedis (entries (_redis s)) (locks (_redis s) ∖ {[ key ]}) []) s.
Proof.
  intros Hw. unfold release_lock. rewrite command_working by assumption.
  now rewrite Hw.
Qed.

Lemma unlock_restores (key : string) (held : gset string) :
  key ∉ held -> ({[ key ]} ∪ held) ∖ {[ key ]} = held.
Proof. set_solver. Qed.

(** The run of a request with a fresh key, on a working Redis, around a
    handler that leaves the Redis alone. *)
Lemma dispatch_fresh render self request key call_next s :
  handled self request key -> working s -> fresh key s -> keeps_redis call_next ->
  exists s1,
    call_next (entered key s) = (fst (call_next (entered key s)), s1)
    /\ _redis s1 = _redis (entered key s)
    /\ dispatch render self request call_next s
       = match fst (call_next (entered key s)) with
         | Ok response =>
             if is_2xx response then
               (Ok (mkResponse (status_code response) (render (content response)) []),
                set_redis (mkRedis (<[ key := mkCached (content response)
                                                       (status_code response) ]>
                                      (entries (_redis s)))
                                   (locks (_redis s)) []) s1)
             else (Ok response, set_redis (_redis s) s1)
         | Raise exc => (Raise exc, set_redis (_redis s) s1)
         end.
Proof.
  intros Hh Hw Hf Hk.
  pose proof (entered_fresh key s Hw Hf) as He.
  destruct Hf as [Hnone Hfree].
  specialize (Hk (entered key s)).
  destruct (call_next (entered key s)) as [outcome s1] eqn:Hrun. cbn [fst snd] in *.
  exists s1. split; [reflexivity|]. split; [exact Hk|].
  rewrite (dispatch_handled render self request key call_next s Hh).
  rewrite get_working, Hnone by assumption.
  rewrite acquire_lock_free by assumption. cbn [negb].
  rewrite <- He. unfold handle_and_cache. rewrite Hrun.
  assert (Hw1 : working s1).
  { unfold working. rewrite Hk, He. reflexivity. }
  assert (Hredis : _redis s1
                   = mkRedis (entries (_redis s)) ({[ key ]} ∪ locks (_redis s)) []).
  { rewrite Hk, He. reflexivity. }
  destruct outcome as [response|exc].
  - fold (is_2xx response). destruct (is_2xx response).
    + rewrite set_working by assumption.
      rewrite release_lock_working by (unfold working; reflexivity).
      rewrite Hredis. unfold set_redis. cbn.
      now rewrite unlock_restores.
    + rewrite release_lock_working by assumption.
      rewrite Hredis. unfold set_redis. cbn. rewrite unlock_restores by assumption.
      destruct s as [[e l o] hits conflicts lg]. unfold working in Hw. cbn in Hw.
      now subst o.
  - rewrite release_lock_working by assumption.
    rewrite Hredis. unfold set_redis. cbn. rewrite unlock_restores by assumption.
    destruct s as [[e l o] hits conflicts lg]. unfold working in Hw. cbn in Hw.
    now subst o.
Qed.

Section Dispatch.

Variable render : string -> string.

(** X21. The round trip: when the handler of a request with a fresh key answers
    in 200..299, the caller gets that status with the body as JSON, the
    answer is stored under the key and the lock is free again; the next
    request with the key gets the stored answer, marked as replayed, and
    its handler does not run. *)
Theorem second_request_replays_the_first (self : IdempotencyMiddleware)
    (request : Request) (key : string)
    (call_next : State -> Res Response * State) (s : State) (response : Response) :
  handled self request key -> working s -> fresh key s -> keeps_redis call_next ->
  fst (call_next (entered key s)) = Ok response ->
  is_2xx response = true ->
  let first := dispatch render self request call_next s in
  let stored := mkCached (content response) (status_code response) in
  fst first = Ok (mkResponse (status_code response) (render (content response)) [])
  /\ entries (_redis (snd first)) !! key = Some stored
  /\ key ∉ locks (_redis (snd first))
  /\ forall again,
       dispatch render self request again (snd first)
       = (Ok (mkResponse (status_code response) (render (content response))
                [("X-Idempotency-Replayed", "true")]),
          logger (idempotency_cache_hit key (path request))
            (mkState (_redis (snd first))
                     (inc (path request) (IDEMPOTENCY_HITS (snd first)))
                     (IDEMPOTENCY_CONFLICTS (snd first)) (log (snd first)))).
Proof.
  intros Hh Hw Hf Hk Hok H2 first stored. subst first.
  destruct (dispatch_fresh render self request key call_next s Hh Hw Hf Hk)
    as (s1 & _ & _ & ->).
  rewrite Hok, H2. cbn [fst snd].
  destruct Hf as [_ Hfree].
  split; [reflexivity|]. split; [cbn; now rewrite lookup_insert_eq|].
  split; [exact Hfree|].
  intros again.
  rewrite (dispatch_handled render self request key again _ Hh).
  rewrite get_working by reflexivity. cbn. now rewrite lookup_insert_eq.
Qed.

(** X22. What is not cached is not replayed: when the handler raises, or answers
    outside 200..299, the caller gets that outcome as it is, and the Redis
    is as before, with nothing stored under the key and the lock free, so
    the next request with the key runs its handler. *)
Theorem failure_is_passed_on_and_not_cached (self : IdempotencyMiddleware)
    (request : Request) (key : string)
    (call_next : State -> Res Response * State) (s : State) :
  handled self request key -> working s -> fresh key s -> keeps_redis call_next ->
  not_cached (fst (call_next (entered key s))) ->
  let first := dispatch render self request call_next s in
  fst first = fst (call_next (entered key s))
  /\ _redis (snd first) = _redis s
  /\ forall again,
       keeps_redis again ->
       fst (dispatch render self request again (snd first))
       = match fst (again (entered key (snd first))) with
         | Ok response =>
             if is_2xx response
             then Ok (mkResponse (status_code response) (render (content response)) [])
             else Ok response
         | Raise exc => Raise exc
         end.
Proof.
  intros Hh Hw Hf Hk Hnot first. subst first.
  destruct (dispatch_fresh render self request key call_next s Hh Hw Hf Hk)
    as (s1 & _ & _ & Hrun).
  assert (Hfirst : dispatch render self request call_next s
                   = (fst (call_next (entered key s)), set_redis (_redis s) s1)).
  { rewrite Hrun. destruct (fst (call_next (entered key s))) as [response|exc];
      [|reflexivity].
    cbn in Hnot. now rewrite Hnot. }
  rewrite Hfirst. cbn [fst snd].
  split; [reflexivity|]. split; [reflexivity|].
  intros again Hagain.
  destruct (dispatch_fresh render self request key again (set_redis (_redis s) s1)
              Hh Hw Hf Hagain) as (s2 & _ & _ & ->).
  destruct (fst (again _)) as [response|exc]; [|reflexivity].
  now destruct (is_2xx response).
Qed.

(** X23. While the handler of a request runs, a second request with the same key
    is answered 409 with [Retry-After: 2]: its handler does not run, the
    conflict is counted, and the Redis stays as it is, lock included. *)
Theorem duplicate_in_flight_is_refused (self : IdempotencyMiddleware)
    (request : Request) (key : string) (s : State)
    (duplicate : State -> Res Response * State) :
  handled self request key -> working s -> fresh key s ->
  let running := entered key s in
  key ∈ locks (_redis running)
  /\ dispatch render self request duplicate running
     = (Ok in_flight_response,
        mkState (_redis running) (IDEMPOTENCY_HITS running)
                (inc (path request) (IDEMPOTENCY_CONFLICTS running)) (log running)).
Proof.
  intros Hh Hw Hf running. subst running.
  rewrite (entered_fresh key s Hw Hf). destruct Hf as [Hnone Hfree].
  split; [cbn; set_solver|].
  rewrite (dispatch_handled render self request key duplicate _ Hh).
  rewrite get_working by reflexivity. cbn [_redis set_redis entries]. rewrite Hnone.
  unfold acquire_lock. rewrite command_working by reflexivity.
  cbn [_redis set_redis locks].
  rewrite bool_decide_eq_true_2 by set_solver. reflexivity.
Qed.

(** X24. Fail open: when the Redis is down for the whole request, the handler
    runs and the caller gets its outcome (a 2xx body as JSON), whether or
    not the key is cached or locked; nothing is stored and no lock is
    taken or released. *)
Theorem redis_outage_fails_open (self : IdempotencyMiddleware)
    (request : Request) (key : string)
    (call_next : State -> Res Response * State) (s : State) (rest : list bool) :
  handled self request key -> keeps_redis call_next ->
  outage (_redis s) = [true; true; true; true] ++ rest ->
  let during := snd (acquire_lock key (snd (get key s))) in
  let run := dispatch render self request call_next s in
  fst run = match fst (call_next during) with
            | Ok response =>
                if is_2xx response
                then Ok (mkResponse (status_code response) (render (content response)) [])
                else Ok response
            | Raise exc => Raise exc
            end
  /\ entries (_redis (snd run)) = entries (_redis s)
  /\ locks (_redis (snd run)) = locks (_redis s).
Proof.
  intros Hh Hk Hout during run. subst during run.
  rewrite (dispatch_handled render self request key call_next s Hh).
  destruct s as [[e l o] hits conflicts lg]. cbn in Hout. subst o.
  unfold get at 1 2, command. cbn.
  unfold acquire_lock, command. cbn.
  unfold handle_and_cache.
  match goal with |- context [call_next ?x] =>
    specialize (Hk x); destruct (call_next x) as [outcome s1] end.
  cbn [fst snd] in *.
  destruct outcome as [response|exc]; [fold (is_2xx response); destruct (is_2xx response)|];
    unfold set, release_lock, command; rewrite ?Hk; cbn; rewrite ?Hk; cbn; auto.
Qed.

End Dispatch.

Lemma sample_handled : handled sample_middleware sample_request "k1".
Proof.
  split; [|split; [|split]].
  - apply (proj1 (bool_decide_eq_true _)). vm_compute. reflexivity.
  - apply (proj1 (bool_decide_eq_false _)). vm_compute. reflexivity.
  - reflexivity.
  - discriminate.
Qed.

Lemma sample_fresh faults : fresh "k1" (at_start faults).
Proof.
  split; [reflexivity|].
  apply (proj1 (bool_decide_eq_false _)). vm_compute. reflexivity.
Qed.

Lemma answering_keeps_redis response : keeps_redis (answering response).
Proof. intros s. reflexivity. Qed.

Lemma second_request_replays_the_first_witness :
  let first := dispatch id sample_middleware sample_request
                 (answering (mkResponse 201 "charged" [("x-trace", "1")]))
                 (at_start []) in
  fst first = Ok (mkResponse 201 "charged" [])
  /\ fst (dispatch id sample_middleware sample_request
            (answering (mkResponse 500 "boom" [])) (snd first))
     = Ok (mkResponse 201 "charged" [("X-Idempotency-Replayed", "true")]).
Proof.
  intros first.
  destruct (second_request_replays_the_first id sample_middleware sample_request "k1"
              (answering (mkResponse 201 "charged" [("x-trace", "1")]))
              (at_start []) (mkResponse 201 "charged" [("x-trace", "1")])
              sample_handled eq_refl (sample_fresh [])
              (answering_keeps_redis _) eq_refl eq_refl)
    as (H1 & _ & _ & H2).
  split; [exact H1|].
  fold first in H2. now rewrite (H2 (answering (mkResponse 500 "boom" []))).
Defined.

Lemma failure_is_passed_on_and_not_cached_witness :
  let unavailable := mkResponse 503 "unavailable" [("Retry-After", "1")] in
  let first := dispatch id sample_middleware sample_request
                 (answering unavailable) (at_start []) in
  fst first = Ok unavailable /\ _redis (snd first) = _redis (at_start []).
Proof.
  intros unavailable first.
  destruct (failure_is_passed_on_and_not_cached id sample_middleware sample_request
              "k1" (answering unavailable) (at_start [])
              sample_handled eq_refl (sample_fresh [])
              (answering_keeps_redis _) eq_refl)
    as (H1 & H2 & _).
  split; [exact H1|exact H2].
Defined.

Lemma duplicate_in_flight_is_refused_witness :
  fst (dispatch id sample_middleware sample_request
         (answering (mkResponse 201 "charged" []))
         (entered "k1" (at_start [])))
  = Ok in_flight_response.
Proof.
  destruct (duplicate_in_flight_is_refused id sample_middleware sample_request
              "k1" (at_start []) (answering (mkResponse 201 "charged" []))
              sample_handled eq_refl (sample_fresh []))
    as (_ & H).
  now rewrite H.
Defined.

Lemma redis_outage_fails_open_witness :
  fst (dispatch id sample_middleware sample_request
         (answering (mkResponse 201 "charged" []))
         (at_start [true; true; true; true]))
  = Ok (mkResponse 201 "charged" []).
Proof.
  destruct (redis_outage_fails_open id sample_middleware sample_request "k1"
              (answering (mkResponse 201 "charged" []))
              (at_start [true; true; true; true]) []
              sample_handled (answering_keeps_redis _) eq_refl)
    as (H & _).
  exact H.
Defined.

End IdempotencyFacts.

(** ** The reservation of stock *)

Module InventoryFacts.
Import Inventory InventorySpec.

Section Reserve.

Variable uuid4 : nat -> string.
Variable execute_insert : Reservation -> list Reservation -> Res (list Reservation).

(** One pass of the loop that goes through adds the quantity to the row of
    the product, if there is one, and to no other row; the sum stays within
    the stock. *)
Lemma reserve_item_ok key order item db drawn res_id db' drawn' :
  reserve_item uuid4 execute_insert key order item db drawn = (Ok res_id, db', drawn') ->
  (forall pid,
     products db' !! pid
     = (fun row => mkProduct (name row) (stock row)
                     (reserved row
                      + (if String.eqb (product_id item) pid then quantity item else 0)))
         <$> products db !! pid)
  /\ (forall row, products db !! product_id item = Some row ->
        (reserved row + quantity item <= stock row)%Z).
Proof.
  unfold reserve_item.
  destruct (products db !! product_id item) as [row|] eqn:Hrow.
  - destruct (stock row - reserved row <? quantity item)%Z eqn:Hlt; [discriminate|].
    apply Z.ltb_ge in Hlt.
    destruct (execute_insert _ _) as [rows|exc]; [|discriminate].
    intros [= _ <- _].
    split; [|intros ? [= <-]; lia].
    intros pid. unfold update_reserved. cbn [products].
    destruct (String.eqb (product_id item) pid) eqn:Heq.
    + apply String.eqb_eq in Heq. subst pid. now rewrite lookup_alter_eq.
    + apply String.eqb_neq in Heq. rewrite lookup_alter_ne by assumption.
      destruct (products db !! pid) as [[n s r]|]; [|reflexivity].
      cbn. now rewrite Z.add_0_r.
  - destruct (9999 - 0 <? quantity item)%Z; [discriminate|].
    destruct (execute_insert _ _) as [rows|exc]; [|discriminate].
    intros [= _ <- _].
    split; [|discriminate].
    intros pid. unfold update_reserved. cbn [products].
    destruct (String.eqb (product_id item) pid) eqn:Heq.
    + apply String.eqb_eq in Heq. subst pid.
      now rewrite lookup_alter_eq, Hrow.
    + apply String.eqb_neq in Heq. rewrite lookup_alter_ne by assumption.
      destruct (products db !! pid) as [[n s r]|]; [|reflexivity].
      cbn. now rewrite Z.add_0_r.
Qed.

Lemma reserve_items_ok key order items :
  forall db drawn ids ids' db' drawn',
    reserve_items uuid4 execute_insert key order items db drawn ids = (Ok ids', db', drawn') ->
    reserved_more items db db'
    /\ length ids' = (length ids + length items)%nat
    /\ (not_oversold db -> not_oversold db').
Proof.
  induction items as [|item rest IH]; intros db drawn ids ids' db' drawn'.
  - cbn. intros [= <- <- _]. split; [|split; [cbn; lia|auto]].
    intros pid. destruct (products db !! pid) as [[n s r]|]; [|reflexivity].
    cbn. now rewrite Z.add_0_r.
  - cbn [reserve_items].
    destruct (reserve_item uuid4 execute_insert key order item db drawn) as [[[res_id|exc] db1] drawn1]
      eqn:Hitem; [|discriminate].
    intros Hrest.
    destruct (reserve_item_ok _ _ _ _ _ _ _ _ Hitem) as [Hrows Hfits].
    destruct (IH _ _ _ _ _ _ Hrest) as (Hmore & Hlen & Hinv).
    split; [|split].
    + intros pid. rewrite Hmore, Hrows.
      destruct (products db !! pid) as [[n s r]|]; [|reflexivity].
      cbn [fmap option_fmap option_map name stock reserved].
      change (requested pid (item :: rest))
        with (if String.eqb (product_id item) pid
              then (quantity item + requested pid rest)%Z
              else requested pid rest).
      destruct (String.eqb (product_id item) pid);
        apply (f_equal Some), (f_equal (mkProduct n s)); lia.
    + rewrite Hlen, length_app. cbn. lia.
    + intros Hdb. apply Hinv. intros pid row1 Hrow1.
      rewrite Hrows in Hrow1.
      destruct (products db !! pid) as [row|] eqn:Hrow; [|discriminate].
      cbn in Hrow1. injection Hrow1 as <-. cbn.
      destruct (String.eqb (product_id item) pid) eqn:Heq.
      * apply String.eqb_eq in Heq. subst pid. now apply Hfits.
      * specialize (Hdb pid row Hrow). lia.
Qed.

(** X25. All or nothing.  The transaction either raises and leaves both tables
    as they were, or returns one reservation id per item, with the reserved
    count of every product raised by the quantity the request asks of it
    over all its items; names and stock are untouched and no product row
    appears or disappears. *)
Theorem reservation_is_all_or_nothing (key : option string) (order : string)
    (items : list ReserveItem) (db : Database) (drawn : nat) :
  match transaction uuid4 execute_insert key order items db drawn with
  | (Raise _, db', _) => db' = db
  | (Ok reservation_ids, db', _) =>
      length reservation_ids = length items /\ reserved_more items db db'
  end.
Proof.
  unfold transaction.
  destruct (reserve_items uuid4 execute_insert key order items db drawn [])
    as [[[ids|exc] db'] drawn'] eqn:Hrun; [|reflexivity].
  destruct (reserve_items_ok _ _ _ _ _ _ _ _ _ Hrun) as (Hmore & Hlen & _).
  now split.
Qed.

(** X26. Stock is never oversold: when no product has more reserved than in
    stock, the same holds after the transaction, however it ends and
    whatever the quantities are. *)
Theorem stock_is_never_oversold (key : option string) (order : string)
    (items : list ReserveItem) (db : Database) (drawn : nat) :
  not_oversold db ->
  not_oversold (snd (fst (transaction uuid4 execute_insert key order items db drawn))).
Proof.
  intros Hdb. unfold transaction.
  destruct (reserve_items uuid4 execute_insert key order items db drawn [])
    as [[[ids|exc] db'] drawn'] eqn:Hrun; [|exact Hdb].
  destruct (reserve_items_ok _ _ _ _ _ _ _ _ _ Hrun) as (_ & _ & Hinv).
  now apply Hinv.
Qed.

End Reserve.

Lemma warehouse_not_oversold : not_oversold warehouse.
Proof.
  intros pid row. unfold warehouse. cbn [products].
  rewrite lookup_insert_Some. intros [[_ <-]|[_ H]]; [cbn; lia|].
  apply lookup_singleton_Some in H as [_ <-]. cbn. lia.
Qed.

Lemma stock_is_never_oversold_witness :
  not_oversold warehouse
  /\ not_oversold
       (snd (fst (transaction numbered appending None "order-1"
                    [mkReserveItem "prod-004" 60; mkReserveItem "prod-004" 60]
                    warehouse 0))).
Proof.
  split; [exact warehouse_not_oversold|].
  exact (stock_is_never_oversold numbered appending None "order-1"
           [mkReserveItem "prod-004" 60; mkReserveItem "prod-004" 60]
           warehouse 0 warehouse_not_oversold).
Defined.

End InventoryFacts.

(** ** The outbox worker *)

Module OutboxFacts.
Import Outbox OutboxSpec.

Lemma same_or_published_refl row : same_or_published row row.
Proof. repeat split; auto. Qed.

Lemma same_or_published_trans a b c :
  same_or_published a b -> same_or_published b c -> same_or_published a c.
Proof.
  intros (H1 & H2 & H3 & H4 & H5) (G1 & G2 & G3 & G4 & G5).
  repeat split; try congruence. auto.
Qed.

Lemma rows_refl t : Forall2 same_or_published t t.
Proof. induction t; constructor; auto using same_or_published_refl. Qed.

Lemma rows_trans t1 : forall t2 t3,
  Forall2 same_or_published t1 t2 -> Forall2 same_or_published t2 t3 ->
  Forall2 same_or_published t1 t3.
Proof.
  induction t1 as [|a t1 IH]; intros t2 t3 H12 H23.
  - inversion H12; subst. inversion H23; subst. constructor.
  - inversion H12 as [|? b ? t2' Hab Ht]; subst.
    inversion H23 as [|? c ? t3' Hbc Ht']; subst.
    constructor; [eapply same_or_published_trans; eauto|eapply IH; eauto].
Qed.

Lemma mark_published_rows row_id t :
  Forall2 same_or_published t (mark_published row_id t).
Proof.
  induction t as [|r t IH]; [constructor|].
  cbn. constructor; [|exact IH].
  destruct (String.eqb (id r) row_id); [repeat split; auto|apply same_or_published_refl].
Qed.

Lemma mark_published_ids row_id t :
  map id (mark_published row_id t) = map id t
  /\ map event_key (mark_published row_id t) = map event_key t.
Proof.
  unfold mark_published.
  induction t as [|r t [IH1 IH2]]; [now split|].
  cbn [map]. rewrite IH1, IH2. now destruct (String.eqb (id r) row_id).
Qed.

Section Worker.

Context {World : Type}.
Variable post : string -> string -> string -> World -> Res Response * World.
Variable dict : string -> Res string.

Lemma statement_keeps (s : @State World) :
  outbox_events (snd (statement s)) = outbox_events s
  /\ world (snd (statement s)) = world s.
Proof. unfold statement. now destruct (db_outage s). Qed.

Lemma publish_row_rows row (s : @State World) :
  Forall2 same_or_published (outbox_events s)
          (outbox_events (publish_row post dict row s)).
Proof.
  unfold publish_row.
  destruct (dict (payload row)) as [body|exc]; [|apply rows_refl].
  destruct (post _ _ _ _) as [[resp|exc] w]; [|apply rows_refl].
  destruct (status_code resp <? 300)%Z; [|apply rows_refl].
  pose proof (statement_keeps (set_world w s)) as [Ht _].
  destruct (statement (set_world w s)) as [[|] s1]; cbn [snd] in Ht.
  - cbn. rewrite Ht. apply rows_refl.
  - cbn. rewrite Ht. apply mark_published_rows.
Qed.

Lemma publish_rows_rows rows : forall s : @State World,
  Forall2 same_or_published (outbox_events s)
          (outbox_events (foldl (fun s row => publish_row post dict row s) s rows)).
Proof.
  induction rows as [|row rows IH]; intros s; [apply rows_refl|].
  cbn [foldl]. eapply rows_trans; [apply publish_row_rows|apply IH].
Qed.

(** X28. The worker only ever publishes: after a pass the table holds the same
    rows in the same order, each as it was or marked as published; no row is
    added, dropped, rewritten or taken back, whatever the notifications
    service and the database do. *)
Theorem outbox_pass_only_publishes (s : @State World) :
  Forall2 same_or_published (outbox_events s)
          (outbox_events (outbox_pass post dict s)).
Proof.
  unfold outbox_pass.
  pose proof (statement_keeps s) as [Ht _].
  destruct (statement s) as [[|] s1]; cbn [snd] in Ht; [cbn; rewrite Ht; apply rows_refl|].
  rewrite <- Ht.
  destruct (fetch_unpublished s1) as [|row rows]; [apply rows_refl|].
  pose proof (publish_rows_rows (row :: rows) s1) as Hrows.
  set (s2 := foldl _ s1 (row :: rows)) in *.
  pose proof (statement_keeps s2) as [Ht2 _].
  destruct (statement s2) as [[|] s3]; cbn [snd] in Ht2; cbn; now rewrite Ht2.
Qed.

(** *** Progress *)

Lemma mark_published_absent row_id t :
  row_id ∉ map id t -> mark_published row_id t = t.
Proof.
  unfold mark_published.
  induction t as [|r t IH]; [reflexivity|].
  cbn [map]. intros Hnot. rewrite IH by (intros H; apply Hnot; now right).
  destruct (String.eqb (id r) row_id) eqn:Heq; [|reflexivity].
  apply String.eqb_eq in Heq. destruct Hnot. rewrite <- Heq. left.
Qed.

Lemma mark_published_head t : forall row rest,
  NoDup (map id t) ->
  List.filter not_published t = row :: rest ->
  List.filter not_published (mark_published (id row) t) = rest.
Proof.
  induction t as [|r t IH]; intros row rest Hnd Hf; [discriminate|].
  cbn [map] in Hnd. apply NoDup_cons in Hnd as [Hfresh Hnd].
  cbn [List.filter] in Hf.
  change (mark_published (id row) (r :: t))
    with ((if String.eqb (id r) (id row)
           then mkOutboxEvent (id r) (aggregate_id r) (event_type r) (payload r) true
           else r) :: mark_published (id row) t).
  destruct (not_published r) eqn:Hr.
  - injection Hf as <- <-. rewrite String.eqb_refl. cbn [List.filter not_published published negb].
    now rewrite mark_published_absent.
  - assert (Hkeep : List.filter not_published
                      ((if String.eqb (id r) (id row)
                        then mkOutboxEvent (id r) (aggregate_id r) (event_type r)
                                           (payload r) true
                        else r) :: mark_published (id row) t)
                    = List.filter not_published (mark_published (id row) t)).
    { destruct (String.eqb (id r) (id row)); cbn; [reflexivity|now rewrite Hr]. }
    rewrite Hkeep. now apply IH.
Qed.

Hypothesis post_accepted : always_accepted post.
Hypothesis dict_total : forall text, exists body, dict text = Ok body.

Lemma publish_row_head row rest (s : @State World) :
  db_outage s = [] -> NoDup (map id (outbox_events s)) ->
  pending s = row :: rest ->
  pending (publish_row post dict row s) = rest
  /\ db_outage (publish_row post dict row s) = []
  /\ NoDup (map id (outbox_events (publish_row post dict row s))).
Proof using post_accepted dict_total.
  intros Hdb Hnd Hp. unfold publish_row.
  destruct (dict_total (payload row)) as [body ->].
  destruct (post_accepted (event_type row) (aggregate_id row) body (world s))
    as (resp & w & -> & Hlt).
  apply Z.ltb_lt in Hlt. rewrite Hlt.
  unfold statement. cbn -[mark_published]. rewrite Hdb.
  cbn -[mark_published]. unfold pending. cbn -[mark_published].
  split; [now apply mark_published_head|]. split; [exact Hdb|].
  now rewrite (proj1 (mark_published_ids (id row) (outbox_events s))).
Qed.

Lemma publish_rows_take k : forall s : @State World,
  db_outage s = [] -> NoDup (map id (outbox_events s)) ->
  let s' := foldl (fun s row => publish_row post dict row s) s (take k (pending s)) in
  pending s' = drop k (pending s) /\ db_outage s' = [].
Proof using post_accepted dict_total.
  induction k as [|k IH]; intros s Hdb Hnd; [now split|].
  destruct (pending s) as [|row rest] eqn:Hp; [cbn; now rewrite Hp|].
  cbn [take foldl drop].
  destruct (publish_row_head row rest s Hdb Hnd Hp) as (Hp1 & Hdb1 & Hnd1).
  specialize (IH _ Hdb1 Hnd1). rewrite Hp1 in IH. exact IH.
Qed.

(** X29. With a database that works, payloads that come as mappings and a
    notifications service that accepts every post, one pass publishes the
    fifty oldest pending rows and none beyond them, and the gauge shows how
    many are left; with nothing pending it changes nothing. *)
Theorem outbox_pass_publishes_fifty (s : @State World) :
  db_outage s = [] -> NoDup (map id (outbox_events s)) ->
  pending (outbox_pass post dict s) = drop 50 (pending s)
  /\ (pending s <> [] ->
      OUTBOX_PENDING_GAUGE (outbox_pass post dict s)
      = Z.of_nat (length (drop 50 (pending s)))).
Proof using post_accepted dict_total.
  intros Hdb Hnd. unfold outbox_pass, statement. rewrite Hdb.
  unfold fetch_unpublished. fold (pending s).
  destruct (publish_rows_take 50 s Hdb Hnd) as [Hp Hdb'].
  destruct (take 50 (pending s)) as [|row rows] eqn:Htake.
  - destruct (pending s) as [|r rest] eqn:Hpend; [|discriminate].
    split; [unfold pending in *; cbn; now rewrite Hpend|congruence].
  - cbn zeta in Hp, Hdb'. rewrite Hdb'.
    split; [exact Hp|]. intros _. cbn [OUTBOX_PENDING_GAUGE].
    unfold pending in Hp. now rewrite Hp.
Qed.

End Worker.

Lemma outbox_pass_publishes_fifty_witness :
  let accept : string -> string -> string -> unit -> Res Response * unit :=
    fun _ _ _ w => (Ok (mkResponse 202 "accepted" []), w) in
  let s := mkState two_events [] tt ∅ 0 [] in
  always_accepted accept
  /\ pending (outbox_pass accept Ok s) = []
  /\ OUTBOX_PENDING_GAUGE (outbox_pass accept Ok s) = 0%Z.
Proof.
  intros accept s.
  assert (Hacc : always_accepted accept).
  { intros et ag body w. exists (mkResponse 202 "accepted" []), w.
    split; [reflexivity|]. cbn. lia. }
  assert (Hnd : NoDup (map id (outbox_events s))).
  { cbn. apply NoDup_cons. split; [|apply NoDup_singleton].
    intros H%list_elem_of_singleton. discriminate. }
  split; [exact Hacc|].
  destruct (outbox_pass_publishes_fifty accept Ok Hacc (fun text => ex_intro _ text eq_refl)
              s eq_refl Hnd) as [Hp Hg].
  split; [exact Hp|]. apply Hg. discriminate.
Defined.

(** *** The worker and the notifications service *)

Lemma receive_event_known redis xadd_ok event service :
  let service' := snd (Notifications.receive_event redis xadd_ok event service) in
  Notifications._processed_events service ⊆ Notifications._processed_events service'
  /\ (Notifications.event_type event +:+ ":" +:+ Notifications.aggregate_id event)
     ∈ Notifications._processed_events service'.
Proof.
  unfold Notifications.receive_event.
  destruct (bool_decide _) eqn:Hin; cbn [snd].
  - apply bool_decide_eq_true in Hin. now split.
  - destruct (redis && xadd_ok); cbn; split; set_solver.
Qed.

Lemma post_to_notifications_known event_type aggregate_id body beyond :
  Forall refusal_is_an_error (snd beyond) ->
  let run := post_to_notifications event_type aggregate_id body beyond in
  Notifications._processed_events (fst beyond)
    ⊆ Notifications._processed_events (fst (snd run))
  /\ Forall refusal_is_an_error (snd (snd run))
  /\ (forall resp, fst run = Ok resp -> (status_code resp < 300)%Z ->
        (event_type +:+ ":" +:+ aggregate_id)
        ∈ Notifications._processed_events (fst (snd run))).
Proof.
  destruct beyond as [service exchanges]. cbn [fst snd]. intros Hx.
  unfold post_to_notifications.
  destruct exchanges as [|[redis xadd_ok| |redis xadd_ok|status] rest].
  - cbn. split; [reflexivity|]. split; [constructor|discriminate].
  - apply Forall_cons in Hx as [_ Hrest].
    pose proof (receive_event_known redis xadd_ok
                  (Notifications.mkEventPayload event_type aggregate_id body) service)
      as [Hsub Hin].
    destruct (Notifications.receive_event _ _ _ _) as [reply service'].
    cbn [fst snd] in *. auto.
  - apply Forall_cons in Hx as [_ Hrest]. cbn.
    split; [reflexivity|]. split; [assumption|discriminate].
  - apply Forall_cons in Hx as [_ Hrest].
    pose proof (receive_event_known redis xadd_ok
                  (Notifications.mkEventPayload event_type aggregate_id body) service)
      as [Hsub Hin].
    destruct (Notifications.receive_event _ _ _ _) as [reply service'].
    cbn [fst snd] in *. split; [assumption|]. split; [assumption|discriminate].
  - apply Forall_cons in Hx as [Hstatus Hrest]. cbn in Hstatus. cbn.
    split; [reflexivity|]. split; [assumption|].
    intros resp [= <-]. cbn. lia.
Qed.

Lemma row_of_id t r r0 :
  NoDup (map id t) -> r ∈ t -> r0 ∈ t -> id r = id r0 -> r = r0.
Proof.
  induction t as [|x t IH]; intros Hnd Hr Hr0 Hid; [inversion Hr|].
  cbn [map] in Hnd. apply NoDup_cons in Hnd as [Hfresh Hnd].
  apply elem_of_cons in Hr as [->|Hr]; apply elem_of_cons in Hr0 as [->|Hr0].
  - reflexivity.
  - destruct Hfresh. rewrite Hid. apply list_elem_of_fmap. now exists r0.
  - destruct Hfresh. rewrite <- Hid. apply list_elem_of_fmap. now exists r.
  - now apply IH.
Qed.

Lemma mark_published_elem row_id t r' :
  r' ∈ mark_published row_id t ->
  r' ∈ t
  \/ exists r, r ∈ t /\ id r = row_id
               /\ r' = mkOutboxEvent (id r) (aggregate_id r) (event_type r)
                                     (payload r) true.
Proof.
  unfold mark_published. intros (r & -> & Hr)%list_elem_of_fmap.
  destruct (String.eqb (id r) row_id) eqn:Heq; [|now left].
  apply String.eqb_eq in Heq. right. now exists r.
Qed.

Lemma mark_published_shadow row_id t i k :
  (exists r, r ∈ t /\ id r = i /\ event_key r = k) ->
  exists r, r ∈ mark_published row_id t /\ id r = i /\ event_key r = k.
Proof.
  intros (r & Hr & Hi & Hk). unfold mark_published.
  eexists. split; [apply list_elem_of_fmap; exists r; split; [reflexivity|exact Hr]|].
  now destruct (String.eqb (id r) row_id).
Qed.

Section Delivery.

Variable dict : string -> Res string.

Lemma publish_row_known row (s : @State Beyond) :
  published_are_known s -> shadowed row (outbox_events s) ->
  published_are_known (publish_row post_to_notifications dict row s)
  /\ forall other, shadowed other (outbox_events s) ->
       shadowed other (outbox_events (publish_row post_to_notifications dict row s)).
Proof.
  intros (Hnd & Hknown & Hx) (r0 & Hr0 & Hid0 & Hkey0). unfold publish_row.
  destruct (dict (payload row)) as [body|exc]; [|now repeat split].
  pose proof (post_to_notifications_known (event_type row) (aggregate_id row) body
                (world s) Hx) as (Hsub & Hx' & Hdone).
  destruct (post_to_notifications _ _ _ _) as [outcome beyond']. cbn [fst snd] in *.
  assert (Hnext : published_are_known (set_world beyond' s)).
  { split; [exact Hnd|]. split; [|exact Hx'].
    intros r Hr Hp. cbn. apply Hsub. now apply Hknown. }
  destruct outcome as [resp|exc]; [|now split].
  destruct (status_code resp <? 300)%Z eqn:Hlt; [|now split].
  apply Z.ltb_lt in Hlt. specialize (Hdone resp eq_refl Hlt).
  assert (Hmarked : published_are_known
            (mkState (mark_published (id row) (outbox_events s)) (tl (db_outage s))
                     beyond'
                     (<[ event_type row :=
                           S (default 0%nat (OUTBOX_PUBLISHED_TOTAL s !! event_type row)) ]>
                        (OUTBOX_PUBLISHED_TOTAL s))
                     (OUTBOX_PENDING_GAUGE s) (log s))).
  { destruct (mark_published_ids (id row) (outbox_events s)) as [Hids Hkeys].
    split; [cbn -[mark_published]; now rewrite Hids|].
    split; [|exact Hx'].
    cbn -[mark_published]. intros r' Hr' Hp.
    apply mark_published_elem in Hr' as [Hr'|(r & Hr & Hid & ->)].
    - apply Hsub. now apply Hknown.
    - assert (Heq : r = r0) by (apply (row_of_id _ r r0 Hnd Hr Hr0); congruence).
      subst r. change (event_key r0 ∈ Notifications._processed_events beyond'.1).
      rewrite Hkey0. exact Hdone. }
  unfold statement. cbn -[mark_published].
  destruct (db_outage s) as [|[|] rest]; cbn -[mark_published] in *.
  - split; [exact Hmarked|]. intros other. apply mark_published_shadow.
  - now split.
  - split; [exact Hmarked|]. intros other. apply mark_published_shadow.
Qed.

Lemma publish_rows_known rows : forall s : @State Beyond,
  published_are_known s ->
  Forall (fun row => shadowed row (outbox_events s)) rows ->
  published_are_known (foldl (fun s row => publish_row post_to_notifications dict row s)
                             s rows).
Proof.
  induction rows as [|row rows IH]; intros s Hs Hrows; [exact Hs|].
  cbn [foldl]. apply Forall_cons in Hrows as [Hrow Hrows].
  destruct (publish_row_known row s Hs Hrow) as [Hs' Hkeep].
  apply IH; [exact Hs'|].
  eapply Forall_impl; [exact Hrows|]. intros other. apply Hkeep.
Qed.

Lemma outbox_pass_known (s : @State Beyond) :
  published_are_known s ->
  published_are_known (outbox_pass post_to_notifications dict s).
Proof.
  intros Hs. unfold outbox_pass.
  assert (Hst : forall s0 : @State Beyond,
            published_are_known s0 -> published_are_known (snd (statement s0))).
  { intros s0 H0. unfold statement. now destruct (db_outage s0). }
  pose proof (Hst s Hs) as Hs1.
  pose proof (statement_keeps s) as [Ht _].
  destruct (statement s) as [[|] s1]; cbn [snd] in *; [exact Hs1|].
  destruct (fetch_unpublished s1) as [|row rows] eqn:Hfetch; [exact Hs1|].
  assert (Hrows : Forall (fun row => shadowed row (outbox_events s1)) (row :: rows)).
  { rewrite <- Hfetch. apply Forall_forall. intros r Hr.
    exists r. split; [|now split].
    unfold fetch_unpublished in Hr. apply elem_of_take in Hr as (i & Hr & _).
    apply list_elem_of_lookup_2 in Hr. apply list_elem_of_In in Hr.
    apply filter_In in Hr as [Hr _]. now apply list_elem_of_In. }
  pose proof (publish_rows_known (row :: rows) s1 Hs1 Hrows) as Hs2.
  set (s2 := foldl _ s1 (row :: rows)) in *.
  pose proof (Hst s2 Hs2) as Hs3.
  destruct (statement s2) as [[|] s3]; cbn [snd] in *; exact Hs3.
Qed.

(** X30. Nothing is marked as published that the notifications service does not
    know: over any number of passes, with posts that arrive or not, answers
    that are lost, errors in between and statements that fail, every row
    marked as published has its event among the processed events of the
    notifications service.  What it held before is the precondition. *)
Theorem published_rows_are_known_to_notifications (n : nat) (s : @State Beyond) :
  published_are_known s ->
  published_are_known (Nat.iter n (outbox_pass post_to_notifications dict) s).
Proof.
  intros Hs. induction n as [|n IH]; [exact Hs|].
  cbn [Nat.iter]. now apply outbox_pass_known.
Qed.

End Delivery.

Lemma published_rows_are_known_to_notifications_witness :
  let s := mkState two_events [false; true] 
                   (Notifications.initial, [ResponseLost true true; Delivered true false])
                   ∅ 0 [] in
  published_are_known s
  /\ published_are_known (Nat.iter 3 (outbox_pass post_to_notifications Ok) s).
Proof.
  intros s.
  assert (Hs : published_are_known s).
  { split; [|split].
    - cbn. apply NoDup_cons. split; [|apply NoDup_singleton].
      intros H%list_elem_of_singleton. discriminate.
    - intros row Hrow Hp. cbn in Hrow.
      apply elem_of_cons in Hrow as [->|Hrow]; [discriminate|].
      apply list_elem_of_singleton in Hrow as ->. discriminate.
    - repeat constructor. }
  split; [exact Hs|].
  exact (published_rows_are_known_to_notifications Ok 3 s Hs).
Defined.

End OutboxFacts.
